(** * Clearing and settlement engine of the local energy market (BM_LEM)

    A shallow embedding of the pricing modules under [src/BM_LEM]
    ([pricing_UP.py], [pricing_CFRM.py], [pricing_APM.py], [pricing_MPAS.py],
    [pricing_WAM.py], [pricing_MMP.py], [pricing_IPA.py], [pricing_NBS.py],
    [pricing_CGT.py], [pricing_CGTS.py], [pricing_VCG.py], [pricing_MUP.py],
    [pricing_UPNR.py], [pricing_AUP.py]) and of the value-sharing rules
    ([value_sharing_utils.py], [vs_*.py]), and the properties of the
    settlement rounds and of the allocations they implement.

    Modelling conventions.
    - Quantities and prices are Python/numpy floats in the source.  They
      are read here as exact rationals ([Q]); equalities between numbers
      are stated with [==].
    - A pandas [DataFrame] of bids is an ordered list of rows, each with
      its index label.  Only the columns the pricing code reads
      ([quantity], [price], [buying]) are kept.
    - [pymarket.TransactionManager] is an append-only list of
      transactions; [add_transaction] appends one row.
    - [sort_values] is modelled by a stable insertion sort.  pandas sorts
      a column with numpy's quicksort, which is not stable: the source
      fixes the order of rows with different prices only.  Where a ledger
      is given as a list, the order among rows with equal prices is the
      model's; what is stated per bid ([traded_against], [traded_on],
      sums, strict price priority) does not depend on it.
    - Python exceptions ([TypeError] on arithmetic with [None],
      [IndexError]/[KeyError] on a missing row) are the value [None] of an
      [option] result. *)

From Stdlib Require Import String List ZArith QArith Qround Qabs Bool Lia Lqa Permutation.
Import ListNotations.
Local Open Scope Q_scope.

(** ** Numbers *)

Definition Qltb (x y : Q) : bool := negb (Qle_bool y x).

(** Python's [min(a, b)]: [b] when [b < a], else [a]. *)
Definition py_min (a b : Q) : Q := if Qltb b a then b else a.

(** Python's [max(a, b)]: [b] when [b > a], else [a]. *)
Definition py_max (a b : Q) : Q := if Qltb a b then b else a.

(** [max(lo, min(x, hi))], the clipping idiom of the source. *)
Definition clip (lo hi x : Q) : Q := py_max lo (py_min x hi).

Fixpoint Qsum (l : list Q) : Q :=
  match l with
  | [] => 0
  | x :: r => x + Qsum r
  end.

(** Python's built-in [sum]. *)
Definition py_sum (l : list Q) : Q := fold_left Qplus l 0.

(** [Series.mean()]; the empty mean (NaN in pandas) is never reached
    behind the guards of the callers and is given the value 0. *)
Definition Qmean (l : list Q) : Q := Qsum l / inject_Z (Z.of_nat (length l)).

(** Round half to even to the nearest integer. *)
Definition round_half_even (x : Q) : Z :=
  let f := Qfloor x in
  let r := x - inject_Z f in
  if Qltb r (1 # 2) then f
  else if Qltb (1 # 2) r then (f + 1)%Z
  else if Z.even f then f else (f + 1)%Z.

(** Python's [round(x, 4)]. *)
Definition round4 (x : Q) : Q := inject_Z (round_half_even (x * 10000)) / 10000.

(** ** Bids and data frames *)

Definition label := Z.

Record Row := mkRow { quantity : Q; price : Q; buying : bool }.

Definition DataFrame := list (label * Row).

Definition index (df : DataFrame) : list label := map fst df.

Definition quantities (df : DataFrame) : list Q := map (fun r => quantity (snd r)) df.

Definition prices (df : DataFrame) : list Q := map (fun r => price (snd r)) df.

(** [df[df['buying']]] and [df[~df['buying']]]. *)
Definition buying_rows (df : DataFrame) : DataFrame := filter (fun r => buying (snd r)) df.

Definition selling_rows (df : DataFrame) : DataFrame := filter (fun r => negb (buying (snd r))) df.

(** [df.quantity.sum()]. *)
Definition quantity_sum (df : DataFrame) : Q := Qsum (quantities df).

Fixpoint insert_asc (x : label * Row) (l : DataFrame) : DataFrame :=
  match l with
  | [] => [x]
  | y :: r => if Qle_bool (price (snd x)) (price (snd y)) then x :: l else y :: insert_asc x r
  end.

Fixpoint insert_desc (x : label * Row) (l : DataFrame) : DataFrame :=
  match l with
  | [] => [x]
  | y :: r => if Qle_bool (price (snd y)) (price (snd x)) then x :: l else y :: insert_desc x r
  end.

(** [df.sort_values('price', ascending=True)]. *)
Definition sort_values_asc (df : DataFrame) : DataFrame := fold_right insert_asc [] df.

(** [df.sort_values('price', ascending=False)]. *)
Definition sort_values_desc (df : DataFrame) : DataFrame := fold_right insert_desc [] df.

(** [df.loc[df.index == i, 'quantity'] -= q] (every row labelled [i]). *)
Definition sub_quantity (df : DataFrame) (i : label) (q : Q) : DataFrame :=
  map (fun r => if Z.eqb (fst r) i
                then (fst r, mkRow (quantity (snd r) - q) (price (snd r)) (buying (snd r)))
                else r) df.

(** [max()] and [min()] of a price column (0 for the empty column, which
    the callers never build). *)
Definition price_max (l : list Q) : Q :=
  match l with
  | [] => 0
  | x :: r => fold_left py_max r x
  end.

Definition price_min (l : list Q) : Q :=
  match l with
  | [] => 0
  | x :: r => fold_left py_min r x
  end.

(** ** Transactions *)

Record Transaction := mkTransaction {
  bid : label;
  t_quantity : Q;
  t_price : Q;
  source : Z;
  active : bool
}.

Definition TransactionManager := list Transaction.

Definition add_transaction (trans : TransactionManager)
    (b : label) (q p : Q) (s : Z) (a : bool) : TransactionManager :=
  trans ++ [mkTransaction b q p s a].

(** Total quantity recorded against bid [i]. *)
Definition traded_against (i : label) (trans : TransactionManager) : Q :=
  Qsum (map t_quantity (filter (fun t => Z.eqb (bid t) i) trans)).

(** Total quantity recorded against the bids of a frame. *)
Definition traded_on (df : DataFrame) (trans : TransactionManager) : Q :=
  Qsum (map t_quantity (filter (fun t => existsb (Z.eqb (bid t)) (index df)) trans)).

Definition ledger_quantity (trans : TransactionManager) : Q := Qsum (map t_quantity trans).

(** ** pricing_UP.py *)

Module UP.

Definition demand_qty (buyers : DataFrame) (p : Q) : Q :=
  quantity_sum (filter (fun r => Qle_bool p (price (snd r))) buyers).

Definition supply_qty (sellers : DataFrame) (p : Q) : Q :=
  quantity_sum (filter (fun r => Qle_bool (price (snd r)) p) sellers).

Definition traded_qty (buyers sellers : DataFrame) (p : Q) : Q :=
  py_min (demand_qty buyers p) (supply_qty sellers p).

(** [sorted(set(...).union(...))]: insertion into an ascending list that
    holds no two equal prices. *)
Fixpoint insert_unique (p : Q) (l : list Q) : list Q :=
  match l with
  | [] => [p]
  | y :: r => if Qeq_bool p y then l
              else if Qle_bool p y then p :: l
              else y :: insert_unique p r
  end.

Definition candidate_prices (buyers sellers : DataFrame) : list Q :=
  fold_right insert_unique [] (prices buyers ++ prices sellers).

(** The [for p in candidate_prices] loop, on the pair
    [(best_price, best_quantity)]. *)
Fixpoint scan (buyers sellers : DataFrame) (cands : list Q)
    (best_price : option Q) (best_quantity : Q) : option Q * Q :=
  match cands with
  | [] => (best_price, best_quantity)
  | p :: rest =>
      let t := traded_qty buyers sellers p in
      if Qltb best_quantity t
      then scan buyers sellers rest (Some p) t
      else scan buyers sellers rest best_price best_quantity
  end.

(** Returns [(quantity, price)]; [(None, None)] is the empty clearing. *)
Definition find_clearing_price_and_quantity (bids : DataFrame) : option Q * option Q :=
  let buyers := buying_rows bids in
  let sellers := selling_rows bids in
  match buyers, sellers with
  | [], _ | _, [] => (None, None)
  | _, _ =>
      let '(best_price, best_quantity) :=
        scan buyers sellers (candidate_prices buyers sellers) None 0 in
      if Qeq_bool best_quantity 0 then (None, None)
      else (Some best_quantity, best_price)
  end.

(** One of the two execution loops of [uniform_price_mechanism]. *)
Fixpoint execute_trades (rows : DataFrame) (qty_left clearing_price : Q)
    (trans : TransactionManager) : TransactionManager :=
  match rows with
  | [] => trans
  | (i, row) :: rest =>
      let q := py_min (quantity row) qty_left in
      if Qle_bool q 0 then execute_trades rest qty_left clearing_price trans
      else
        let trans' := add_transaction trans i q clearing_price (-1) false in
        let qty_left' := qty_left - q in
        if Qle_bool qty_left' 0 then trans'
        else execute_trades rest qty_left' clearing_price trans'
  end.

Record Result := mkResult {
  clearing_quantity : Q;
  clearing_price : option Q
}.

(** The frames and ledgers [uniform_price_mechanism] builds once a
    clearing price is known. *)
Definition willing_buyers (bids : DataFrame) (cp : Q) : DataFrame :=
  sort_values_desc (filter (fun r => buying (snd r) && Qle_bool cp (price (snd r))) bids).

Definition willing_sellers (bids : DataFrame) (cp : Q) : DataFrame :=
  sort_values_asc (filter (fun r => negb (buying (snd r)) && Qle_bool (price (snd r)) cp) bids).

Definition uniform_price_mechanism (bids : DataFrame) : TransactionManager * Result :=
  let trans : TransactionManager := [] in
  match find_clearing_price_and_quantity bids with
  | (Some _, Some cp) =>
      let buyers := willing_buyers bids cp in
      let sellers := willing_sellers bids cp in
      let traded_quantity := py_min (quantity_sum buyers) (quantity_sum sellers) in
      let trans := execute_trades sellers traded_quantity cp trans in
      let trans := execute_trades buyers traded_quantity cp trans in
      (trans, mkResult (round4 traded_quantity) (Some (round4 cp)))
  | _ => (trans, mkResult 0 None)
  end.

End UP.

(** ** The first step shared by every [two_steps_*_mechanism] *)

(** Keyword arguments.  Every mechanism pops the keys it knows with the
    defaults below; any other key stays in [**kwargs] and is never read. *)
Record Kwargs := mkKwargs {
  FIT : Q;
  TOU : Q;
  alpha : Q;
  theta : Q;
  epsilon : Q;
  cap : Q;
  floor : Q;
  num_samples : nat;
  other : list (string * Z)
}.

Definition default_kwargs : Kwargs :=
  mkKwargs (1 # 10) (25 # 100) (5 # 10) (1 # 10) (1 # 100) 100 10 100 [].

(** The [extra] dictionary: ['clearing quantity UP'], ['clearing price'],
    the mechanism's quantity entry (['CFRM quantity'], ['APM quantity'],
    ['mediation quantity'], ...), its price entry (['CFRM price'],
    ['last price'], ...) and ['Total quantity']. *)
Record Extra := mkExtra {
  clearing_quantity_UP : Q;
  clearing_price : option Q;
  residual_quantity : Q;
  residual_price : option Q;
  total_quantity : Q
}.

Definition make_extra (UPq_ : Q) (UPprice : option Q) (Mq_ : Q) (Mprice : option Q) : Extra :=
  mkExtra UPq_ UPprice Mq_
    (match Mprice with None => UPprice | Some _ => Mprice end)
    (UPq_ + Mq_).

Record Primary := mkPrimary {
  trans0 : TransactionManager;
  UPprice : option Q;
  UPq_ : Q;
  unsold_quantity : Q;
  demanded_quantity : Q;
  bids_uncovered0 : DataFrame
}.

(** "Merge UP transactions". *)
Definition merge_transactions (trans trans_UP : TransactionManager) : TransactionManager :=
  fold_left (fun tr row =>
               add_transaction tr (bid row) (t_quantity row) (t_price row) (source row) (active row))
            trans_UP trans.

(** "Update remaining quantities". *)
Definition update_remaining (bidsUP : DataFrame) (trans_UP : TransactionManager) : DataFrame :=
  fold_left (fun df row =>
               if existsb (Z.eqb (bid row)) (index df)
               then sub_quantity df (bid row) (t_quantity row)
               else df)
            trans_UP bidsUP.

(** [bidsUP.loc[bidsUP['quantity'] > 0, :]]. *)
Definition uncovered (bidsUP : DataFrame) : DataFrame :=
  filter (fun r => Qltb 0 (quantity (snd r))) bidsUP.

Definition primary_phase (bids : DataFrame) : Primary :=
  let '(trans_UP, result_UP) := UP.uniform_price_mechanism bids in
  let trans := merge_transactions [] trans_UP in
  let bidsUP := update_remaining bids trans_UP in
  mkPrimary trans (UP.clearing_price result_UP) (UP.clearing_quantity result_UP)
    (quantity_sum (selling_rows bidsUP)) (quantity_sum (buying_rows bidsUP))
    (uncovered bidsUP).

(** [unsold_quantity > 0 and demanded_quantity > 0]. *)
Definition residual_guard (P : Primary) : bool :=
  Qltb 0 (unsold_quantity P) && Qltb 0 (demanded_quantity P).

(** ** The allocation loops repeated in APM, CFRM, WAM, MMP, MPAS and IPA *)

Module Common.

(** [long_side, short_side] as chosen by [buying_quantity > selling_quantity]. *)
Definition sides (bids_uncovered : DataFrame) : DataFrame * DataFrame :=
  let buying_bids := sort_values_desc (buying_rows bids_uncovered) in
  let selling_bids := sort_values_asc (selling_rows bids_uncovered) in
  if Qltb (quantity_sum selling_bids) (quantity_sum buying_bids)
  then (buying_bids, selling_bids)
  else (selling_bids, buying_bids).

Definition long_side (b : DataFrame) : DataFrame := fst (sides b).
Definition short_side (b : DataFrame) : DataFrame := snd (sides b).

(** [for i, x in short_side.iterrows()]: returns the updated
    [traded_quantity], frame and ledger. *)
Fixpoint short_loop (price_of : Row -> Q) (rows : DataFrame) (traded_quantity : Q)
    (bids_uncovered : DataFrame) (trans : TransactionManager)
    : Q * DataFrame * TransactionManager :=
  match rows with
  | [] => (traded_quantity, bids_uncovered, trans)
  | (i, x) :: rest =>
      if Qle_bool traded_quantity 0 then (traded_quantity, bids_uncovered, trans)
      else
        let trade_qty := py_min (quantity x) traded_quantity in
        short_loop price_of rest (traded_quantity - trade_qty)
          (sub_quantity bids_uncovered i trade_qty)
          (add_transaction trans i trade_qty (price_of x) (-1) false)
  end.

(** [for i, x in long_side.iterrows()]. *)
Fixpoint long_loop (price_of : Row -> Q) (rows : DataFrame) (traded_quantity quantity_added : Q)
    (bids_uncovered : DataFrame) (trans : TransactionManager)
    : DataFrame * TransactionManager :=
  match rows with
  | [] => (bids_uncovered, trans)
  | (i, x) :: rest =>
      if Qle_bool traded_quantity 0 then (bids_uncovered, trans)
      else
        let x_quantity := py_min (quantity x) (traded_quantity - quantity_added) in
        long_loop price_of rest traded_quantity (quantity_added + x_quantity)
          (sub_quantity bids_uncovered i x_quantity)
          (add_transaction trans i x_quantity (price_of x) (-1) false)
  end.

(** Both loops in sequence, from [traded_quantity = short_side.quantity.sum()]. *)
Definition allocate (short_price long_price : Row -> Q)
    (bids_uncovered : DataFrame) (trans : TransactionManager)
    : DataFrame * TransactionManager :=
  let '(long_side, short_side) := sides bids_uncovered in
  let traded_quantity := quantity_sum short_side in
  let '(traded_quantity, bids_uncovered, trans) :=
    short_loop short_price short_side traded_quantity bids_uncovered trans in
  long_loop long_price long_side traded_quantity 0 bids_uncovered trans.

End Common.

(** ** pricing_CFRM.py *)

Module CFRM.

Definition midpoint_price (bids_uncovered : DataFrame) : Q :=
  let buying_bids := sort_values_desc (buying_rows bids_uncovered) in
  let selling_bids := sort_values_asc (selling_rows bids_uncovered) in
  (Qmean (prices buying_bids) + Qmean (prices selling_bids)) / 2.

Definition cap_and_floor_range_midpoint (bids_uncovered : DataFrame) (trans : TransactionManager)
    : DataFrame * Q * TransactionManager :=
  let p := midpoint_price bids_uncovered in
  let '(bids_uncovered, trans) :=
    Common.allocate (fun _ => p) (fun _ => p) bids_uncovered trans in
  (bids_uncovered, p, trans).

Definition two_steps_CFRM_mechanism (bids : DataFrame) (kwargs : Kwargs)
    : TransactionManager * Extra :=
  let P := primary_phase bids in
  if residual_guard P then
    let '(bidsM, CFRMprice, trans) := cap_and_floor_range_midpoint (bids_uncovered0 P) (trans0 P) in
    (trans, make_extra (UPq_ P) (UPprice P) (quantity_sum bidsM) (Some CFRMprice))
  else (trans0 P, make_extra (UPq_ P) (UPprice P) 0 (UPprice P)).

End CFRM.

(** ** pricing_APM.py *)

Module APM.

(** [side.iloc[0].price].  The loops evaluate it only inside a loop body,
    which runs only when the other side is not empty; the value 0 on the
    empty frame is never used. *)
Definition iloc0_price (side : DataFrame) : Q :=
  match side with
  | [] => 0
  | (_, x) :: _ => price x
  end.

Definition average_price_method (bids_uncovered : DataFrame) (trans : TransactionManager)
    : DataFrame * TransactionManager :=
  let '(long_side, short_side) := Common.sides bids_uncovered in
  Common.allocate (fun x => (price x + iloc0_price long_side) / 2)
                  (fun x => (price x + iloc0_price short_side) / 2)
                  bids_uncovered trans.

Definition two_steps_APM_mechanism (bids : DataFrame) (kwargs : Kwargs)
    : TransactionManager * Extra :=
  let P := primary_phase bids in
  if residual_guard P then
    let '(bidsM, trans) := average_price_method (bids_uncovered0 P) (trans0 P) in
    let APMprice := match bidsM with
                    | [] => UPprice P
                    | _ => Some (Qmean (prices bidsM))
                    end in
    (trans, make_extra (UPq_ P) (UPprice P) (quantity_sum bidsM) APMprice)
  else (trans0 P, make_extra (UPq_ P) (UPprice P) 0 (UPprice P)).

End APM.

(** ** pricing_MPAS.py *)

Module MPAS.

Definition adjusted_price (bids_uncovered : DataFrame) (alpha : Q) : Q :=
  let buy_price_max := price_max (prices (buying_rows bids_uncovered)) in
  let sell_price_min := price_min (prices (selling_rows bids_uncovered)) in
  let spread := buy_price_max - sell_price_min in
  (buy_price_max + sell_price_min) / 2 + alpha * spread.

Definition marginal_price_adjusted_by_spread (bids_uncovered : DataFrame)
    (trans : TransactionManager) (alpha : Q) : DataFrame * TransactionManager :=
  let p := adjusted_price bids_uncovered alpha in
  Common.allocate (fun _ => p) (fun _ => p) bids_uncovered trans.

Definition two_steps_MPAS_mechanism (bids : DataFrame) (kwargs : Kwargs)
    : TransactionManager * Extra :=
  let P := primary_phase bids in
  if residual_guard P then
    let '(bidsM, trans) :=
      marginal_price_adjusted_by_spread (bids_uncovered0 P) (trans0 P) (alpha kwargs) in
    let MPASprice := match bidsM with
                     | [] => UPprice P
                     | _ => Some (Qmean (prices bidsM))
                     end in
    (trans, make_extra (UPq_ P) (UPprice P) (quantity_sum bidsM) MPASprice)
  else (trans0 P, make_extra (UPq_ P) (UPprice P) 0 (UPprice P)).

End MPAS.

(** ** pricing_WAM.py *)

Module WAM.

Definition weighted_price (bids_uncovered : DataFrame) : Q :=
  let buying_bids := sort_values_desc (buying_rows bids_uncovered) in
  let selling_bids := sort_values_asc (selling_rows bids_uncovered) in
  let pq (df : DataFrame) := Qsum (map (fun r => price (snd r) * quantity (snd r)) df) in
  (pq buying_bids + pq selling_bids) / (quantity_sum buying_bids + quantity_sum selling_bids).

Definition weighted_average_method (bids_uncovered : DataFrame) (trans : TransactionManager)
    : DataFrame * Q * TransactionManager :=
  let p := weighted_price bids_uncovered in
  let '(bids_uncovered, trans) :=
    Common.allocate (fun _ => p) (fun _ => p) bids_uncovered trans in
  (bids_uncovered, p, trans).

Definition two_steps_WAM_mechanism (bids : DataFrame) (kwargs : Kwargs)
    : TransactionManager * Extra :=
  let P := primary_phase bids in
  if residual_guard P then
    let '(bidsM, WAMprice, trans) := weighted_average_method (bids_uncovered0 P) (trans0 P) in
    (trans, make_extra (UPq_ P) (UPprice P) (quantity_sum bidsM) (Some WAMprice))
  else (trans0 P, make_extra (UPq_ P) (UPprice P) 0 (UPprice P)).

End WAM.

(** ** pricing_MMP.py *)

Module MMP.

Definition marginal_price (bids_uncovered : DataFrame) : Q :=
  let buying_bids := sort_values_desc (buying_rows bids_uncovered) in
  let selling_bids := sort_values_asc (selling_rows bids_uncovered) in
  (price_max (prices buying_bids) + price_min (prices selling_bids)) / 2.

Definition modified_marginal_price (bids_uncovered : DataFrame) (trans : TransactionManager)
    : DataFrame * Q * TransactionManager :=
  let p := marginal_price bids_uncovered in
  let '(bids_uncovered, trans) :=
    Common.allocate (fun _ => p) (fun _ => p) bids_uncovered trans in
  (bids_uncovered, p, trans).

Definition two_steps_MMP_mechanism (bids : DataFrame) (kwargs : Kwargs)
    : TransactionManager * Extra :=
  let P := primary_phase bids in
  if residual_guard P then
    let '(bidsM, MMPprice, trans) := modified_marginal_price (bids_uncovered0 P) (trans0 P) in
    (trans, make_extra (UPq_ P) (UPprice P) (quantity_sum bidsM) (Some MMPprice))
  else (trans0 P, make_extra (UPq_ P) (UPprice P) 0 (UPprice P)).

End MMP.

(** ** Outcomes of the mechanisms that can raise or loop *)

Inductive outcome (A : Type) : Type :=
| Returns (a : A)
| Raises
| OutOfFuel.

Arguments Returns {A} a.
Arguments Raises {A}.
Arguments OutOfFuel {A}.

(** ** pricing_IPA.py *)

Module IPA.

(** One evaluation of the body of [while True]: the clipped [new_price]. *)
Definition next_price (FIT TOU theta pmax pmin adjusted_price : Q) : Q :=
  let new_price := adjusted_price + theta * ((pmax - adjusted_price) + (adjusted_price - pmin)) / 2 in
  clip FIT TOU new_price.

(** The [while True] loop; [None] when [fuel] iterations did not reach
    the [break]. *)
Fixpoint price_loop (fuel : nat) (FIT TOU theta epsilon pmax pmin adjusted_price : Q) : option Q :=
  match fuel with
  | O => None
  | S fuel' =>
      let new_price := next_price FIT TOU theta pmax pmin adjusted_price in
      if Qltb (Qabs (new_price - adjusted_price)) epsilon then Some adjusted_price
      else price_loop fuel' FIT TOU theta epsilon pmax pmin new_price
  end.

Definition iterative_price_adjustment (fuel : nat) (bids_uncovered : DataFrame)
    (trans : TransactionManager) (theta epsilon MP FIT TOU : Q)
    : option (DataFrame * Q * TransactionManager) :=
  match price_loop fuel FIT TOU theta epsilon
          (price_max (prices bids_uncovered)) (price_min (prices bids_uncovered)) MP with
  | None => None
  | Some adjusted_price =>
      let '(bids_uncovered, trans) :=
        Common.allocate (fun _ => adjusted_price) (fun _ => adjusted_price) bids_uncovered trans in
      Some (bids_uncovered, adjusted_price, trans)
  end.

Definition two_steps_IPA_mechanism (fuel : nat) (bids : DataFrame) (kwargs : Kwargs)
    : outcome (TransactionManager * Extra) :=
  let P := primary_phase bids in
  if residual_guard P then
    match UPprice P with
    | None => Raises
    | Some MP =>
        match iterative_price_adjustment fuel (bids_uncovered0 P) (trans0 P)
                (theta kwargs) (epsilon kwargs) MP (FIT kwargs) (TOU kwargs) with
        | None => OutOfFuel
        | Some (bidsM, IPAprice, trans) =>
            Returns (trans, make_extra (UPq_ P) (UPprice P) (quantity_sum bidsM) (Some IPAprice))
        end
    end
  else Returns (trans0 P, make_extra (UPq_ P) (UPprice P) 0 (UPprice P)).

End IPA.

(** ** The pairwise matching loop of NBS, CGT, CGTS and VCG *)

Module Pairwise.

(** [df.at[i, 'quantity']]. *)
Definition at_quantity (df : DataFrame) (i : label) : Q :=
  match find (fun r => Z.eqb (fst r) i) df with
  | Some r => quantity (snd r)
  | None => 0
  end.

(** [for j, seller in matching_sellers.iterrows()], for the buyer [(i, row)]
    read when the outer loop started. *)
Fixpoint match_sellers (buyer_price seller_price : label -> label -> Q)
    (i : label) (row : Row) (matching_sellers : DataFrame)
    (bids_uncovered : DataFrame) (trans : TransactionManager)
    : DataFrame * TransactionManager :=
  match matching_sellers with
  | [] => (bids_uncovered, trans)
  | (j, seller) :: rest =>
      let q := py_min (quantity row) (quantity seller) in
      let trans := add_transaction trans i q (buyer_price i j) (-1) false in
      let trans := add_transaction trans j q (seller_price i j) (-1) false in
      let bids_uncovered := sub_quantity bids_uncovered i q in
      let bids_uncovered := sub_quantity bids_uncovered j q in
      if Qeq_bool (at_quantity bids_uncovered i) 0 then (bids_uncovered, trans)
      else match_sellers buyer_price seller_price i row rest bids_uncovered trans
  end.

(** [for i, row in bids_uncovered.iterrows()]: [rows] are the rows as
    they were when the loop started, [bids_uncovered] is the frame the
    loop updates and re-reads for [matching_sellers]. *)
Fixpoint match_buyers (buyer_price seller_price : label -> label -> Q)
    (rows : DataFrame) (bids_uncovered : DataFrame) (trans : TransactionManager)
    : DataFrame * TransactionManager :=
  match rows with
  | [] => (bids_uncovered, trans)
  | (i, row) :: rest =>
      if buying row then
        let '(bids_uncovered, trans) :=
          match_sellers buyer_price seller_price i row (selling_rows bids_uncovered)
            bids_uncovered trans in
        match_buyers buyer_price seller_price rest bids_uncovered trans
      else match_buyers buyer_price seller_price rest bids_uncovered trans
  end.

Definition pairwise (price_of : label -> label -> Q)
    (bids_uncovered : DataFrame) (trans : TransactionManager)
    : DataFrame * TransactionManager :=
  match_buyers price_of price_of bids_uncovered bids_uncovered trans.

End Pairwise.

(** ** pricing_NBS.py *)

Module NBS.

Definition nash_bargaining_solution (fuel : nat) (bids_uncovered : DataFrame)
    (trans : TransactionManager) (cap floor theta epsilon MP : Q)
    : option (DataFrame * Q * TransactionManager) :=
  match IPA.price_loop fuel floor cap theta epsilon
          (price_max (prices bids_uncovered)) (price_min (prices bids_uncovered)) MP with
  | None => None
  | Some adjusted_price =>
      let '(bids_uncovered, trans) :=
        Pairwise.pairwise (fun _ _ => adjusted_price) bids_uncovered trans in
      Some (bids_uncovered, adjusted_price, trans)
  end.

Definition two_steps_NBS_mechanism (fuel : nat) (bids : DataFrame) (kwargs : Kwargs)
    : outcome (TransactionManager * Extra) :=
  let P := primary_phase bids in
  if residual_guard P then
    match UPprice P with
    | None => Raises
    | Some MP =>
        match nash_bargaining_solution fuel (bids_uncovered0 P) (trans0 P)
                (cap kwargs) (floor kwargs) (theta kwargs) (epsilon kwargs) MP with
        | None => OutOfFuel
        | Some (bidsM, NBSprice, trans) =>
            Returns (trans, make_extra (UPq_ P) (UPprice P) (quantity_sum bidsM) (Some NBSprice))
        end
    end
  else Returns (trans0 P, make_extra (UPq_ P) (UPprice P) 0 (UPprice P)).

End NBS.

(** ** pricing_UPNR.py *)

Module UPNR.

Section NewtonRaphson.

Variables buyers sellers : DataFrame.
Variable maxQt : Q.

Definition price_at (k : Q) : Q :=
  (Qmean (prices sellers) * (1 - k) + Qmean (prices buyers) * (1 + k)) / 2.

Definition fprice (k : Q) : Q :=
  let price_ := price_at k in
  let demand := quantity_sum (filter (fun r => Qltb price_ (price (snd r) * (1 + k))) buyers) in
  let supply := quantity_sum (filter (fun r => Qltb (price (snd r) * (1 - k)) price_) sellers) in
  let Qt := py_min demand supply in
  maxQt - Qt.

(** [numerical_derivative]: its free variable [k] is the [k = 0.0005] of
    the enclosing function. *)
Fixpoint derivative_loop (n : nat) (k0 h : Q) : Q :=
  match n with
  | O => 0
  | S n' =>
      let derivative := (fprice (k0 + h) - fprice k0) / h in
      if negb (Qeq_bool derivative 0) then derivative
      else derivative_loop n' k0 (h * 10)
  end.

Definition numerical_derivative (k0 : Q) : Q := derivative_loop 100 k0 (1 # 100000).

(** [find_equilibrium_newton_raphson]; [price_] is the local [price] after
    the last completed iteration. *)
Fixpoint newton_loop (n : nat) (k0 k price_ : Q) : Q :=
  match n with
  | O => price_
  | S n' =>
      let f_p := fprice k in
      let f_prime_p := numerical_derivative k0 in
      if Qltb (Qabs f_p) (1 # 100) then round4 (price_at k)
      else
        let k := k - (1 # 10) * f_p / (f_prime_p + (1 # 100000)) in
        newton_loop n' k0 k (round4 (price_at k))
  end.

Definition find_equilibrium_newton_raphson (k : Q) : Q := newton_loop 100 k k 0.

End NewtonRaphson.

Record Adjustment := mkAdjustment {
  bidsM : DataFrame;
  Mprice : Q;
  Mq_ : Q;
  Mtrans : TransactionManager
}.

(** "All the short side will trade at `price`". *)
Fixpoint short_loop (price_ : Q) (rows : DataFrame)
    (bids_uncovered : DataFrame) (trans : TransactionManager)
    : DataFrame * TransactionManager :=
  match rows with
  | [] => (bids_uncovered, trans)
  | (i, x) :: rest =>
      short_loop price_ rest (sub_quantity bids_uncovered i (quantity x))
        (add_transaction trans i (quantity x) price_ (-1) false)
  end.

(** "The long side has to trade only up to the short side". *)
Fixpoint long_loop (price_ : Q) (rows : DataFrame) (traded_quantity quantity_added : Q)
    (bids_uncovered : DataFrame) (trans : TransactionManager)
    : DataFrame * TransactionManager :=
  match rows with
  | [] => (bids_uncovered, trans)
  | (i, x) :: rest =>
      if Qeq_bool quantity_added traded_quantity then (bids_uncovered, trans)
      else
        let x_quantity :=
          if Qle_bool (quantity x + quantity_added) traded_quantity then quantity x
          else traded_quantity - quantity_added in
        long_loop price_ rest traded_quantity (quantity_added + x_quantity)
          (sub_quantity bids_uncovered i x_quantity)
          (add_transaction trans i x_quantity price_ (-1) false)
  end.

(** The price the Newton-Raphson search settles on for a frame. *)
Definition discovered_price (bids_uncovered : DataFrame) : Q :=
  let buyers := sort_values_desc (buying_rows bids_uncovered) in
  let sellers := sort_values_asc (selling_rows bids_uncovered) in
  let maxQt := py_min (quantity_sum sellers) (quantity_sum buyers) in
  find_equilibrium_newton_raphson buyers sellers maxQt (5 # 10000).

Definition newton_raphson_adjustment (bids_uncovered : DataFrame) (trans : TransactionManager)
    (FIT TOU : Q) : Adjustment :=
  let buyers := sort_values_desc (buying_rows bids_uncovered) in
  let sellers := sort_values_asc (selling_rows bids_uncovered) in
  let QS := quantity_sum sellers in
  let QB := quantity_sum buyers in
  let maxQt := py_min QS QB in
  let price_ := discovered_price bids_uncovered in
  if Qltb TOU price_ || Qltb price_ FIT then mkAdjustment bids_uncovered 0 0 trans
  else
    let '(long_side, short_side) :=
      if Qltb QS QB then (buyers, sellers) else (sellers, buyers) in
    let traded_quantity := maxQt in
    let '(bids_uncovered, trans) := short_loop price_ short_side bids_uncovered trans in
    let '(bids_uncovered, trans) :=
      long_loop price_ long_side traded_quantity 0 bids_uncovered trans in
    mkAdjustment bids_uncovered price_ traded_quantity trans.

Definition two_steps_UPNR_mechanism (bids : DataFrame) (kwargs : Kwargs)
    : TransactionManager * Extra :=
  let P := primary_phase bids in
  if residual_guard P then
    let A := newton_raphson_adjustment (bids_uncovered0 P) (trans0 P) (FIT kwargs) (TOU kwargs) in
    (Mtrans A, make_extra (UPq_ P) (UPprice P) (Mq_ A) (Some (Mprice A)))
  else (trans0 P, make_extra (UPq_ P) (UPprice P) 0 (UPprice P)).

End UPNR.

(** ** pricing_CGTS.py *)

Module CGTS.

(** *** pandas Series arithmetic used by [calculate_welfare] *)

(** A [Series]: values with their index labels. *)
Definition Series := list (label * Q).

(** [bids.loc[mask, 'price']]. *)
Definition price_series (df : DataFrame) : Series := map (fun r => (fst r, price (snd r))) df.

Definition series_get (s : Series) (l : label) : option Q :=
  option_map snd (find (fun e => Z.eqb (fst e) l) s).

(** [a - b] on two Series: pandas aligns the operands on their index
    labels (outer join); a label present on one side only gets NaN,
    written [None].  Labels are unique in every frame [pymarket] builds. *)
Definition series_sub (a b : Series) : list (label * option Q) :=
  map (fun e => (fst e, match series_get b (fst e) with
                        | Some y => Some (snd e - y)
                        | None => None
                        end)) a
  ++ map (fun e => (fst e, None))
         (filter (fun e => match series_get a (fst e) with Some _ => false | None => true end) b).

(** [Series.sum()], which skips NaN. *)
Fixpoint sum_skipna (s : list (label * option Q)) : Q :=
  match s with
  | [] => 0
  | (_, Some v) :: r => v + sum_skipna r
  | (_, None) :: r => sum_skipna r
  end.

Definition calculate_welfare (bids : DataFrame) : Q :=
  sum_skipna (series_sub (price_series (buying_rows bids)) (price_series (selling_rows bids))).

(** [df.loc[S]] for a list of labels; a label without a row is a [KeyError]. *)
Fixpoint loc_list (df : DataFrame) (S : list label) : option DataFrame :=
  match S with
  | [] => Some []
  | l :: S' =>
      let rows := filter (fun r => Z.eqb (fst r) l) df in
      match rows, loc_list df S' with
      | _ :: _, Some rest => Some (rows ++ rest)
      | _, _ => None
      end
  end.

(** *** The process-wide random generator *)

(** [random.shuffle] draws from CPython's module-level generator, which
    lies outside the repository.  The state of that generator is
    represented by the tape of raw draws it will hand out next; seeding the
    generator fixes the tape.  [randbelow n] reduces the next draw below
    [n]. *)
Definition Generator := list nat.

Definition randbelow (n : nat) (g : Generator) : nat * Generator :=
  match g with
  | [] => (O, [])
  | d :: g' => (Nat.modulo d n, g')
  end.

Fixpoint set_nth (x : list label) (i : nat) (v : label) : list label :=
  match x, i with
  | [], _ => []
  | _ :: r, O => v :: r
  | y :: r, S i' => y :: set_nth r i' v
  end.

(** [x[i], x[j] = x[j], x[i]]. *)
Definition swap (x : list label) (i j : nat) : list label :=
  let xi := nth i x 0%Z in
  let xj := nth j x 0%Z in
  set_nth (set_nth x i xj) j xi.

(** [for i in reversed(range(1, len(x))): j = randbelow(i + 1); swap],
    from index [i] down to 1. *)
Fixpoint shuffle_from (i : nat) (x : list label) (g : Generator) : list label * Generator :=
  match i with
  | O => (x, g)
  | S i' =>
      let '(j, g) := randbelow (S i) g in
      shuffle_from i' (swap x i j) g
  end.

(** [random.shuffle(x)]. *)
Definition shuffle (x : list label) (g : Generator) : list label * Generator :=
  shuffle_from (List.length x - 1) x g.

(** *** The mechanism *)

(** The [shapley_values] dictionary, in insertion order. *)
Definition Shapley := list (label * Q).

Definition sv_get (sv : Shapley) (p : label) : Q :=
  match find (fun e => Z.eqb (fst e) p) sv with
  | Some e => snd e
  | None => 0
  end.

(** [shapley_values[p] += v]; a missing key is a [KeyError]. *)
Definition sv_add (sv : Shapley) (p : label) (v : Q) : option Shapley :=
  if existsb (Z.eqb p) (map fst sv)
  then Some (map (fun e => if Z.eqb (fst e) p then (fst e, snd e + v) else e) sv)
  else None.

(** [for p in participants], with the coalition [S] built so far. *)
Fixpoint coalition_loop (bids_uncovered : DataFrame) (num_samples : nat)
    (participants S : list label) (sv : Shapley) : option Shapley :=
  match participants with
  | [] => Some sv
  | p :: rest =>
      let W_S := match S with
                 | [] => Some 0
                 | _ => option_map calculate_welfare (loc_list bids_uncovered S)
                 end in
      let S := S ++ [p] in
      let W_S_plus_p := option_map calculate_welfare (loc_list bids_uncovered S) in
      match W_S, W_S_plus_p with
      | Some w, Some w' =>
          match sv_add sv p ((w' - w) / inject_Z (Z.of_nat num_samples)) with
          | Some sv => coalition_loop bids_uncovered num_samples rest S sv
          | None => None
          end
      | _, _ => None
      end
  end.

(** [for _ in range(num_samples)]; [n] counts the samples still to draw.
    [participants] is shuffled in place, so each shuffle starts from the
    previous order. *)
Fixpoint sample_loop (n : nat) (bids_uncovered : DataFrame) (num_samples : nat)
    (participants : list label) (sv : Shapley) (g : Generator)
    : option (Shapley * Generator) :=
  match n with
  | O => Some (sv, g)
  | S n' =>
      let '(participants, g) := shuffle participants g in
      match coalition_loop bids_uncovered num_samples participants [] sv with
      | Some sv => sample_loop n' bids_uncovered num_samples participants sv g
      | None => None
      end
  end.

Definition monte_carlo_shapley (bids_uncovered : DataFrame) (num_samples : nat) (g : Generator)
    : option (Shapley * Generator) :=
  let shapley_values := map (fun p => (p, 0)) (index bids_uncovered) in
  let participants := index bids_uncovered in
  sample_loop num_samples bids_uncovered num_samples participants shapley_values g.

Record Allocation := mkAllocation {
  bidsM : DataFrame;
  shapley_values : Shapley;
  CGTprice : Q;
  CGTtrans : TransactionManager
}.

Definition cooperative_game_theory_shapley_monte_carlo (bids_uncovered : DataFrame)
    (trans : TransactionManager) (cap floor : Q) (num_samples : nat) (g : Generator)
    : option (Allocation * Generator) :=
  match monte_carlo_shapley bids_uncovered num_samples g with
  | None => None
  | Some (sv, g) =>
      let price_of i j := clip floor cap ((sv_get sv i + sv_get sv j) / 2) in
      let '(bids_uncovered, trans) := Pairwise.pairwise price_of bids_uncovered trans in
      Some (mkAllocation bids_uncovered sv
              (py_sum (map snd sv) / inject_Z (Z.of_nat (List.length sv))) trans, g)
  end.

(** The result of a run: ledger, summary, the Shapley values it used and
    the generator state it leaves behind. *)
Record Run := mkRun {
  ledger : TransactionManager;
  extra : Extra;
  shapley : Shapley;
  generator_after : Generator
}.

Definition two_steps_CGTS_mechanism (bids : DataFrame) (kwargs : Kwargs) (g : Generator)
    : outcome Run :=
  let P := primary_phase bids in
  if residual_guard P then
    match cooperative_game_theory_shapley_monte_carlo (bids_uncovered0 P) (trans0 P)
            (cap kwargs) (floor kwargs) (num_samples kwargs) g with
    | None => Raises
    | Some (A, g) =>
        Returns (mkRun (CGTtrans A)
                   (make_extra (UPq_ P) (UPprice P) (quantity_sum (bidsM A)) (Some (CGTprice A)))
                   (shapley_values A) g)
    end
  else Returns (mkRun (trans0 P) (make_extra (UPq_ P) (UPprice P) 0 (UPprice P)) [] g).

End CGTS.

(** ** pricing_CGT.py *)

Module CGT.

Fixpoint selections (l : list label) : list (label * list label) :=
  match l with
  | [] => []
  | x :: r => (x, r) :: map (fun yr => (fst yr, x :: snd yr)) (selections r)
  end.

Fixpoint permutations_of (n : nat) (l : list label) : list (list label) :=
  match n with
  | O => [[]]
  | S n' => flat_map (fun xr => map (cons (fst xr)) (permutations_of n' (snd xr))) (selections l)
  end.

(** [itertools.permutations(l)]. *)
Definition permutations (l : list label) : list (list label) :=
  permutations_of (List.length l) l.

(** The body of [for perm in ...]: one marginal contribution. *)
Definition marginal_contribution (bids_uncovered : DataFrame) (p : label) (S : list label)
    : option Q :=
  let W_S := match S with
             | [] => Some 0
             | _ => option_map CGTS.calculate_welfare (CGTS.loc_list bids_uncovered S)
             end in
  let W_S_plus_p :=
    option_map CGTS.calculate_welfare (CGTS.loc_list bids_uncovered (S ++ [p])) in
  match W_S, W_S_plus_p with
  | Some w, Some w' => Some (w' - w)
  | _, _ => None
  end.

Fixpoint collect (l : list (option Q)) : option (list Q) :=
  match l with
  | [] => Some []
  | Some x :: r => option_map (cons x) (collect r)
  | None :: _ => None
  end.

(** [shapley_values[p]] for one participant. *)
Definition shapley_value (bids_uncovered : DataFrame) (participants : list label) (p : label)
    : option Q :=
  let others := filter (fun x => negb (Z.eqb x p)) participants in
  match collect (map (marginal_contribution bids_uncovered p) (permutations others)) with
  | Some mc => Some (py_sum mc / inject_Z (Z.of_nat (List.length mc)))
  | None => None
  end.

Fixpoint shapley_loop (bids_uncovered : DataFrame) (participants todo : list label)
    : option CGTS.Shapley :=
  match todo with
  | [] => Some []
  | p :: rest =>
      match shapley_value bids_uncovered participants p,
            shapley_loop bids_uncovered participants rest with
      | Some v, Some sv => Some ((p, v) :: sv)
      | _, _ => None
      end
  end.

Definition cooperative_game_theory_shapley (bids_uncovered : DataFrame)
    (trans : TransactionManager) (cap floor : Q)
    : option (DataFrame * Q * TransactionManager) :=
  let participants := index bids_uncovered in
  match shapley_loop bids_uncovered participants participants with
  | None => None
  | Some sv =>
      let price_of i j := clip floor cap ((CGTS.sv_get sv i + CGTS.sv_get sv j) / 2) in
      let '(bids_uncovered, trans) := Pairwise.pairwise price_of bids_uncovered trans in
      Some (bids_uncovered,
            py_sum (map snd sv) / inject_Z (Z.of_nat (List.length sv)), trans)
  end.

Definition two_steps_CGT_mechanism (bids : DataFrame) (kwargs : Kwargs)
    : outcome (TransactionManager * Extra) :=
  let P := primary_phase bids in
  if residual_guard P then
    match cooperative_game_theory_shapley (bids_uncovered0 P) (trans0 P)
            (cap kwargs) (floor kwargs) with
    | None => Raises
    | Some (bidsM, CGTprice, trans) =>
        Returns (trans, make_extra (UPq_ P) (UPprice P) (quantity_sum bidsM) (Some CGTprice))
    end
  else Returns (trans0 P, make_extra (UPq_ P) (UPprice P) 0 (UPprice P)).

End CGT.

(** ** pricing_VCG.py *)

Module VCG.

(** [df.drop(i)]. *)
Definition drop (df : DataFrame) (i : label) : DataFrame :=
  filter (fun r => negb (Z.eqb (fst r) i)) df.

Section Prices.

Variables cap floor MP total_welfare : Q.

(** [P_Bi] and [P_Sj]: the same expression on a buyer's or a seller's row. *)
Definition individual_price (bids_uncovered : DataFrame) (i : label) (row : Row) : Q :=
  let welfare_without := CGTS.calculate_welfare (drop bids_uncovered i) in
  clip floor cap (MP - (welfare_without - total_welfare - price row)).

Fixpoint match_sellers (i : label) (row : Row) (P_Bi : Q) (matching_sellers : DataFrame)
    (bids_uncovered : DataFrame) (trans : TransactionManager) (VCG_price : Q)
    : DataFrame * TransactionManager * Q :=
  match matching_sellers with
  | [] => (bids_uncovered, trans, VCG_price)
  | (j, seller) :: rest =>
      let P_Sj := individual_price bids_uncovered j seller in
      let q := py_min (quantity row) (quantity seller) in
      let trans := add_transaction trans i q P_Bi (-1) false in
      let trans := add_transaction trans j q P_Sj (-1) false in
      let bids_uncovered := sub_quantity bids_uncovered i q in
      let bids_uncovered := sub_quantity bids_uncovered j q in
      let VCG_price := (P_Bi + P_Sj) / 2 in
      if Qeq_bool (Pairwise.at_quantity bids_uncovered i) 0
      then (bids_uncovered, trans, VCG_price)
      else match_sellers i row P_Bi rest bids_uncovered trans VCG_price
  end.

Fixpoint match_buyers (rows : DataFrame) (bids_uncovered : DataFrame)
    (trans : TransactionManager) (VCG_price : Q)
    : DataFrame * TransactionManager * Q :=
  match rows with
  | [] => (bids_uncovered, trans, VCG_price)
  | (i, row) :: rest =>
      if buying row then
        let P_Bi := individual_price bids_uncovered i row in
        let '(bids_uncovered, trans, VCG_price) :=
          match_sellers i row P_Bi (selling_rows bids_uncovered) bids_uncovered trans VCG_price in
        match_buyers rest bids_uncovered trans VCG_price
      else match_buyers rest bids_uncovered trans VCG_price
  end.

End Prices.

Definition vickrey_clarke_groves (bids_uncovered : DataFrame) (trans : TransactionManager)
    (cap floor MP : Q) : DataFrame * Q * TransactionManager :=
  let total_welfare := CGTS.calculate_welfare bids_uncovered in
  let '(bids_uncovered, trans, VCG_price) :=
    match_buyers cap floor MP total_welfare bids_uncovered bids_uncovered trans MP in
  (bids_uncovered, VCG_price, trans).

(** With [MP = None] the first buyer row raises a [TypeError]; behind the
    guard there is always a buyer row. *)
Definition two_steps_VCG_mechanism (bids : DataFrame) (kwargs : Kwargs)
    : outcome (TransactionManager * Extra) :=
  let P := primary_phase bids in
  if residual_guard P then
    match UPprice P with
    | None => Raises
    | Some MP =>
        let '(bidsM, VCGprice, trans) :=
          vickrey_clarke_groves (bids_uncovered0 P) (trans0 P) (cap kwargs) (floor kwargs) MP in
        Returns (trans, make_extra (UPq_ P) (UPprice P) (quantity_sum bidsM) (Some VCGprice))
    end
  else Returns (trans0 P, make_extra (UPq_ P) (UPprice P) 0 (UPprice P)).

End VCG.

(** ** pricing_MUP.py *)

Module MUP.

(** [df.loc[df.index == j, 'quantity'] = v]. *)
Definition set_quantity (df : DataFrame) (j : label) (v : Q) : DataFrame :=
  map (fun r => if Z.eqb (fst r) j
                then (fst r, mkRow v (price (snd r)) (buying (snd r)))
                else r) df.

(** The variables the two loops of [mediation_mechanism] update.  The
    writes to [short_side] are left out: the outer loop iterates over the
    rows read when it started and nothing else reads [short_side]. *)
Record State := mkState {
  long_side : DataFrame;
  bids : DataFrame;
  trans : TransactionManager;
  q_ : Q;
  last_price : option Q
}.

Definition record_pair (st : State) (long_side' : DataFrame) (i j : label) (q p : Q) : State :=
  let trans := add_transaction (trans st) i q p (-1) false in
  let trans := add_transaction trans j q p (-1) false in
  mkState long_side' (sub_quantity (sub_quantity (bids st) i q) j q) trans (q_ st + q) (Some p).

(** [for j, y in long_side.iterrows()], over the rows [long_side] had when
    this loop started. *)
Fixpoint mediate (i : label) (sprice : Q) (rows : DataFrame) (squantity : Q) (st : State)
    : State :=
  match rows with
  | [] => st
  | (j, y) :: rest =>
      let lprice := price y in
      let lquantity := quantity y in
      let p := round4 ((sprice + lprice) / 2) in
      if Qltb squantity lquantity then
        record_pair st (set_quantity (long_side st) j (lquantity - squantity)) i j squantity p
      else
        let st := record_pair st (VCG.drop (long_side st) j) i j lquantity p in
        let squantity := squantity - lquantity in
        if Qeq_bool squantity 0 then st else mediate i sprice rest squantity st
  end.

(** [for i, x in short_side.iterrows()]. *)
Fixpoint mediate_all (short_rows : DataFrame) (st : State) : State :=
  match short_rows with
  | [] => st
  | (i, x) :: rest => mediate_all rest (mediate i (price x) (long_side st) (quantity x) st)
  end.

(** Returns [(bids, price, q_)] and the ledger; [None] when no pair was
    mediated and the local [price] is unbound. *)
Definition mediation_mechanism (bids : DataFrame) (trans : TransactionManager)
    : option (DataFrame * Q * Q * TransactionManager) :=
  let '(long_side, short_side) := Common.sides bids in
  let st := mediate_all short_side (mkState long_side bids trans 0 None) in
  match last_price st with
  | Some p => Some (MUP.bids st, p, q_ st, MUP.trans st)
  | None => None
  end.

Definition two_steps_UPM_mechanism (bids : DataFrame) (kwargs : Kwargs)
    : outcome (TransactionManager * Extra) :=
  let P := primary_phase bids in
  if residual_guard P then
    match mediation_mechanism (bids_uncovered0 P) (trans0 P) with
    | None => Raises
    | Some (bidsM, Mprice, Mq_, trans) =>
        Returns (trans, make_extra (UPq_ P) (UPprice P) Mq_ (Some Mprice))
    end
  else Returns (trans0 P, make_extra (UPq_ P) (UPprice P) 0 (UPprice P)).

End MUP.

(** ** Vocabulary of the properties *)

(** The transactions a two-step mechanism appended after the primary
    ledger. *)
Definition residual_transactions (bids : DataFrame) (trans : TransactionManager)
    : TransactionManager :=
  skipn (List.length (trans0 (primary_phase bids))) trans.

(** A round whose residual phase traded nothing: the ledger is the primary
    ledger, the reported residual quantity is 0 and the reported residual
    price is the primary clearing price. *)
Definition no_residual_trade (bids : DataFrame) (r : TransactionManager * Extra) : Prop :=
  fst r = fst (UP.uniform_price_mechanism bids) /\
  residual_quantity (snd r) = 0 /\
  residual_price (snd r) = UP.clearing_price (snd (UP.uniform_price_mechanism bids)).

Definition returns_no_residual_trade (bids : DataFrame)
    (o : outcome (TransactionManager * Extra)) : Prop :=
  exists r, o = Returns r /\ no_residual_trade bids r.

(** A list of prices in strictly ascending order. *)
Fixpoint ascending (l : list Q) : Prop :=
  match l with
  | [] => True
  | x :: r => (forall y, In y r -> x < y) /\ ascending r
  end.

(** A frame after the full quantity of each of [rows] has been taken off
    the row with the same label. *)
Definition served (rows b : DataFrame) : DataFrame :=
  fold_left (fun b r => sub_quantity b (fst r) (quantity (snd r))) rows b.

(** The transaction the short-side loop records for a row: the row's full
    quantity at the price the mechanism gives it. *)
Definition short_transaction (price_of : Row -> Q) (r : label * Row) : Transaction :=
  mkTransaction (fst r) (quantity (snd r)) (price_of (snd r)) (-1) false.

(** Two ledgers that record the same trades, prices being compared as
    numbers. *)
Definition same_trade (t t' : Transaction) : Prop :=
  bid t = bid t' /\ t_quantity t = t_quantity t' /\ t_price t == t_price t' /\
  source t = source t' /\ active t = active t'.

Definition same_ledger (l l' : TransactionManager) : Prop := Forall2 same_trade l l'.

Definition same_price (p p' : option Q) : Prop :=
  match p, p' with
  | Some x, Some y => x == y
  | None, None => True
  | _, _ => False
  end.

(** Two summaries that report the same figures. *)
Definition same_extra (e e' : Extra) : Prop :=
  clearing_quantity_UP e = clearing_quantity_UP e' /\
  clearing_price e = clearing_price e' /\
  residual_quantity e = residual_quantity e' /\
  same_price (residual_price e) (residual_price e') /\
  total_quantity e = total_quantity e'.

(** Two tables of Shapley values that give every participant the same
    value, values being compared as numbers. *)
Definition same_values (sv sv' : CGTS.Shapley) : Prop :=
  Forall2 (fun e e' => fst e = fst e' /\ snd e == snd e') sv sv'.

(** Every label of a frame sits on one side of the market. *)
Definition one_side_per_label (df : DataFrame) : Prop :=
  forall i r1 r2, In (i, r1) df -> In (i, r2) df -> buying r1 = buying r2.

(** The successive orders of [participants] that the samples of
    [CGTS.sample_loop] iterate over. *)
Fixpoint sampled_orderings (n : nat) (participants : list label) (g : CGTS.Generator)
    : list (list label) :=
  match n with
  | O => []
  | S n' =>
      let '(participants, g) := CGTS.shuffle participants g in
      participants :: sampled_orderings n' participants g
  end.

(** The orderings a CGTS round draws for its uncovered bids. *)
Definition round_orderings (bids : DataFrame) (kwargs : Kwargs) (g : CGTS.Generator)
    : list (list label) :=
  sampled_orderings (num_samples kwargs) (index (bids_uncovered0 (primary_phase bids))) g.

(** [kwargs] with a [seed=...] keyword added by the caller. *)
Definition with_seed (kwargs : Kwargs) (seed : Z) : Kwargs :=
  mkKwargs (FIT kwargs) (TOU kwargs) (alpha kwargs) (theta kwargs) (epsilon kwargs)
    (cap kwargs) (floor kwargs) (num_samples kwargs) (("seed"%string, seed) :: other kwargs).

(** Bid sets used as concrete inputs. *)

(** The worked example of the specification. *)
Definition ex_bids : DataFrame :=
  [ (1%Z, mkRow 10 (30 # 100) true);
    (2%Z, mkRow 5 (20 # 100) true);
    (3%Z, mkRow 8 (10 # 100) false);
    (4%Z, mkRow 10 (25 # 100) false) ].

(** One pair clears in the primary phase; a buyer of 10 and two sellers of
    6 stay uncovered. *)
Definition nbs_bids : DataFrame :=
  [ (0%Z, mkRow 1 (50 # 100) true);
    (1%Z, mkRow 1 (10 # 100) false);
    (2%Z, mkRow 10 (15 # 100) true);
    (3%Z, mkRow 6 (20 # 100) false);
    (4%Z, mkRow 6 (30 # 100) false) ].

(** No primary clearing (the buyer bids below the seller); both bids stay
    uncovered. *)
Definition gap_bids : DataFrame :=
  [ (0%Z, mkRow 4 (40 # 100) true);
    (1%Z, mkRow 10 (50 # 100) false) ].

(** Two bids priced inside the default bounds that do not clear. *)
Definition inside_bids : DataFrame :=
  [ (0%Z, mkRow 4 (15 # 100) true);
    (1%Z, mkRow 10 (20 # 100) false) ].

(** The buyer is fully served by the primary phase. *)
Definition covered_bids : DataFrame :=
  [ (0%Z, mkRow 5 (30 # 100) true);
    (1%Z, mkRow 8 (10 # 100) false) ].

(** ** pricing_AUP.py *)

Module AUP.

(** One entry of [results_log]. *)
Record LogEntry := mkLogEntry {
  iteration : nat;
  log_clearing_price : option Q;
  log_clearing_quantity : Q;
  demand_quantity : Q;
  supply_quantity : Q
}.

(** [Series.clip(lower=FIT, upper=TOU)]: pandas orders two scalar bounds
    before it clips. *)
Definition series_clip (FIT TOU x : Q) : Q :=
  let lower := py_min FIT TOU in
  let upper := py_max FIT TOU in
  if Qltb x lower then lower else if Qltb upper x then upper else x.

(** "Price adjustment" and "Enforce FIT/TOU constraints". *)
Definition adjust_prices (FIT TOU step : Q) (updated_bids : DataFrame) : DataFrame :=
  map (fun r =>
         let p := if buying (snd r) then price (snd r) * (1 + step)
                  else price (snd r) * (1 - step) in
         (fst r, mkRow (quantity (snd r)) (series_clip FIT TOU p) (buying (snd r))))
      updated_bids.

(** The [for iteration in range(1, max_iterations + 1)] loop: [n]
    iterations are still to run, [result] is the result of the last
    iteration run so far. *)
Fixpoint iterate (n : nat) (iteration_ : nat) (FIT TOU step : Q) (current_bids : DataFrame)
    (trans_all : TransactionManager) (results_log : list LogEntry) (result : option UP.Result)
    : TransactionManager * list LogEntry * option UP.Result :=
  match n with
  | O => (trans_all, results_log, result)
  | S n' =>
      let '(trans_iter, result) := UP.uniform_price_mechanism current_bids in
      let trans_all := merge_transactions trans_all trans_iter in
      let results_log :=
        results_log ++ [mkLogEntry iteration_ (UP.clearing_price result)
                          (UP.clearing_quantity result)
                          (quantity_sum (buying_rows current_bids))
                          (quantity_sum (selling_rows current_bids))] in
      let updated_bids := update_remaining current_bids trans_iter in
      let unsold_quantity := quantity_sum (selling_rows updated_bids) in
      let demanded_quantity := quantity_sum (buying_rows updated_bids) in
      if Qeq_bool unsold_quantity 0 || Qeq_bool demanded_quantity 0
      then (trans_all, results_log, Some result)
      else iterate n' (S iteration_) FIT TOU step (adjust_prices FIT TOU step updated_bids)
             trans_all results_log (Some result)
  end.

Record Summary := mkSummary {
  clearing_quantity : Q;
  clearing_price : option Q;
  results_log : list LogEntry
}.

(** With [max_iterations = 0] the loop body never binds [result] and the
    [return] raises. *)
Definition adjusted_uniform_price_mechanism (bids : DataFrame)
    (FIT TOU step : Q) (max_iterations : nat) : outcome (TransactionManager * Summary) :=
  match iterate max_iterations 1 FIT TOU step bids [] [] None with
  | (trans_all, log, Some result) =>
      Returns (trans_all,
               mkSummary (round4 (ledger_quantity trans_all)) (UP.clearing_price result) log)
  | (_, _, None) => Raises
  end.

End AUP.

(** ** Vocabulary of the further properties *)

(** The frame [bidsUP] a two-step mechanism holds after "Update remaining
    quantities". *)
Definition after_primary (bids : DataFrame) : DataFrame :=
  update_remaining bids (fst (UP.uniform_price_mechanism bids)).

(** The value a call returned, [d] if it raised or ran out of fuel. *)
Definition returned {A : Type} (o : outcome A) (d : A) : A :=
  match o with
  | Returns a => a
  | _ => d
  end.

Definition no_round : TransactionManager * Extra := ([], mkExtra 0 None 0 None 0).

(** A price is compatible with a bid: not above a buyer's limit, not
    below a seller's. *)
Definition acceptable (p : Q) (row : Row) : Prop :=
  if buying row then p <= price row else price row <= p.

(** Both loops of [UPNR.newton_raphson_adjustment], on the side chosen as
    short and the side chosen as long. *)
Definition upnr_sides (bids_uncovered : DataFrame) : DataFrame * DataFrame :=
  let buyers := sort_values_desc (buying_rows bids_uncovered) in
  let sellers := sort_values_asc (selling_rows bids_uncovered) in
  if Qltb (quantity_sum sellers) (quantity_sum buyers)
  then (buyers, sellers) else (sellers, buyers).

(** A ledger written by the pairwise loops of NBS, CGT, CGTS and VCG: a
    transaction against a buyer of [df] followed by one against a seller
    of [df] for the same, non-negative quantity, pair after pair. *)
Inductive paired (df : DataFrame) : TransactionManager -> Prop :=
| paired_nil : paired df []
| paired_cons (b s : Transaction) (rest : TransactionManager) :
    In (bid b) (index (buying_rows df)) ->
    In (bid s) (index (selling_rows df)) ->
    t_quantity b = t_quantity s ->
    0 <= t_quantity b ->
    paired df rest ->
    paired df (b :: s :: rest).

(** What the pairwise loops keep true of the frame [U] they update and of
    the transactions [new] they have added, [U0] being the frame they
    started from. *)
Definition pairwise_invariant (U0 U : DataFrame) (new : TransactionManager) : Prop :=
  index U = index U0 /\
  index (selling_rows U) = index (selling_rows U0) /\
  (forall j, In j (index (selling_rows U0)) -> 0 <= Pairwise.at_quantity U j) /\
  (forall k, In k (index U0) ->
     Pairwise.at_quantity U k + traded_against k new == Pairwise.at_quantity U0 k) /\
  quantity_sum U + ledger_quantity new == quantity_sum U0 /\
  paired U0 new.

(** A round of a pairwise mechanism, as a user reads it off the ledger and
    the summary: the residual transactions come in buyer/seller pairs, no
    seller is recorded for more than it offered, and the reported residual
    quantity is what the uncovered bids have left. *)
Definition pairwise_round (bids : DataFrame) (trans : TransactionManager) (extra : Extra)
    : Prop :=
  let U := bids_uncovered0 (primary_phase bids) in
  let residual := residual_transactions bids trans in
  paired U residual /\
  (forall j r, In (j, r) (selling_rows U) -> traded_against j residual <= quantity r) /\
  residual_quantity extra == quantity_sum U - ledger_quantity residual.

(** The bid and the quantity of each transaction. *)
Definition trades (trans : TransactionManager) : list (label * Q) :=
  map (fun t => (bid t, t_quantity t)) trans.

(** Label, price and side of each row: what the loops never change. *)
Definition offers (df : DataFrame) : list (label * Q * bool) :=
  map (fun r => (fst r, price (snd r), buying (snd r))) df.

(** A VCG transaction against a bid of [U0], priced at the clearing price
    [MP] plus the bid's own price, clipped to [floor, cap]. *)
Definition vcg_priced (cap floor MP : Q) (U0 : DataFrame) (t : Transaction) : Prop :=
  exists row, In (bid t, row) U0 /\ t_price t == clip floor cap (MP + price row).

(** The transactions of [t] from position [n] on all satisfy [Pt]. *)
Definition from_position (Pt : Transaction -> Prop) (n : nat) (t : TransactionManager) : Prop :=
  (n <= List.length t)%nat /\ Forall Pt (skipn n t).

(** What the iterations of AUP keep true of the frame [cur] they pass on
    and of the ledger [T] they have merged so far, [bids] being the bid
    set of the round. *)
Definition aup_invariant (bids cur : DataFrame) (T : TransactionManager) : Prop :=
  index cur = index bids /\
  index (selling_rows cur) = index (selling_rows bids) /\
  index (buying_rows cur) = index (buying_rows bids) /\
  (forall i, In i (index bids) ->
     Pairwise.at_quantity cur i + traded_against i T == Pairwise.at_quantity bids i /\
     0 <= Pairwise.at_quantity cur i /\ 0 <= traded_against i T) /\
  ledger_quantity T == 2 * traded_on (selling_rows bids) T /\
  traded_on (buying_rows bids) T == traded_on (selling_rows bids) T.

(** What the loops of [MUP.mediation_mechanism] keep true of their state
    [st] and of the transactions [new] they have added, [long0] being the
    long side they started from. *)
Definition mediation_invariant (long0 : DataFrame) (st : MUP.State)
    (new : TransactionManager) : Prop :=
  NoDup (index (MUP.long_side st)) /\
  (forall r, In r (MUP.long_side st) -> 0 < quantity (snd r)) /\
  (forall j, In j (index (MUP.long_side st)) -> In j (index long0)) /\
  (forall j, In j (index long0) ->
     Pairwise.at_quantity (MUP.long_side st) j + traded_against j new
     == Pairwise.at_quantity long0 j) /\
  (forall k, 0 <= traded_against k new) /\
  quantity_sum (MUP.long_side st) + MUP.q_ st == quantity_sum long0 /\
  ledger_quantity new == 2 * MUP.q_ st.

(** ** value_sharing_utils.py and the vs_*.py sharing rules

    One-dimensional numpy arrays of floats are lists of rationals; an
    [IndexError] or a [ValueError] on shapes is [None].  The permutations
    that [np.random.permutation] draws are an argument of the Shapley
    rule. *)

Module VS.

(** [a - b] on one-dimensional arrays: elementwise on equal shapes, a
    one-element array is broadcast, other shapes raise. *)
Definition np_sub (a b : list Q) : option (list Q) :=
  if Nat.eqb (List.length a) (List.length b)
  then Some (map (fun ab => fst ab - snd ab) (combine a b))
  else match a, b with
       | [x], _ => Some (map (fun y => x - y) b)
       | _, [y] => Some (map (fun x => x - y) a)
       | _, _ => None
       end.

(** [a[indices]] for a list of indices. *)
Fixpoint take (a : list Q) (indices : list nat) : option (list Q) :=
  match indices with
  | [] => Some []
  | i :: rest =>
      match nth_error a i, take a rest with
      | Some x, Some r => Some (x :: r)
      | _, _ => None
      end
  end.

(** [a[mask]] for the mask that is [False] at [member_idx] only. *)
Fixpoint without (a : list Q) (member_idx : nat) : list Q :=
  match a, member_idx with
  | [], _ => []
  | _ :: r, O => r
  | x :: r, S i => x :: without r i
  end.

(** [a[i] += v]. *)
Fixpoint add_at (a : list Q) (i : nat) (v : Q) : option (list Q) :=
  match a, i with
  | [], _ => None
  | x :: r, O => Some ((x + v) :: r)
  | x :: r, S i' => option_map (cons x) (add_at r i' v)
  end.

Definition compute_net_energy (consumption generation : list Q) : option (list Q) :=
  np_sub consumption generation.

Definition compute_individual_payment (net_energy tou_price fit_price : Q) : Q :=
  if Qltb 0 net_energy then net_energy * tou_price else net_energy * fit_price.

Definition compute_community_net_energy (net_energy : list Q) : Q := Qsum net_energy.

Definition compute_community_payment (community_net_energy tou_price fit_price : Q) : Q :=
  if Qltb 0 community_net_energy then community_net_energy * tou_price
  else community_net_energy * fit_price.

Definition compute_community_gain (individual_payments : list Q) (community_payment : Q) : Q :=
  Qsum individual_payments - community_payment.

Definition compute_all_individual_payments (net_energy : list Q) (tou_price fit_price : Q)
    : list Q :=
  map (fun x => compute_individual_payment x tou_price fit_price) net_energy.

(** With an empty array the division by [len(allocations)] gives a numpy
    [nan] that no entry receives. *)
Definition normalize_allocations (allocations : list Q) (target_sum : Q) : list Q :=
  let current_sum := Qsum allocations in
  if Qeq_bool current_sum 0
  then repeat (target_sum / inject_Z (Z.of_nat (List.length allocations)))
              (List.length allocations)
  else map (fun a => a * (target_sum / current_sum)) allocations.

Record TimestampData := mkTimestampData {
  net_energy : list Q;
  individual_payments : list Q;
  community_net_energy : Q;
  community_payment : Q;
  community_gain : Q
}.

(** The gain of a group whose members have the net energies [net]. *)
Definition gain_of (net : list Q) (tou_price fit_price : Q) : Q :=
  compute_community_gain
    (compute_all_individual_payments net tou_price fit_price)
    (compute_community_payment (compute_community_net_energy net) tou_price fit_price).

Definition compute_timestamp_data (consumption generation : list Q) (tou_price fit_price : Q)
    : option TimestampData :=
  match compute_net_energy consumption generation with
  | None => None
  | Some net_energy =>
      let individual_payments :=
        compute_all_individual_payments net_energy tou_price fit_price in
      let community_net_energy := compute_community_net_energy net_energy in
      let community_payment :=
        compute_community_payment community_net_energy tou_price fit_price in
      let community_gain := compute_community_gain individual_payments community_payment in
      Some (mkTimestampData net_energy individual_payments community_net_energy
              community_payment community_gain)
  end.

(** *** vs_equal_sharing.py *)

Definition equal_sharing (consumption generation : list Q) (tou_price fit_price : Q)
    : option (list Q) :=
  match compute_timestamp_data consumption generation tou_price fit_price with
  | None => None
  | Some data =>
      let n_members := List.length consumption in
      let gain_per_member := community_gain data / inject_Z (Z.of_nat n_members) in
      Some (repeat gain_per_member n_members)
  end.

(** *** vs_consumption_based.py and vs_generation_based.py *)

Definition consumption_based_sharing (consumption generation : list Q)
    (tou_price fit_price : Q) : option (list Q) :=
  match compute_timestamp_data consumption generation tou_price fit_price with
  | None => None
  | Some data =>
      let total_consumption := Qsum consumption in
      if Qeq_bool total_consumption 0
      then equal_sharing consumption generation tou_price fit_price
      else Some (map (fun c => c / total_consumption * community_gain data) consumption)
  end.

Definition generation_based_sharing (consumption generation : list Q)
    (tou_price fit_price : Q) : option (list Q) :=
  match compute_timestamp_data consumption generation tou_price fit_price with
  | None => None
  | Some data =>
      let total_generation := Qsum generation in
      if Qeq_bool total_generation 0
      then equal_sharing consumption generation tou_price fit_price
      else Some (map (fun g => g / total_generation * community_gain data) generation)
  end.

(** *** vs_marginal_contribution.py *)

(** The mask has the length of [consumption]; indexing [generation] with
    it raises when the lengths differ. *)
Definition compute_gain_without_member (consumption generation : list Q) (member_idx : nat)
    (tou_price fit_price : Q) : option Q :=
  if Nat.ltb member_idx (List.length consumption) then
    if Nat.eqb (List.length generation) (List.length consumption) then
      let consumption_subset := without consumption member_idx in
      let generation_subset := without generation member_idx in
      match consumption_subset with
      | [] => Some 0
      | _ =>
          match compute_net_energy consumption_subset generation_subset with
          | None => None
          | Some net_energy_subset => Some (gain_of net_energy_subset tou_price fit_price)
          end
      end
    else None
  else None.

(** [for i in range(n_members)], from member [i] on. *)
Fixpoint marginal_contributions (consumption generation : list Q) (tou_price fit_price : Q)
    (full_gain : Q) (i todo : nat) : option (list Q) :=
  match todo with
  | O => Some []
  | S todo' =>
      match compute_gain_without_member consumption generation i tou_price fit_price,
            marginal_contributions consumption generation tou_price fit_price full_gain
              (S i) todo' with
      | Some gain_without_i, Some rest => Some ((full_gain - gain_without_i) :: rest)
      | _, _ => None
      end
  end.

Definition marginal_contribution_sharing (consumption generation : list Q)
    (tou_price fit_price : Q) : option (list Q) :=
  match compute_timestamp_data consumption generation tou_price fit_price with
  | None => None
  | Some data =>
      let full_gain := community_gain data in
      let n_members := List.length consumption in
      match marginal_contributions consumption generation tou_price fit_price full_gain
              0 n_members with
      | None => None
      | Some mc =>
          let mc_sum := Qsum mc in
          if Qltb (Qabs mc_sum) (1 # 10000000000)
          then equal_sharing consumption generation tou_price fit_price
          else Some (map (fun m => m / mc_sum * full_gain) mc)
      end
  end.

(** *** vs_shapley_value.py *)

Definition characteristic_function (consumption generation : list Q)
    (coalition_indices : list nat) (tou_price fit_price : Q) : option Q :=
  match coalition_indices with
  | [] => Some 0
  | _ =>
      match take consumption coalition_indices, take generation coalition_indices with
      | Some consumption_coalition, Some generation_coalition =>
          match compute_net_energy consumption_coalition generation_coalition with
          | None => None
          | Some net_energy => Some (gain_of net_energy tou_price fit_price)
          end
      | _, _ => None
      end
  end.

(** [for i in permutation], on the coalition built so far. *)
Fixpoint add_members (consumption generation : list Q) (tou_price fit_price : Q)
    (permutation : list nat) (coalition : list nat) (shapley_values : list Q)
    : option (list Q) :=
  match permutation with
  | [] => Some shapley_values
  | i :: rest =>
      match characteristic_function consumption generation coalition tou_price fit_price,
            characteristic_function consumption generation (coalition ++ [i])
              tou_price fit_price with
      | Some value_before, Some value_after =>
          match add_at shapley_values i (value_after - value_before) with
          | None => None
          | Some shapley_values =>
              add_members consumption generation tou_price fit_price rest (coalition ++ [i])
                shapley_values
          end
      | _, _ => None
      end
  end.

(** [for k in range(n_permutations)], over the permutations drawn. *)
Fixpoint sample_permutations (consumption generation : list Q) (tou_price fit_price : Q)
    (permutations : list (list nat)) (shapley_values : list Q) : option (list Q) :=
  match permutations with
  | [] => Some shapley_values
  | permutation :: rest =>
      match add_members consumption generation tou_price fit_price permutation []
              shapley_values with
      | None => None
      | Some shapley_values =>
          sample_permutations consumption generation tou_price fit_price rest shapley_values
      end
  end.

(** The averaged marginal contributions, before [normalize_allocations].
    With no permutation and at least one member every entry is 0/0, a
    [nan]: there is no number to return. *)
Definition sampled_shapley_values (consumption generation : list Q) (tou_price fit_price : Q)
    (permutations : list (list nat)) : option (list Q) :=
  let n_members := List.length consumption in
  match sample_permutations consumption generation tou_price fit_price permutations
          (repeat 0 n_members) with
  | None => None
  | Some shapley_values =>
      match permutations, n_members with
      | [], S _ => None
      | _, _ =>
          Some (map (fun v => v / inject_Z (Z.of_nat (List.length permutations)))
                    shapley_values)
      end
  end.

Definition shapley_value_sharing (consumption generation : list Q) (tou_price fit_price : Q)
    (permutations : list (list nat)) : option (list Q) :=
  match compute_timestamp_data consumption generation tou_price fit_price with
  | None => None
  | Some data =>
      match sampled_shapley_values consumption generation tou_price fit_price permutations with
      | None => None
      | Some shapley_values => Some (normalize_allocations shapley_values (community_gain data))
      end
  end.

(** *** vs_cooperative_game.py *)

(** [np.sum(net_energy[mask]) if np.any(mask) else 0] for the two masks. *)
Definition deficit_sum (net_energy : list Q) : Q :=
  Qsum (filter (fun x => Qltb 0 x) net_energy).

Definition surplus_sum (net_energy : list Q) : Q :=
  Qsum (filter (fun x => Qltb x 0) net_energy).

(** The body of [for i in range(n_members)]. *)
Definition position_share (base deficit_sum surplus_sum x : Q) : Q :=
  if Qltb 0 x then
    if Qltb 0 deficit_sum then (1 - x / deficit_sum) * base else base
  else if Qltb x 0 then
    if Qltb surplus_sum 0 then (1 + x / surplus_sum) * base else base
  else base.

(** The loop reads [net_energy[i]] for [i < len(consumption)]. *)
Definition cooperative_game_sharing (consumption generation : list Q)
    (tou_price fit_price : Q) : option (list Q) :=
  match compute_timestamp_data consumption generation tou_price fit_price with
  | None => None
  | Some data =>
      let n_members := List.length consumption in
      let base := community_gain data / inject_Z (Z.of_nat n_members) in
      let net := net_energy data in
      if Nat.leb n_members (List.length net) then
        let allocations :=
          map (position_share base (deficit_sum net) (surplus_sum net)) (firstn n_members net) in
        Some (normalize_allocations allocations (community_gain data))
      else None
  end.

End VS.

(** The net energies [consumption - generation] of arrays of one length,
    and those of the members of a coalition. *)
Definition net_of (consumption generation : list Q) : list Q :=
  map (fun ab => fst ab - snd ab) (combine consumption generation).

Definition coalition_net (consumption generation : list Q) (coalition : list nat) : list Q :=
  map (fun i => nth i (net_of consumption generation) 0) coalition.

(** The six sharing rules on one timestamp; [permutations] are the
    permutations the Shapley rule draws. *)
Definition sharing_rules (consumption generation : list Q) (tou_price fit_price : Q)
    (permutations : list (list nat)) : list (option (list Q)) :=
  [ VS.equal_sharing consumption generation tou_price fit_price;
    VS.generation_based_sharing consumption generation tou_price fit_price;
    VS.consumption_based_sharing consumption generation tou_price fit_price;
    VS.marginal_contribution_sharing consumption generation tou_price fit_price;
    VS.shapley_value_sharing consumption generation tou_price fit_price permutations;
    VS.cooperative_game_sharing consumption generation tou_price fit_price ].

(** What [np.random.permutation(n)] returns. *)
Definition permutation_of_members (n : nat) (permutation : list nat) : Prop :=
  Permutation permutation (seq 0 n).

(** * Properties *)

(** ** Arithmetic helpers *)

Lemma Qltb_true (x y : Q) : Qltb x y = true <-> x < y.
Proof.
  unfold Qltb. rewrite negb_true_iff. split; intro H.
  - apply Qnot_le_lt. intro L. apply Qle_bool_iff in L. congruence.
  - destruct (Qle_bool y x) eqn:E; [|reflexivity].
    apply Qle_bool_iff in E. exfalso. apply (Qlt_not_le _ _ H E).
Qed.

Lemma Qltb_false (x y : Q) : Qltb x y = false <-> y <= x.
Proof.
  unfold Qltb. rewrite negb_false_iff. apply Qle_bool_iff.
Qed.

Lemma Qle_bool_false (x y : Q) : Qle_bool x y = false <-> y < x.
Proof.
  rewrite <- Qltb_true. unfold Qltb. rewrite negb_true_iff. tauto.
Qed.

Lemma py_min_spec (a b : Q) :
  (b < a /\ py_min a b = b) \/ (a <= b /\ py_min a b = a).
Proof.
  unfold py_min. destruct (Qltb b a) eqn:E.
  - left. split; [now apply Qltb_true|reflexivity].
  - right. split; [now apply Qltb_false|reflexivity].
Qed.

Lemma py_max_spec (a b : Q) :
  (a < b /\ py_max a b = b) \/ (b <= a /\ py_max a b = a).
Proof.
  unfold py_max. destruct (Qltb a b) eqn:E.
  - left. split; [now apply Qltb_true|reflexivity].
  - right. split; [now apply Qltb_false|reflexivity].
Qed.

Lemma py_min_le_l (a b : Q) : py_min a b <= a.
Proof. destruct (py_min_spec a b) as [[H ->]|[H ->]]; lra. Qed.

Lemma py_min_le_r (a b : Q) : py_min a b <= b.
Proof. destruct (py_min_spec a b) as [[H ->]|[H ->]]; lra. Qed.

Lemma clip_bounds (lo hi x : Q) : lo <= hi -> lo <= clip lo hi x <= hi.
Proof.
  intro H. unfold clip.
  destruct (py_min_spec x hi) as [[H1 ->]|[H1 ->]];
    destruct (py_max_spec lo hi) as [[H2 E2]|[H2 E2]];
    destruct (py_max_spec lo x) as [[H3 E3]|[H3 E3]];
    rewrite ?E2, ?E3; lra.
Qed.

Lemma clip_inside (lo hi x : Q) : lo <= x -> x <= hi -> clip lo hi x == x.
Proof.
  intros H1 H2. unfold clip.
  destruct (py_min_spec x hi) as [[H3 ->]|[H3 ->]].
  - lra.
  - destruct (py_max_spec lo x) as [[H4 ->]|[H4 ->]]; lra.
Qed.

Lemma clip_above (lo hi x : Q) : lo <= hi -> hi <= x -> clip lo hi x == hi.
Proof.
  intros H1 H2. unfold clip.
  destruct (py_min_spec x hi) as [[H3 ->]|[H3 ->]];
    [destruct (py_max_spec lo hi) as [[H4 ->]|[H4 ->]]
    |destruct (py_max_spec lo x) as [[H4 ->]|[H4 ->]]]; lra.
Qed.

Lemma Qdiv2 (x : Q) : x / 2 == x * (1 # 2).
Proof. field. Qed.

Lemma Qabs_lt_iff (x e : Q) : Qabs x < e <-> - e < x /\ x < e.
Proof. apply Qabs_Qlt_condition. Qed.

Lemma archimedean (x e : Q) : 0 < e -> exists n : nat, x < inject_Z (Z.of_nat n) * e.
Proof.
  intro He.
  exists (Z.to_nat (Qceiling (x / e)) + 1)%nat.
  assert (Hc : x / e <= inject_Z (Qceiling (x / e))) by apply Qle_ceiling.
  assert (Hn : inject_Z (Qceiling (x / e)) < inject_Z (Z.of_nat (Z.to_nat (Qceiling (x / e)) + 1))).
  { rewrite <- Zlt_Qlt. lia. }
  assert (Hx : x == (x / e) * e) by (field; lra).
  rewrite Hx at 1.
  apply Qmult_lt_compat_r; [exact He|].
  eapply Qle_lt_trans; eassumption.
Qed.

(** ** Termination of the price-adjustment loop *)

Lemma price_loop_S (n : nat) (lo hi theta epsilon pmax pmin a : Q) :
  IPA.price_loop (S n) lo hi theta epsilon pmax pmin a =
  if Qltb (Qabs (IPA.next_price lo hi theta pmax pmin a - a)) epsilon then Some a
  else IPA.price_loop n lo hi theta epsilon pmax pmin (IPA.next_price lo hi theta pmax pmin a).
Proof. reflexivity. Qed.

Section PriceLoop.

Variables lo hi theta epsilon pmax pmin : Q.
Hypothesis bounds : lo <= hi.
Hypothesis tolerance : 0 < epsilon.
Hypothesis step_pos : 0 < theta.
Hypothesis range : pmin <= pmax.

Let step : Q := theta * (pmax - pmin) / 2.

Lemma step_nonneg : 0 <= step.
Proof.
  unfold step. rewrite Qdiv2.
  assert (0 <= theta * (pmax - pmin)) by (apply Qmult_le_0_compat; lra).
  lra.
Qed.

Lemma next_price_eq (a : Q) :
  IPA.next_price lo hi theta pmax pmin a == clip lo hi (a + step).
Proof.
  unfold IPA.next_price, step.
  assert (E : a + theta * (pmax - a + (a - pmin)) / 2 == a + theta * (pmax - pmin) / 2) by field.
  unfold clip.
  destruct (py_min_spec (a + theta * (pmax - a + (a - pmin)) / 2) hi) as [[H1 ->]|[H1 ->]];
    destruct (py_min_spec (a + theta * (pmax - pmin) / 2) hi) as [[H2 ->]|[H2 ->]];
    try (rewrite E in H1; lra); try reflexivity.
  destruct (py_max_spec lo (a + theta * (pmax - a + (a - pmin)) / 2)) as [[H3 ->]|[H3 ->]];
    destruct (py_max_spec lo (a + theta * (pmax - pmin) / 2)) as [[H4 ->]|[H4 ->]];
    try (rewrite E in H3; lra); try reflexivity; assumption.
Qed.

Lemma next_price_in_bounds (a : Q) :
  lo <= IPA.next_price lo hi theta pmax pmin a <= hi.
Proof. unfold IPA.next_price. apply clip_bounds, bounds. Qed.

(** Inside the bounds the price never decreases, and a step that does
    not meet the tolerance moves it up by at least [epsilon]. *)
Lemma next_price_progress (a : Q) :
  lo <= a <= hi ->
  Qltb (Qabs (IPA.next_price lo hi theta pmax pmin a - a)) epsilon = false ->
  a + epsilon <= IPA.next_price lo hi theta pmax pmin a.
Proof.
  intros [Ha1 Ha2] Hb. apply Qltb_false in Hb.
  pose proof step_nonneg as Hs.
  pose proof (next_price_eq a) as E.
  destruct (Qlt_le_dec hi (a + step)) as [Hc|Hc].
  - rewrite (clip_above lo hi (a + step)) in E by lra.
    rewrite E in *. rewrite Qabs_pos in Hb by lra. lra.
  - rewrite (clip_inside lo hi (a + step)) in E by lra.
    rewrite E in *. rewrite Qabs_pos in Hb by lra. lra.
Qed.

Lemma price_loop_from_inside (n : nat) :
  forall a, lo <= a <= hi -> hi - a < inject_Z (Z.of_nat n) * epsilon ->
  exists p, IPA.price_loop n lo hi theta epsilon pmax pmin a = Some p
            /\ Qabs (IPA.next_price lo hi theta pmax pmin p - p) < epsilon.
Proof.
  induction n as [|n IH]; intros a Ha Hm.
  - change (inject_Z (Z.of_nat 0)) with 0 in Hm. lra.
  - rewrite price_loop_S.
    destruct (Qltb (Qabs (IPA.next_price lo hi theta pmax pmin a - a)) epsilon) eqn:Hb.
    + exists a. split; [reflexivity|]. now apply Qltb_true.
    + pose proof (next_price_progress a Ha Hb) as Hp.
      apply IH; [apply next_price_in_bounds|].
      rewrite Nat2Z.inj_succ, <- Z.add_1_r, inject_Z_plus in Hm.
      change (inject_Z 1) with 1 in Hm. lra.
Qed.

Lemma price_loop_terminates (MP : Q) :
  exists fuel p, IPA.price_loop fuel lo hi theta epsilon pmax pmin MP = Some p
                 /\ Qabs (IPA.next_price lo hi theta pmax pmin p - p) < epsilon.
Proof.
  destruct (Qltb (Qabs (IPA.next_price lo hi theta pmax pmin MP - MP)) epsilon) eqn:Hb.
  - exists 1%nat, MP. rewrite price_loop_S, Hb. split; [reflexivity|]. now apply Qltb_true.
  - destruct (archimedean (hi - IPA.next_price lo hi theta pmax pmin MP) epsilon tolerance)
      as [n Hn].
    destruct (price_loop_from_inside n _ (next_price_in_bounds MP) Hn) as [p [Hp Hq]].
    exists (S n), p. rewrite price_loop_S, Hb. split; assumption.
Qed.

End PriceLoop.

Lemma price_loop_more_fuel (lo hi theta epsilon pmax pmin : Q) (n : nat) :
  forall a p m, (n <= m)%nat ->
  IPA.price_loop n lo hi theta epsilon pmax pmin a = Some p ->
  IPA.price_loop m lo hi theta epsilon pmax pmin a = Some p.
Proof.
  induction n as [|n IH]; intros a p m Hm H; [discriminate|].
  destruct m as [|m]; [lia|]. rewrite price_loop_S in *.
  destruct (Qltb _ epsilon); [assumption|].
  apply IH; [lia|assumption].
Qed.


Lemma fold_py_max_ge (l : list Q) : forall x, x <= fold_left py_max l x.
Proof.
  induction l as [|y l IH]; intro x; simpl; [lra|].
  eapply Qle_trans; [|apply IH].
  destruct (py_max_spec x y) as [[H ->]|[H ->]]; lra.
Qed.

Lemma fold_py_min_le (l : list Q) : forall x, fold_left py_min l x <= x.
Proof.
  induction l as [|y l IH]; intro x; simpl; [lra|].
  eapply Qle_trans; [apply IH|].
  apply py_min_le_l.
Qed.

Lemma price_min_le_max (l : list Q) : price_min l <= price_max l.
Proof.
  destruct l as [|x l]; simpl; [lra|].
  eapply Qle_trans; [apply fold_py_min_le|apply fold_py_max_ge].
Qed.

(** C9.  For a non-empty uncovered bid set, a step fraction in (0,1), a
    positive tolerance and bounds [lo <= hi], the price-adjustment loop of
    IPA (and of NBS, which runs the same loop between [floor] and [cap])
    reaches its [break] after finitely many iterations: from some fuel on it
    returns a price [p] whose next clipped update differs from [p] by less
    than the tolerance, and both mechanisms return with that price. *)
Theorem price_adjustment_loop_terminates :
  forall (bids_uncovered : DataFrame) (trans : TransactionManager)
         (theta epsilon MP lo hi : Q),
    bids_uncovered <> [] ->
    0 < theta -> theta < 1 -> 0 < epsilon -> lo <= hi ->
    let pmax := price_max (prices bids_uncovered) in
    let pmin := price_min (prices bids_uncovered) in
    exists (fuel : nat) (p : Q),
      Qabs (IPA.next_price lo hi theta pmax pmin p - p) < epsilon /\
      forall fuel', (fuel <= fuel')%nat ->
        IPA.price_loop fuel' lo hi theta epsilon pmax pmin MP = Some p /\
        (exists b t, IPA.iterative_price_adjustment fuel' bids_uncovered trans
                       theta epsilon MP lo hi = Some (b, p, t)) /\
        (exists b t, NBS.nash_bargaining_solution fuel' bids_uncovered trans
                       hi lo theta epsilon MP = Some (b, p, t)).
Proof.
  intros b trans theta epsilon MP lo hi _ Ht _ He Hb pmax pmin.
  destruct (price_loop_terminates lo hi theta epsilon pmax pmin Hb He Ht
              (price_min_le_max (prices b)) MP) as [fuel [p [Hp Hq]]].
  exists fuel, p. split; [exact Hq|].
  intros fuel' Hf.
  pose proof (price_loop_more_fuel lo hi theta epsilon pmax pmin fuel MP p fuel' Hf Hp) as Hl.
  split; [exact Hl|]. split.
  - unfold IPA.iterative_price_adjustment. fold pmax pmin. rewrite Hl.
    destruct (Common.allocate (fun _ => p) (fun _ => p) b trans) as [b' t'].
    now exists b', t'.
  - unfold NBS.nash_bargaining_solution. fold pmax pmin. rewrite Hl.
    destruct (Pairwise.pairwise (fun _ _ => p) b trans) as [b' t'].
    now exists b', t'.
Qed.

Lemma price_adjustment_loop_terminates_witness :
  exists (fuel : nat) (p : Q),
    Qabs (IPA.next_price (1 # 10) (25 # 100) (1 # 10)
            (price_max (prices gap_bids)) (price_min (prices gap_bids)) p - p) < 1 # 100 /\
    forall fuel', (fuel <= fuel')%nat ->
      IPA.price_loop fuel' (1 # 10) (25 # 100) (1 # 10) (1 # 100)
        (price_max (prices gap_bids)) (price_min (prices gap_bids)) (1 # 10) = Some p /\
      (exists b t, IPA.iterative_price_adjustment fuel' gap_bids []
                     (1 # 10) (1 # 100) (1 # 10) (1 # 10) (25 # 100) = Some (b, p, t)) /\
      (exists b t, NBS.nash_bargaining_solution fuel' gap_bids []
                     (25 # 100) (1 # 10) (1 # 10) (1 # 100) (1 # 10) = Some (b, p, t)).
Proof.
  apply (price_adjustment_loop_terminates gap_bids [] (1 # 10) (1 # 100) (1 # 10)
           (1 # 10) (25 # 100)).
  - discriminate.
  - reflexivity.
  - reflexivity.
  - reflexivity.
  - discriminate.
Defined.

(** ** The guard of the residual phase *)

Lemma merge_transactions_app (trans_UP : TransactionManager) :
  forall trans, merge_transactions trans trans_UP = trans ++ trans_UP.
Proof.
  induction trans_UP as [|t l IH]; intro trans; simpl.
  - now rewrite app_nil_r.
  - rewrite IH. unfold add_transaction. rewrite <- app_assoc. now destruct t.
Qed.

Lemma primary_ledger (bids : DataFrame) :
  trans0 (primary_phase bids) = fst (UP.uniform_price_mechanism bids).
Proof.
  unfold primary_phase. destruct (UP.uniform_price_mechanism bids) as [t r]. simpl.
  apply merge_transactions_app.
Qed.

Lemma primary_price (bids : DataFrame) :
  UPprice (primary_phase bids) = UP.clearing_price (snd (UP.uniform_price_mechanism bids)).
Proof.
  unfold primary_phase. now destruct (UP.uniform_price_mechanism bids) as [t r].
Qed.

Lemma residual_guard_false (P : Primary) :
  unsold_quantity P == 0 \/ demanded_quantity P == 0 -> residual_guard P = false.
Proof.
  unfold residual_guard. intros [H|H].
  - replace (Qltb 0 (unsold_quantity P)) with false; [reflexivity|].
    symmetry. apply Qltb_false. lra.
  - replace (Qltb 0 (demanded_quantity P)) with false; [apply andb_false_r|].
    symmetry. apply Qltb_false. lra.
Qed.

Lemma make_extra_fallback (q : Q) (p : option Q) :
  residual_quantity (make_extra q p 0 p) = 0 /\ residual_price (make_extra q p 0 p) = p.
Proof. split; [reflexivity|]. now destruct p. Qed.

(** C6.  If either side of the bids left after the primary clearing has
    zero aggregate remaining quantity, every two-step mechanism returns the
    primary ledger unchanged and reports residual quantity 0 at the primary
    clearing price. *)
Theorem empty_side_trades_nothing :
  forall (bids : DataFrame) (kwargs : Kwargs) (fuel : nat) (g : CGTS.Generator),
    unsold_quantity (primary_phase bids) == 0 \/ demanded_quantity (primary_phase bids) == 0 ->
    no_residual_trade bids (CFRM.two_steps_CFRM_mechanism bids kwargs) /\
    no_residual_trade bids (APM.two_steps_APM_mechanism bids kwargs) /\
    no_residual_trade bids (MPAS.two_steps_MPAS_mechanism bids kwargs) /\
    no_residual_trade bids (WAM.two_steps_WAM_mechanism bids kwargs) /\
    no_residual_trade bids (MMP.two_steps_MMP_mechanism bids kwargs) /\
    no_residual_trade bids (UPNR.two_steps_UPNR_mechanism bids kwargs) /\
    returns_no_residual_trade bids (IPA.two_steps_IPA_mechanism fuel bids kwargs) /\
    returns_no_residual_trade bids (NBS.two_steps_NBS_mechanism fuel bids kwargs) /\
    returns_no_residual_trade bids (MUP.two_steps_UPM_mechanism bids kwargs) /\
    returns_no_residual_trade bids (VCG.two_steps_VCG_mechanism bids kwargs) /\
    returns_no_residual_trade bids (CGT.two_steps_CGT_mechanism bids kwargs) /\
    exists run, CGTS.two_steps_CGTS_mechanism bids kwargs g = Returns run /\
                no_residual_trade bids (CGTS.ledger run, CGTS.extra run) /\
                CGTS.generator_after run = g.
Proof.
  intros bids kwargs fuel g H.
  apply residual_guard_false in H.
  assert (N : no_residual_trade bids
                (trans0 (primary_phase bids),
                 make_extra (UPq_ (primary_phase bids)) (UPprice (primary_phase bids)) 0
                   (UPprice (primary_phase bids)))).
  { unfold no_residual_trade. simpl fst. simpl snd.
    rewrite primary_ledger, <- primary_price.
    split; [reflexivity|apply make_extra_fallback]. }
  unfold CFRM.two_steps_CFRM_mechanism, APM.two_steps_APM_mechanism,
    MPAS.two_steps_MPAS_mechanism, WAM.two_steps_WAM_mechanism,
    MMP.two_steps_MMP_mechanism, UPNR.two_steps_UPNR_mechanism,
    IPA.two_steps_IPA_mechanism, NBS.two_steps_NBS_mechanism,
    MUP.two_steps_UPM_mechanism, VCG.two_steps_VCG_mechanism,
    CGT.two_steps_CGT_mechanism, CGTS.two_steps_CGTS_mechanism,
    returns_no_residual_trade.
  rewrite H.
  repeat split; try exact N; try (eexists; split; [reflexivity|exact N]); try apply N.
  eexists. split; [reflexivity|]. split; [exact N|reflexivity].
Qed.

Lemma empty_side_trades_nothing_witness :
  no_residual_trade covered_bids (CFRM.two_steps_CFRM_mechanism covered_bids default_kwargs) /\
  no_residual_trade covered_bids (APM.two_steps_APM_mechanism covered_bids default_kwargs) /\
  no_residual_trade covered_bids (MPAS.two_steps_MPAS_mechanism covered_bids default_kwargs) /\
  no_residual_trade covered_bids (WAM.two_steps_WAM_mechanism covered_bids default_kwargs) /\
  no_residual_trade covered_bids (MMP.two_steps_MMP_mechanism covered_bids default_kwargs) /\
  no_residual_trade covered_bids (UPNR.two_steps_UPNR_mechanism covered_bids default_kwargs) /\
  returns_no_residual_trade covered_bids
    (IPA.two_steps_IPA_mechanism 0 covered_bids default_kwargs) /\
  returns_no_residual_trade covered_bids
    (NBS.two_steps_NBS_mechanism 0 covered_bids default_kwargs) /\
  returns_no_residual_trade covered_bids (MUP.two_steps_UPM_mechanism covered_bids default_kwargs) /\
  returns_no_residual_trade covered_bids (VCG.two_steps_VCG_mechanism covered_bids default_kwargs) /\
  returns_no_residual_trade covered_bids (CGT.two_steps_CGT_mechanism covered_bids default_kwargs) /\
  exists run, CGTS.two_steps_CGTS_mechanism covered_bids default_kwargs [] = Returns run /\
              no_residual_trade covered_bids (CGTS.ledger run, CGTS.extra run) /\
              CGTS.generator_after run = [].
Proof.
  apply (empty_side_trades_nothing covered_bids default_kwargs 0 []).
  right. vm_compute. reflexivity.
Defined.

(** ** Newton-Raphson rejection *)

Lemma newton_raphson_rejection (bids_uncovered : DataFrame) (trans : TransactionManager)
    (FIT TOU : Q) :
  TOU < UPNR.discovered_price bids_uncovered \/ UPNR.discovered_price bids_uncovered < FIT ->
  UPNR.newton_raphson_adjustment bids_uncovered trans FIT TOU
  = UPNR.mkAdjustment bids_uncovered 0 0 trans.
Proof.
  intro H. unfold UPNR.newton_raphson_adjustment.
  replace (Qltb TOU (UPNR.discovered_price bids_uncovered)
           || Qltb (UPNR.discovered_price bids_uncovered) FIT) with true; [reflexivity|].
  symmetry. apply orb_true_iff. destruct H as [H|H]; [left|right]; now apply Qltb_true.
Qed.

(** C8.  When the price the Newton-Raphson search settles on for the
    uncovered bids is strictly above the ceiling or strictly below the
    floor, the mechanism adds no transaction (the ledger stays the primary
    ledger, the uncovered bids are returned untouched) and reports residual
    quantity 0. *)
Theorem newton_raphson_out_of_bounds_rejects :
  forall (bids : DataFrame) (kwargs : Kwargs),
    let P := primary_phase bids in
    let price_ := UPNR.discovered_price (bids_uncovered0 P) in
    residual_guard P = true ->
    TOU kwargs < price_ \/ price_ < FIT kwargs ->
    UPNR.bidsM (UPNR.newton_raphson_adjustment (bids_uncovered0 P) (trans0 P)
                  (FIT kwargs) (TOU kwargs)) = bids_uncovered0 P /\
    fst (UPNR.two_steps_UPNR_mechanism bids kwargs) = fst (UP.uniform_price_mechanism bids) /\
    residual_transactions bids (fst (UPNR.two_steps_UPNR_mechanism bids kwargs)) = [] /\
    residual_quantity (snd (UPNR.two_steps_UPNR_mechanism bids kwargs)) = 0.
Proof.
  intros bids kwargs P price_ G H.
  unfold UPNR.two_steps_UPNR_mechanism, residual_transactions. fold P. rewrite G.
  rewrite (newton_raphson_rejection _ (trans0 P) _ _ H). simpl.
  repeat split.
  - apply primary_ledger.
  - apply skipn_all.
Qed.

Lemma newton_raphson_out_of_bounds_rejects_witness :
  UPNR.bidsM (UPNR.newton_raphson_adjustment (bids_uncovered0 (primary_phase gap_bids))
                (trans0 (primary_phase gap_bids))
                (FIT default_kwargs) (TOU default_kwargs))
    = bids_uncovered0 (primary_phase gap_bids) /\
  fst (UPNR.two_steps_UPNR_mechanism gap_bids default_kwargs)
    = fst (UP.uniform_price_mechanism gap_bids) /\
  residual_transactions gap_bids (fst (UPNR.two_steps_UPNR_mechanism gap_bids default_kwargs)) = [] /\
  residual_quantity (snd (UPNR.two_steps_UPNR_mechanism gap_bids default_kwargs)) = 0.
Proof.
  apply (newton_raphson_out_of_bounds_rejects gap_bids default_kwargs).
  - vm_compute. reflexivity.
  - left. vm_compute. reflexivity.
Defined.

(** ** The uniform-price clearer *)

Lemma py_min_compat (a a' b b' : Q) : a == a' -> b == b' -> py_min a b == py_min a' b'.
Proof.
  intros Ha Hb.
  destruct (py_min_spec a b) as [[H ->]|[H ->]];
    destruct (py_min_spec a' b') as [[H' ->]|[H' ->]]; lra.
Qed.

Lemma traded_qty_compat (B S : DataFrame) (p p' : Q) :
  p == p' -> UP.traded_qty B S p = UP.traded_qty B S p'.
Proof.
  intro E. unfold UP.traded_qty, UP.demand_qty, UP.supply_qty.
  f_equal; f_equal; apply filter_ext; intro r; now rewrite E.
Qed.

Lemma insert_unique_In (p : Q) (l : list Q) :
  forall c, In c (UP.insert_unique p l) -> c = p \/ In c l.
Proof.
  induction l as [|y l IH]; intros c H; simpl in *.
  - destruct H as [H|[]]; auto.
  - destruct (Qeq_bool p y); [now right|].
    destruct (Qle_bool p y).
    + destruct H as [H|H]; auto.
    + destruct H as [H|H]; [right; now left|].
      destruct (IH c H); auto.
Qed.

Lemma insert_unique_covers (p : Q) (l : list Q) :
  (exists c, In c (UP.insert_unique p l) /\ c == p) /\
  (forall x, In x l -> In x (UP.insert_unique p l)).
Proof.
  induction l as [|y l [IH1 IH2]]; simpl.
  - split; [exists p; split; [now left|reflexivity]|intros x []].
  - destruct (Qeq_bool p y) eqn:E.
    + apply Qeq_bool_iff in E. split; [|auto].
      exists y. split; [now left|now symmetry].
    + destruct (Qle_bool p y).
      * split; [exists p; split; [now left|reflexivity]|intros x H; now right].
      * split.
        -- destruct IH1 as [c [Hc Ec]]. exists c. split; [now right|exact Ec].
        -- intros x [H|H]; [now left|right; auto].
Qed.

Lemma insert_unique_ascending (p : Q) (l : list Q) :
  ascending l -> ascending (UP.insert_unique p l).
Proof.
  induction l as [|y l IH]; intro A; simpl.
  - split; [intros y []|exact I].
  - destruct (Qeq_bool p y) eqn:E; [exact A|].
    apply Qeq_bool_neq in E.
    destruct A as [A1 A2].
    destruct (Qle_bool p y) eqn:L.
    + apply Qle_bool_iff in L.
      assert (p < y) by (destruct (Qlt_le_dec p y) as [|G]; [assumption|exfalso; apply E; lra]).
      split; [|split; assumption].
      intros z [<-|Hz]; [assumption|]. specialize (A1 z Hz). lra.
    + apply Qle_bool_false in L.
      split; [|now apply IH].
      intros z Hz. destruct (insert_unique_In p l z Hz) as [->|Hz']; auto.
Qed.

Lemma candidate_prices_spec (B S : DataFrame) :
  ascending (UP.candidate_prices B S) /\
  (forall c, In c (UP.candidate_prices B S) -> In c (prices B ++ prices S)) /\
  (forall x, In x (prices B ++ prices S) -> exists c, In c (UP.candidate_prices B S) /\ c == x).
Proof.
  unfold UP.candidate_prices.
  induction (prices B ++ prices S) as [|p l [IH1 [IH2 IH3]]]; simpl.
  - split; [exact I|split; [intros c []|intros x []]].
  - split; [now apply insert_unique_ascending|]. split.
    + intros c H. destruct (insert_unique_In _ _ _ H) as [->|H']; [now left|right; auto].
    + intros x [<-|H].
      * apply insert_unique_covers.
      * destruct (IH3 x H) as [c [Hc Ec]]. exists c.
        split; [now apply insert_unique_covers|exact Ec].
Qed.

Lemma scan_spec (B S : DataFrame) (cands : list Q) :
  forall (bp : option Q) (bq : Q), ascending cands ->
  (UP.scan B S cands bp bq = (bp, bq) /\
   forall c, In c cands -> UP.traded_qty B S c <= bq)
  \/
  (exists c, In c cands /\
     UP.scan B S cands bp bq = (Some c, UP.traded_qty B S c) /\
     bq < UP.traded_qty B S c /\
     (forall c', In c' cands -> UP.traded_qty B S c' <= UP.traded_qty B S c) /\
     (forall c', In c' cands -> c' < c -> UP.traded_qty B S c' < UP.traded_qty B S c)).
Proof.
  induction cands as [|p rest IH]; intros bp bq A.
  - left. split; [reflexivity|intros c []].
  - destruct A as [A1 A2]. simpl.
    destruct (Qltb bq (UP.traded_qty B S p)) eqn:E.
    + apply Qltb_true in E. right.
      destruct (IH (Some p) (UP.traded_qty B S p) A2) as [[Hs Hall]|[c [Hc [Hs [Hlt [Hmax Hfirst]]]]]].
      * exists p. split; [now left|]. split; [exact Hs|]. split; [exact E|]. split.
        -- intros c' [<-|Hc']; [lra|auto].
        -- intros c' [<-|Hc'] Hlt; [lra|]. specialize (A1 c' Hc'). lra.
      * exists c. split; [now right|]. split; [exact Hs|]. split; [lra|]. split.
        -- intros c' [<-|Hc']; [lra|auto].
        -- intros c' [<-|Hc'] Hl; [lra|auto].
    + apply Qltb_false in E.
      destruct (IH bp bq A2) as [[Hs Hall]|[c [Hc [Hs [Hlt [Hmax Hfirst]]]]]].
      * left. split; [exact Hs|]. intros c' [<-|Hc']; [exact E|auto].
      * right. exists c. split; [now right|]. split; [exact Hs|]. split; [exact Hlt|]. split.
        -- intros c' [<-|Hc']; [lra|auto].
        -- intros c' [<-|Hc'] Hl; [lra|auto].
Qed.

Lemma find_clearing_nonempty (bids : DataFrame) :
  buying_rows bids <> [] -> selling_rows bids <> [] ->
  UP.find_clearing_price_and_quantity bids =
  let '(best_price, best_quantity) :=
    UP.scan (buying_rows bids) (selling_rows bids)
      (UP.candidate_prices (buying_rows bids) (selling_rows bids)) None 0 in
  if Qeq_bool best_quantity 0 then (None, None) else (Some best_quantity, best_price).
Proof.
  intros HB HS. unfold UP.find_clearing_price_and_quantity.
  destruct (buying_rows bids) as [|b B]; [congruence|].
  destruct (selling_rows bids) as [|s S]; [congruence|]. reflexivity.
Qed.

Lemma prices_split (bids : DataFrame) (p : Q) :
  In p (prices bids) <-> In p (prices (buying_rows bids) ++ prices (selling_rows bids)).
Proof.
  unfold prices, buying_rows, selling_rows. rewrite in_app_iff, !in_map_iff. split.
  - intros [r [E H]]. destruct (buying (snd r)) eqn:Hb; [left|right];
      exists r; (split; [exact E|]); apply filter_In; split; auto. now rewrite Hb.
  - intros [[r [E H]]|[r [E H]]]; exists r; (split; [exact E|]);
      apply filter_In in H; tauto.
Qed.

(** The clearer's choice, for a bid set with at least one buy and one
    sell bid. *)
Lemma find_clearing_spec (bids : DataFrame) :
  buying_rows bids <> [] -> selling_rows bids <> [] ->
  let T := UP.traded_qty (buying_rows bids) (selling_rows bids) in
  ((forall p, In p (prices bids) -> T p <= 0) ->
     UP.find_clearing_price_and_quantity bids = (None, None)) /\
  ((exists p, In p (prices bids) /\ 0 < T p) ->
     exists p, In p (prices bids) /\
       UP.find_clearing_price_and_quantity bids = (Some (T p), Some p) /\
       0 < T p /\
       (forall p', In p' (prices bids) -> T p' <= T p) /\
       (forall p', In p' (prices bids) -> p' < p -> T p' < T p)).
Proof.
  intros HB HS T. subst T.
  rewrite (find_clearing_nonempty bids HB HS).
  destruct (candidate_prices_spec (buying_rows bids) (selling_rows bids)) as [A [Hin Hcov]].
  destruct (scan_spec (buying_rows bids) (selling_rows bids) _ None 0 A)
    as [[Hs Hall]|[c [Hc [Hs [Hlt [Hmax Hfirst]]]]]]; rewrite Hs;
    set (T := UP.traded_qty (buying_rows bids) (selling_rows bids)) in *.
  - split; [reflexivity|].
    intros [p [Hp Hpos]]. exfalso.
    destruct (Hcov p (proj1 (prices_split bids p) Hp)) as [c [Hc Ec]].
    specialize (Hall c Hc). unfold T in Hpos.
    rewrite <- (traded_qty_compat _ _ c p Ec) in Hpos. fold T in Hpos. lra.
  - assert (Hne : Qeq_bool (T c) 0 = false).
    { destruct (Qeq_bool (T c) 0) eqn:E; [|reflexivity].
      apply Qeq_bool_iff in E. lra. }
    rewrite Hne. split.
    + intro Hz. exfalso.
      specialize (Hz c (proj2 (prices_split bids c) (Hin c Hc))). lra.
    + intros _. exists c. split; [apply prices_split; auto|].
      split; [reflexivity|]. split; [exact Hlt|]. split.
      * intros p' Hp'.
        destruct (Hcov p' (proj1 (prices_split bids p') Hp')) as [c' [Hc' Ec']].
        unfold T. rewrite <- (traded_qty_compat _ _ c' p' Ec'). fold T. auto.
      * intros p' Hp' Hl.
        destruct (Hcov p' (proj1 (prices_split bids p') Hp')) as [c' [Hc' Ec']].
        unfold T. rewrite <- (traded_qty_compat _ _ c' p' Ec'). fold T.
        apply Hfirst; [exact Hc'|lra].
Qed.

Lemma empty_clearing_result (bids : DataFrame) :
  UP.find_clearing_price_and_quantity bids = (None, None) ->
  UP.uniform_price_mechanism bids = ([], UP.mkResult 0 None).
Proof. intro H. unfold UP.uniform_price_mechanism. now rewrite H. Qed.

(** C1 (the claim as stated fails on the worked example).  On the bid set
    of the specification's example the clearer does not return price 0.20
    with quantity 15. *)
Lemma worked_example_not_020_15 :
  ~ (exists q p, UP.find_clearing_price_and_quantity ex_bids = (Some q, Some p) /\
                 p == 20 # 100 /\ q == 15 /\
                 traded_against 4%Z (fst (UP.uniform_price_mechanism ex_bids)) == 7 /\
                 traded_against 2%Z (fst (UP.uniform_price_mechanism ex_bids)) == 5).
Proof.
  intros [q [p [H [Hp _]]]].
  vm_compute in H. injection H as _ <-.
  vm_compute in Hp. discriminate Hp.
Qed.

(** C1 (amended).  For a bid set with at least one buy and one sell bid,
    the clearer scans the bid prices in ascending order with
    traded(p) = min(demand(p), supply(p)): when no bid price has
    traded(p) > 0 it returns no price, quantity 0 and an empty ledger;
    otherwise it returns a bid price p with traded(p) > 0 that is maximal
    over all bid prices and strictly larger than traded at every lower bid
    price, together with traded(p).  On the worked example the result is
    price 0.25 and quantity 10: seller 3 is filled for 8, seller 4 for 2,
    buyer 1 for 10 and buyer 2 is not filled. *)
Theorem uniform_price_clearing :
  (forall bids : DataFrame,
     buying_rows bids <> [] -> selling_rows bids <> [] ->
     let T := UP.traded_qty (buying_rows bids) (selling_rows bids) in
     ((forall p, In p (prices bids) -> T p <= 0) ->
        UP.find_clearing_price_and_quantity bids = (None, None) /\
        UP.uniform_price_mechanism bids = ([], UP.mkResult 0 None)) /\
     ((exists p, In p (prices bids) /\ 0 < T p) ->
        exists p, In p (prices bids) /\
          UP.find_clearing_price_and_quantity bids = (Some (T p), Some p) /\
          0 < T p /\
          (forall p', In p' (prices bids) -> T p' <= T p) /\
          (forall p', In p' (prices bids) -> p' < p -> T p' < T p)))
  /\
  (UP.find_clearing_price_and_quantity ex_bids = (Some 10, Some (25 # 100)) /\
   map (fun t => (bid t, t_quantity t, t_price t)) (fst (UP.uniform_price_mechanism ex_bids))
     = [(3%Z, 8, 25 # 100); (4%Z, 2, 25 # 100); (1%Z, 10, 25 # 100)] /\
   traded_against 2%Z (fst (UP.uniform_price_mechanism ex_bids)) = 0 /\
   UP.clearing_quantity (snd (UP.uniform_price_mechanism ex_bids)) == 10 /\
   exists p, UP.clearing_price (snd (UP.uniform_price_mechanism ex_bids)) = Some p /\
             p == 25 # 100).
Proof.
  split.
  - intros bids HB HS T.
    destruct (find_clearing_spec bids HB HS) as [H0 H1]. split.
    + intro Hz. split; [now apply H0|]. apply empty_clearing_result. now apply H0.
    + exact H1.
  - split; [vm_compute; reflexivity|].
    split; [vm_compute; reflexivity|].
    split; [vm_compute; reflexivity|].
    split; [vm_compute; reflexivity|].
    eexists. split; [vm_compute; reflexivity|]. vm_compute. reflexivity.
Qed.

Lemma uniform_price_clearing_witness :
  exists p, In p (prices ex_bids) /\
    UP.find_clearing_price_and_quantity ex_bids
      = (Some (UP.traded_qty (buying_rows ex_bids) (selling_rows ex_bids) p), Some p) /\
    0 < UP.traded_qty (buying_rows ex_bids) (selling_rows ex_bids) p /\
    (forall p', In p' (prices ex_bids) ->
       UP.traded_qty (buying_rows ex_bids) (selling_rows ex_bids) p'
       <= UP.traded_qty (buying_rows ex_bids) (selling_rows ex_bids) p) /\
    (forall p', In p' (prices ex_bids) -> p' < p ->
       UP.traded_qty (buying_rows ex_bids) (selling_rows ex_bids) p'
       < UP.traded_qty (buying_rows ex_bids) (selling_rows ex_bids) p).
Proof.
  apply (proj1 uniform_price_clearing ex_bids).
  - discriminate.
  - discriminate.
  - exists (30 # 100). split; [left; reflexivity|]. vm_compute. reflexivity.
Defined.

(** ** Both sides of the primary ledger *)

Lemma Qsum_app (a b : list Q) : Qsum (a ++ b) == Qsum a + Qsum b.
Proof. induction a as [|x a IH]; simpl; [lra|rewrite IH; lra]. Qed.

Lemma ledger_quantity_app (a b : TransactionManager) :
  ledger_quantity (a ++ b) == ledger_quantity a + ledger_quantity b.
Proof. unfold ledger_quantity. rewrite map_app. apply Qsum_app. Qed.

Lemma traded_on_app (df : DataFrame) (a b : TransactionManager) :
  traded_on df (a ++ b) == traded_on df a + traded_on df b.
Proof. unfold traded_on. rewrite filter_app, map_app. apply Qsum_app. Qed.

Lemma existsb_label (i : label) (l : list label) : existsb (Z.eqb i) l = true <-> In i l.
Proof.
  rewrite existsb_exists. split.
  - intros [x [Hx E]]. apply Z.eqb_eq in E. now subst.
  - intro H. exists i. split; [exact H|apply Z.eqb_refl].
Qed.

Lemma traded_on_all (df : DataFrame) (trans : TransactionManager) :
  Forall (fun t => In (bid t) (index df)) trans -> traded_on df trans = ledger_quantity trans.
Proof.
  intro H. unfold traded_on, ledger_quantity. f_equal.
  induction H as [|t l Ht Hl IH]; simpl; [reflexivity|].
  rewrite (proj2 (existsb_label _ _) Ht). simpl. now rewrite IH.
Qed.

Lemma traded_on_none (df : DataFrame) (trans : TransactionManager) :
  Forall (fun t => ~ In (bid t) (index df)) trans -> traded_on df trans = 0.
Proof.
  intro H. unfold traded_on.
  induction H as [|t l Ht Hl IH]; simpl; [reflexivity|].
  destruct (existsb (Z.eqb (bid t)) (index df)) eqn:E; [|exact IH].
  apply existsb_label in E. contradiction.
Qed.

Lemma execute_trades_app (cp : Q) (rows : DataFrame) :
  forall q trans,
    UP.execute_trades rows q cp trans = trans ++ UP.execute_trades rows q cp [].
Proof.
  induction rows as [|[i row] rest IH]; intros q trans; simpl.
  - now rewrite app_nil_r.
  - destruct (Qle_bool (py_min (quantity row) q) 0); [apply IH|].
    destruct (Qle_bool (q - py_min (quantity row) q) 0); [reflexivity|].
    rewrite IH. rewrite (IH _ (add_transaction [] _ _ _ _ _)).
    unfold add_transaction. simpl. now rewrite <- app_assoc.
Qed.

Lemma execute_trades_rows (cp : Q) (rows : DataFrame) :
  forall q,
    Forall (fun t => In (bid t) (index rows) /\ source t = (-1)%Z /\ t_price t = cp)
           (UP.execute_trades rows q cp []).
Proof.
  induction rows as [|[i row] rest IH]; intro q; simpl; [constructor|].
  assert (W : forall l, Forall (fun t => In (bid t) (index rest) /\ source t = (-1)%Z /\ t_price t = cp) l ->
              Forall (fun t => (i = bid t \/ In (bid t) (index rest)) /\ source t = (-1)%Z /\ t_price t = cp) l).
  { intros l Hl. eapply Forall_impl; [|exact Hl]. simpl. tauto. }
  destruct (Qle_bool (py_min (quantity row) q) 0); [apply W, IH|].
  destruct (Qle_bool (q - py_min (quantity row) q) 0).
  - constructor; [simpl; auto|constructor].
  - rewrite execute_trades_app. apply Forall_app. split.
    + constructor; [simpl; auto|constructor].
    + apply W, IH.
Qed.

Lemma execute_trades_exhausted (cp : Q) (rows : DataFrame) :
  forall q trans, q <= 0 -> UP.execute_trades rows q cp trans = trans.
Proof.
  induction rows as [|[i row] rest IH]; intros q trans Hq; simpl; [reflexivity|].
  replace (Qle_bool (py_min (quantity row) q) 0) with true; [now apply IH|].
  symmetry. apply Qle_bool_iff. pose proof (py_min_le_r (quantity row) q). lra.
Qed.

(** The loop hands out exactly [q] when the rows can supply it. *)
Lemma execute_trades_sum (cp : Q) (rows : DataFrame) :
  forall q, 0 <= q -> q <= quantity_sum rows ->
    ledger_quantity (UP.execute_trades rows q cp []) == q.
Proof.
  induction rows as [|[i row] rest IH]; intros q H0 Hs.
  - unfold quantity_sum in Hs. simpl in *. unfold ledger_quantity. simpl. lra.
  - destruct (Qlt_le_dec 0 q) as [Hpos|Hz].
    2:{ rewrite execute_trades_exhausted by exact Hz. unfold ledger_quantity. simpl. lra. }
    unfold quantity_sum in Hs. simpl in Hs. fold (quantity_sum rest) in Hs.
    simpl.
    destruct (py_min_spec (quantity row) q) as [[Hm Em]|[Hm Em]]; rewrite Em.
    + (* the row alone covers what is left *)
      replace (Qle_bool q 0) with false by (symmetry; apply Qle_bool_false; lra).
      replace (Qle_bool (q - q) 0) with true by (symmetry; apply Qle_bool_iff; lra).
      unfold ledger_quantity, add_transaction. simpl. lra.
    + destruct (Qle_bool (quantity row) 0) eqn:E0.
      * apply Qle_bool_iff in E0. apply IH; lra.
      * apply Qle_bool_false in E0.
        destruct (Qle_bool (q - quantity row) 0) eqn:E1.
        -- apply Qle_bool_iff in E1. unfold ledger_quantity, add_transaction. simpl. lra.
        -- apply Qle_bool_false in E1.
           rewrite execute_trades_app, ledger_quantity_app.
           rewrite IH by lra. unfold ledger_quantity, add_transaction. simpl. lra.
Qed.

Lemma insert_asc_sum (x : label * Row) (l : DataFrame) :
  quantity_sum (insert_asc x l) == quantity (snd x) + quantity_sum l.
Proof.
  unfold quantity_sum. induction l as [|y l IH]; simpl; [lra|].
  destruct (Qle_bool (price (snd x)) (price (snd y))); simpl; [lra|]. rewrite IH. lra.
Qed.

Lemma insert_desc_sum (x : label * Row) (l : DataFrame) :
  quantity_sum (insert_desc x l) == quantity (snd x) + quantity_sum l.
Proof.
  unfold quantity_sum. induction l as [|y l IH]; simpl; [lra|].
  destruct (Qle_bool (price (snd y)) (price (snd x))); simpl; [lra|]. rewrite IH. lra.
Qed.

Lemma sort_values_asc_sum (df : DataFrame) :
  quantity_sum (sort_values_asc df) == quantity_sum df.
Proof.
  induction df as [|x df IH]; simpl; [reflexivity|].
  rewrite insert_asc_sum, IH. unfold quantity_sum. simpl. lra.
Qed.

Lemma sort_values_desc_sum (df : DataFrame) :
  quantity_sum (sort_values_desc df) == quantity_sum df.
Proof.
  induction df as [|x df IH]; simpl; [reflexivity|].
  rewrite insert_desc_sum, IH. unfold quantity_sum. simpl. lra.
Qed.

Lemma insert_asc_In (x y : label * Row) (l : DataFrame) :
  In y (insert_asc x l) <-> y = x \/ In y l.
Proof.
  induction l as [|z l IH]; simpl; [intuition|].
  destruct (Qle_bool (price (snd x)) (price (snd z))); simpl; [intuition|].
  rewrite IH. intuition.
Qed.

Lemma insert_desc_In (x y : label * Row) (l : DataFrame) :
  In y (insert_desc x l) <-> y = x \/ In y l.
Proof.
  induction l as [|z l IH]; simpl; [intuition|].
  destruct (Qle_bool (price (snd z)) (price (snd x))); simpl; [intuition|].
  rewrite IH. intuition.
Qed.

Lemma sort_values_asc_In (y : label * Row) (df : DataFrame) :
  In y (sort_values_asc df) <-> In y df.
Proof.
  induction df as [|x df IH]; simpl; [tauto|].
  rewrite insert_asc_In, IH. intuition.
Qed.

Lemma sort_values_desc_In (y : label * Row) (df : DataFrame) :
  In y (sort_values_desc df) <-> In y df.
Proof.
  induction df as [|x df IH]; simpl; [tauto|].
  rewrite insert_desc_In, IH. intuition.
Qed.

Lemma filter_filter (A : Type) (f g : A -> bool) (l : list A) :
  filter f (filter g l) = filter (fun x => g x && f x) l.
Proof.
  induction l as [|x l IH]; simpl; [reflexivity|].
  destruct (g x); simpl; [destruct (f x); now rewrite IH|exact IH].
Qed.

Lemma index_In (df : DataFrame) (i : label) :
  In i (index df) <-> exists row, In (i, row) df.
Proof.
  unfold index. rewrite in_map_iff. split.
  - intros [[j r] [E H]]. simpl in E. subst. now exists r.
  - intros [r H]. now exists (i, r).
Qed.

Lemma unique_labels (df : DataFrame) :
  NoDup (index df) -> forall i r1 r2, In (i, r1) df -> In (i, r2) df -> r1 = r2.
Proof.
  induction df as [|[j r] df IH]; intros N i r1 r2 H1 H2; [destruct H1|].
  simpl in N. inversion N as [|? ? Hn N']; subst.
  destruct H1 as [E1|H1]; destruct H2 as [E2|H2].
  - congruence.
  - inversion E1; subst. exfalso. apply Hn. apply index_In. now exists r2.
  - inversion E2; subst. exfalso. apply Hn. apply index_In. now exists r1.
  - eauto.
Qed.

Lemma index_sub_quantity (df : DataFrame) (i : label) (q : Q) :
  index (sub_quantity df i q) = index df.
Proof.
  unfold index, sub_quantity. rewrite map_map. apply map_ext.
  intro r. destruct (Z.eqb _ i); reflexivity.
Qed.

Lemma index_update_remaining (trans_UP : TransactionManager) :
  forall df, index (update_remaining df trans_UP) = index df.
Proof.
  unfold update_remaining.
  induction trans_UP as [|t l IH]; intro df; simpl; [reflexivity|].
  rewrite IH. destruct (existsb _ _); [apply index_sub_quantity|reflexivity].
Qed.

Lemma NoDup_index_filter (f : label * Row -> bool) (df : DataFrame) :
  NoDup (index df) -> NoDup (index (filter f df)).
Proof.
  induction df as [|x df IH]; simpl; intro N; [constructor|].
  inversion N as [|? ? Hn N']; subst.
  destruct (f x); simpl; [|now apply IH].
  constructor; [|now apply IH].
  intro H. apply Hn. apply index_In in H. destruct H as [row H].
  apply filter_In in H. apply index_In. exists row. tauto.
Qed.

Lemma sides_disjoint (bids : DataFrame) :
  NoDup (index bids) ->
  forall i, In i (index (buying_rows bids)) -> ~ In i (index (selling_rows bids)).
Proof.
  intros N i Hb Hs.
  apply index_In in Hb. apply index_In in Hs.
  destruct Hb as [r1 H1]. destruct Hs as [r2 H2].
  apply filter_In in H1. apply filter_In in H2. simpl in *.
  destruct H1 as [H1 B1]. destruct H2 as [H2 B2].
  rewrite (unique_labels bids N i r1 r2 H1 H2) in B1. rewrite B1 in B2. discriminate.
Qed.

Lemma willing_buyers_index (bids : DataFrame) (cp : Q) (i : label) :
  In i (index (UP.willing_buyers bids cp)) -> In i (index (buying_rows bids)).
Proof.
  rewrite !index_In. intros [r H]. exists r.
  unfold UP.willing_buyers in H. apply (proj1 (sort_values_desc_In _ _)) in H.
  apply filter_In in H. destruct H as [H B].
  apply filter_In. split; [exact H|]. simpl in *. now apply andb_true_iff in B.
Qed.

Lemma willing_sellers_index (bids : DataFrame) (cp : Q) (i : label) :
  In i (index (UP.willing_sellers bids cp)) -> In i (index (selling_rows bids)).
Proof.
  rewrite !index_In. intros [r H]. exists r.
  unfold UP.willing_sellers in H. apply (proj1 (sort_values_asc_In _ _)) in H.
  apply filter_In in H. destruct H as [H B].
  apply filter_In. split; [exact H|]. simpl in *. now apply andb_true_iff in B.
Qed.

Lemma willing_buyers_sum (bids : DataFrame) (cp : Q) :
  quantity_sum (UP.willing_buyers bids cp) == UP.demand_qty (buying_rows bids) cp.
Proof.
  unfold UP.willing_buyers, UP.demand_qty, buying_rows.
  rewrite sort_values_desc_sum, filter_filter. reflexivity.
Qed.

Lemma willing_sellers_sum (bids : DataFrame) (cp : Q) :
  quantity_sum (UP.willing_sellers bids cp) == UP.supply_qty (selling_rows bids) cp.
Proof.
  unfold UP.willing_sellers, UP.supply_qty, selling_rows.
  rewrite sort_values_asc_sum, filter_filter. reflexivity.
Qed.

Lemma round_half_even_compat (x y : Q) : x == y -> round_half_even x = round_half_even y.
Proof.
  intro E. unfold round_half_even, Qltb.
  rewrite (Qfloor_comp x y E).
  assert (E' : x - inject_Z (Qfloor y) == y - inject_Z (Qfloor y)) by (rewrite E; reflexivity).
  now rewrite !E'.
Qed.

Lemma round4_compat (x y : Q) : x == y -> round4 x = round4 y.
Proof.
  intro E. unfold round4.
  assert (E' : x * 10000 == y * 10000) by (rewrite E; reflexivity).
  now rewrite (round_half_even_compat _ _ E').
Qed.

Lemma find_clearing_some (bids : DataFrame) (q p : Q) :
  UP.find_clearing_price_and_quantity bids = (Some q, Some p) ->
  q = UP.traded_qty (buying_rows bids) (selling_rows bids) p /\ 0 < q.
Proof.
  intro H.
  assert (HB : buying_rows bids <> []).
  { intro E. unfold UP.find_clearing_price_and_quantity in H. rewrite E in H. discriminate. }
  assert (HS : selling_rows bids <> []).
  { intro E. unfold UP.find_clearing_price_and_quantity in H. rewrite E in H.
    destruct (buying_rows bids); discriminate. }
  rewrite (find_clearing_nonempty bids HB HS) in H.
  destruct (candidate_prices_spec (buying_rows bids) (selling_rows bids)) as [A _].
  destruct (scan_spec (buying_rows bids) (selling_rows bids) _ None 0 A)
    as [[Hs Hall]|[c [Hc [Hs [Hlt _]]]]]; rewrite Hs in H.
  - simpl in H. discriminate.
  - destruct (Qeq_bool (UP.traded_qty (buying_rows bids) (selling_rows bids) c) 0);
      [discriminate|].
    injection H as <- <-. split; [reflexivity|exact Hlt].
Qed.

(** C10.  With a non-empty primary clearing of quantity [q] on a bid set
    with unique identifiers, the seller-side transactions of the primary
    ledger sum to [q], the buyer-side transactions sum to [q], every
    transaction carries counterparty tag -1, the whole ledger sums to
    [2 * q], and the summary reports [round(q, 4)]. *)
Theorem primary_ledger_records_both_sides :
  forall (bids : DataFrame) (q p : Q),
    NoDup (index bids) ->
    UP.find_clearing_price_and_quantity bids = (Some q, Some p) ->
    let trans := fst (UP.uniform_price_mechanism bids) in
    traded_on (selling_rows bids) trans == q /\
    traded_on (buying_rows bids) trans == q /\
    Forall (fun t => source t = (-1)%Z) trans /\
    ledger_quantity trans == 2 * q /\
    UP.clearing_quantity (snd (UP.uniform_price_mechanism bids)) = round4 q.
Proof.
  intros bids q p N H trans. subst trans.
  destruct (find_clearing_some bids q p H) as [Eq Hpos].
  unfold UP.uniform_price_mechanism. rewrite H. simpl fst. simpl snd.
  set (buyers := UP.willing_buyers bids p).
  set (sellers := UP.willing_sellers bids p).
  set (tq := py_min (quantity_sum buyers) (quantity_sum sellers)).
  assert (Etq : tq == q).
  { rewrite Eq. unfold tq, UP.traded_qty.
    apply py_min_compat; [apply willing_buyers_sum|apply willing_sellers_sum]. }
  rewrite execute_trades_app.
  pose proof (execute_trades_rows p sellers tq) as Fs.
  pose proof (execute_trades_rows p buyers tq) as Fb.
  assert (Ss : ledger_quantity (UP.execute_trades sellers tq p []) == q).
  { rewrite execute_trades_sum; [exact Etq|lra|apply py_min_le_r]. }
  assert (Sb : ledger_quantity (UP.execute_trades buyers tq p []) == q).
  { rewrite execute_trades_sum; [exact Etq|lra|apply py_min_le_l]. }
  assert (Is : Forall (fun t => In (bid t) (index (selling_rows bids)))
                      (UP.execute_trades sellers tq p [])).
  { eapply Forall_impl; [|exact Fs]. intros t [Ht _]. now apply willing_sellers_index in Ht. }
  assert (Ib : Forall (fun t => In (bid t) (index (buying_rows bids)))
                      (UP.execute_trades buyers tq p [])).
  { eapply Forall_impl; [|exact Fb]. intros t [Ht _]. now apply willing_buyers_index in Ht. }
  split; [|split; [|split; [|split]]].
  - rewrite traded_on_app, (traded_on_all _ _ Is), traded_on_none; [lra|].
    eapply Forall_impl; [|exact Ib]. intros t Ht Hc. exact (sides_disjoint bids N _ Ht Hc).
  - rewrite traded_on_app, (traded_on_all _ _ Ib), traded_on_none; [lra|].
    eapply Forall_impl; [|exact Is]. intros t Ht Hc. exact (sides_disjoint bids N _ Hc Ht).
  - apply Forall_app. split; [eapply Forall_impl; [|exact Fs]|eapply Forall_impl; [|exact Fb]];
      intros t Ht; apply Ht.
  - rewrite ledger_quantity_app. lra.
  - simpl. now apply round4_compat.
Qed.

Lemma primary_ledger_records_both_sides_witness :
  traded_on (selling_rows ex_bids) (fst (UP.uniform_price_mechanism ex_bids)) == 10 /\
  traded_on (buying_rows ex_bids) (fst (UP.uniform_price_mechanism ex_bids)) == 10 /\
  Forall (fun t => source t = (-1)%Z) (fst (UP.uniform_price_mechanism ex_bids)) /\
  ledger_quantity (fst (UP.uniform_price_mechanism ex_bids)) == 2 * 10 /\
  UP.clearing_quantity (snd (UP.uniform_price_mechanism ex_bids)) = round4 10.
Proof.
  apply (primary_ledger_records_both_sides ex_bids 10 (25 # 100)).
  - repeat constructor; simpl; intuition discriminate.
  - vm_compute. reflexivity.
Defined.

(** ** The common allocation loops *)

Lemma quantity_sum_nonneg (rows : DataFrame) :
  (forall r, In r rows -> 0 < quantity (snd r)) -> 0 <= quantity_sum rows.
Proof.
  unfold quantity_sum. induction rows as [|x rows IH]; intro H; simpl; [lra|].
  assert (0 < quantity (snd x)) by (apply H; now left).
  assert (0 <= Qsum (quantities rows)) by (apply IH; intros r Hr; apply H; now right).
  lra.
Qed.

(** On rows of positive quantity whose sum is [traded_quantity], the short
    loop records every row at its full quantity, takes that quantity off
    the row in the frame and leaves [traded_quantity] at zero. *)
Lemma short_loop_exhausts (price_of : Row -> Q) (rows : DataFrame) :
  forall tq b trans,
    (forall r, In r rows -> 0 < quantity (snd r)) ->
    tq == quantity_sum rows ->
    exists tq',
      Common.short_loop price_of rows tq b trans
      = (tq', served rows b, trans ++ map (short_transaction price_of) rows) /\ tq' <= 0.
Proof.
  induction rows as [|[i x] rest IH]; intros tq b trans Hpos Hsum.
  - exists tq. simpl. rewrite app_nil_r. split; [reflexivity|].
    unfold quantity_sum in Hsum. simpl in Hsum. lra.
  - unfold quantity_sum in Hsum. simpl in Hsum. fold (quantity_sum rest) in Hsum.
    assert (Hx : 0 < quantity x) by (apply (Hpos (i, x)); now left).
    assert (Hr : 0 <= quantity_sum rest).
    { apply quantity_sum_nonneg. intros r Hr. apply Hpos. now right. }
    simpl.
    replace (Qle_bool tq 0) with false by (symmetry; apply Qle_bool_false; lra).
    assert (Em : py_min (quantity x) tq = quantity x).
    { unfold py_min. replace (Qltb tq (quantity x)) with false; [reflexivity|].
      symmetry. apply Qltb_false. lra. }
    rewrite Em.
    destruct (IH (tq - quantity x) (sub_quantity b i (quantity x))
                (add_transaction trans i (quantity x) (price_of x) (-1) false))
      as [tq' [E Hle]].
    + intros r Hr'. apply Hpos. now right.
    + lra.
    + exists tq'. rewrite E. split; [|exact Hle].
      unfold add_transaction, short_transaction. simpl. now rewrite <- app_assoc.
Qed.

Lemma long_loop_dead (price_of : Row -> Q) (rows : DataFrame) (tq added : Q)
    (b : DataFrame) (trans : TransactionManager) :
  tq <= 0 -> Common.long_loop price_of rows tq added b trans = (b, trans).
Proof.
  intro H. destruct rows as [|[i x] rest]; simpl; [reflexivity|].
  replace (Qle_bool tq 0) with true; [reflexivity|]. symmetry. now apply Qle_bool_iff.
Qed.

Lemma sides_cases (b : DataFrame) :
  (Common.long_side b = sort_values_desc (buying_rows b) /\
   Common.short_side b = sort_values_asc (selling_rows b)) \/
  (Common.long_side b = sort_values_asc (selling_rows b) /\
   Common.short_side b = sort_values_desc (buying_rows b)).
Proof.
  unfold Common.long_side, Common.short_side, Common.sides.
  destruct (Qltb _ _); simpl; auto.
Qed.

Lemma short_side_In (b : DataFrame) (r : label * Row) :
  In r (Common.short_side b) -> In r b.
Proof.
  destruct (sides_cases b) as [[_ ->]|[_ ->]]; intro H.
  - apply (proj1 (sort_values_asc_In _ _)) in H. now apply filter_In in H.
  - apply (proj1 (sort_values_desc_In _ _)) in H. now apply filter_In in H.
Qed.

(** With uncovered bids (all of positive quantity) the two loops together
    record one transaction per short-side bid, at its full quantity, and
    nothing else: when the second loop starts, [traded_quantity] has
    already been counted down to zero. *)
Lemma allocate_short_only (short_price long_price : Row -> Q) (b : DataFrame)
    (trans : TransactionManager) :
  (forall r, In r b -> 0 < quantity (snd r)) ->
  Common.allocate short_price long_price b trans
  = (served (Common.short_side b) b,
     trans ++ map (short_transaction short_price) (Common.short_side b)).
Proof.
  intro Hpos. unfold Common.allocate.
  pose proof (short_side_In b) as Hin.
  unfold Common.short_side in *.
  destruct (Common.sides b) as [long short]. simpl in *.
  destruct (short_loop_exhausts short_price short (quantity_sum short) b trans)
    as [tq' [E Hle]].
  - intros r Hr. apply Hpos. now apply Hin.
  - reflexivity.
  - rewrite E. now rewrite long_loop_dead.
Qed.

Lemma uncovered_positive (bidsUP : DataFrame) (r : label * Row) :
  In r (uncovered bidsUP) -> 0 < quantity (snd r).
Proof.
  unfold uncovered. intro H. apply filter_In in H. now apply Qltb_true.
Qed.

Lemma bids_uncovered0_positive (bids : DataFrame) (r : label * Row) :
  In r (bids_uncovered0 (primary_phase bids)) -> 0 < quantity (snd r).
Proof.
  unfold primary_phase. destruct (UP.uniform_price_mechanism bids) as [t res]. simpl.
  apply uncovered_positive.
Qed.

Lemma skipn_length_app (A : Type) (l l' : list A) : skipn (List.length l) (l ++ l') = l'.
Proof. induction l as [|x l IH]; simpl; [reflexivity|exact IH]. Qed.

(** The residual ledger of the six mechanisms that share the loops. *)
Lemma residual_of_allocate (bids : DataFrame) (short_price long_price : Row -> Q) :
  residual_transactions bids
    (snd (Common.allocate short_price long_price
            (bids_uncovered0 (primary_phase bids)) (trans0 (primary_phase bids))))
  = map (short_transaction short_price)
        (Common.short_side (bids_uncovered0 (primary_phase bids))).
Proof.
  unfold residual_transactions.
  rewrite allocate_short_only by apply bids_uncovered0_positive.
  apply skipn_length_app.
Qed.

Lemma sub_quantity_absent (df : DataFrame) (i : label) (q : Q) :
  ~ In i (index df) -> sub_quantity df i q = df.
Proof.
  induction df as [|[j r] df IH]; intro H; simpl; [reflexivity|].
  simpl in H. destruct (Z.eqb_spec j i) as [E|E]; [exfalso; auto|].
  f_equal. apply IH. tauto.
Qed.

Lemma quantity_sum_sub (df : DataFrame) (i : label) (q : Q) :
  NoDup (index df) -> In i (index df) ->
  quantity_sum (sub_quantity df i q) == quantity_sum df - q.
Proof.
  induction df as [|[j r] df IH]; intros N H; [destruct H|].
  simpl in N. inversion N as [|? ? Hn N']; subst.
  unfold quantity_sum in *. simpl.
  destruct (Z.eqb_spec j i) as [E|E].
  - subst j. rewrite sub_quantity_absent by exact Hn. simpl. lra.
  - destruct H as [H|H]; [contradiction|]. simpl. rewrite IH by assumption. lra.
Qed.

Lemma quantity_sum_served (rows : DataFrame) :
  forall b, NoDup (index b) -> (forall r, In r rows -> In (fst r) (index b)) ->
    quantity_sum (served rows b) == quantity_sum b - quantity_sum rows.
Proof.
  unfold served.
  induction rows as [|x rows IH]; intros b N H; simpl.
  - unfold quantity_sum at 3. simpl. lra.
  - rewrite IH.
    + rewrite quantity_sum_sub; [|exact N|apply H; now left].
      unfold quantity_sum at 4. simpl. fold (quantity_sum rows). lra.
    + now rewrite index_sub_quantity.
    + intros r Hr. rewrite index_sub_quantity. apply H. now right.
Qed.

(** ** Prices recorded by the mechanisms that do not clip *)

Lemma Qsum_bounds (lo hi : Q) (l : list Q) :
  (forall x, In x l -> lo <= x <= hi) ->
  inject_Z (Z.of_nat (List.length l)) * lo <= Qsum l <= inject_Z (Z.of_nat (List.length l)) * hi.
Proof.
  induction l as [|x l IH]; intro H.
  - simpl. change (inject_Z 0) with 0. lra.
  - assert (Hx : lo <= x <= hi) by (apply H; now left).
    assert (Hl : forall y, In y l -> lo <= y <= hi) by (intros y Hy; apply H; now right).
    specialize (IH Hl).
    change (List.length (x :: l)) with (S (List.length l)).
    rewrite Nat2Z.inj_succ, <- Z.add_1_r, inject_Z_plus.
    change (inject_Z 1) with 1. simpl Qsum. lra.
Qed.

Lemma Qmean_bounds (lo hi : Q) (l : list Q) :
  l <> [] -> (forall x, In x l -> lo <= x <= hi) -> lo <= Qmean l <= hi.
Proof.
  intros Hne H. pose proof (Qsum_bounds lo hi l H) as [B1 B2].
  assert (Hn : 0 < inject_Z (Z.of_nat (List.length l))).
  { change 0 with (inject_Z 0). rewrite <- Zlt_Qlt. destruct l; [congruence|simpl; lia]. }
  unfold Qmean. split.
  - apply Qle_shift_div_l; [exact Hn|]. lra.
  - apply Qle_shift_div_r; [exact Hn|]. lra.
Qed.

Lemma fold_py_max_In (l : list Q) : forall x, In (fold_left py_max l x) (x :: l).
Proof.
  induction l as [|y l IH]; intro x; simpl; [now left|].
  destruct (IH (py_max x y)) as [E|H]; [|right; now right].
  rewrite <- E. unfold py_max. destruct (Qltb x y); [right; now left|now left].
Qed.

Lemma fold_py_min_In (l : list Q) : forall x, In (fold_left py_min l x) (x :: l).
Proof.
  induction l as [|y l IH]; intro x; simpl; [now left|].
  destruct (IH (py_min x y)) as [E|H]; [|right; now right].
  rewrite <- E. unfold py_min. destruct (Qltb y x); [right; now left|now left].
Qed.

Lemma price_max_In (l : list Q) : l <> [] -> In (price_max l) l.
Proof. destruct l as [|x l]; [congruence|]. intros _. apply fold_py_max_In. Qed.

Lemma price_min_In (l : list Q) : l <> [] -> In (price_min l) l.
Proof. destruct l as [|x l]; [congruence|]. intros _. apply fold_py_min_In. Qed.

Lemma positive_sum_has_row (df : DataFrame) :
  0 < quantity_sum df -> exists r, In r df /\ 0 < quantity (snd r).
Proof.
  unfold quantity_sum. induction df as [|x df IH]; simpl; intro H; [lra|].
  destruct (Qlt_le_dec 0 (quantity (snd x))) as [Hx|Hx].
  - exists x. split; [now left|exact Hx].
  - destruct IH as [r [Hr Hq]]; [lra|]. exists r. split; [now right|exact Hq].
Qed.

(** Behind the guard both sides of the uncovered bids are inhabited. *)
Lemma guard_sides_nonempty (bids : DataFrame) :
  residual_guard (primary_phase bids) = true ->
  buying_rows (bids_uncovered0 (primary_phase bids)) <> [] /\
  selling_rows (bids_uncovered0 (primary_phase bids)) <> [].
Proof.
  unfold residual_guard, primary_phase.
  destruct (UP.uniform_price_mechanism bids) as [t res]. simpl.
  intro G. apply andb_true_iff in G. destruct G as [Gs Gb].
  apply Qltb_true in Gs. apply Qltb_true in Gb.
  destruct (positive_sum_has_row _ Gb) as [rb [Hb Qb]].
  destruct (positive_sum_has_row _ Gs) as [rs [Hs Qs]].
  apply filter_In in Hb. apply filter_In in Hs.
  split; intro E.
  - assert (H : In rb (buying_rows (uncovered (update_remaining bids t)))).
    { apply filter_In. split; [|tauto]. apply filter_In. split; [tauto|now apply Qltb_true]. }
    rewrite E in H. destruct H.
  - assert (H : In rs (selling_rows (uncovered (update_remaining bids t)))).
    { apply filter_In. split; [|tauto]. apply filter_In. split; [tauto|now apply Qltb_true]. }
    rewrite E in H. destruct H.
Qed.

Lemma prices_In (df : DataFrame) (x : Q) :
  In x (prices df) <-> exists r, In r df /\ price (snd r) = x.
Proof.
  unfold prices. rewrite in_map_iff. split; intros [r [A B]]; exists r; tauto.
Qed.

Lemma sorted_nonempty_asc (df : DataFrame) : df <> [] -> sort_values_asc df <> [].
Proof.
  destruct df as [|x df]; [congruence|]. intros _ E.
  assert (H : In x (sort_values_asc (x :: df))) by (apply sort_values_asc_In; now left).
  rewrite E in H. destruct H.
Qed.

Lemma sorted_nonempty_desc (df : DataFrame) : df <> [] -> sort_values_desc df <> [].
Proof.
  destruct df as [|x df]; [congruence|]. intros _ E.
  assert (H : In x (sort_values_desc (x :: df))) by (apply sort_values_desc_In; now left).
  rewrite E in H. destruct H.
Qed.

Lemma midpoint_price_bounds (lo hi : Q) (U : DataFrame) :
  buying_rows U <> [] -> selling_rows U <> [] ->
  (forall r, In r U -> lo <= price (snd r) <= hi) ->
  lo <= CFRM.midpoint_price U <= hi.
Proof.
  intros HB HS H. unfold CFRM.midpoint_price.
  assert (Mb : lo <= Qmean (prices (sort_values_desc (buying_rows U))) <= hi).
  { apply Qmean_bounds.
    - intro E. apply map_eq_nil in E. revert E. now apply sorted_nonempty_desc.
    - intros x Hx. apply prices_In in Hx. destruct Hx as [r [Hr <-]].
      apply H. apply (proj1 (sort_values_desc_In _ _)) in Hr. now apply filter_In in Hr. }
  assert (Ms : lo <= Qmean (prices (sort_values_asc (selling_rows U))) <= hi).
  { apply Qmean_bounds.
    - intro E. apply map_eq_nil in E. revert E. now apply sorted_nonempty_asc.
    - intros x Hx. apply prices_In in Hx. destruct Hx as [r [Hr <-]].
      apply H. apply (proj1 (sort_values_asc_In _ _)) in Hr. now apply filter_In in Hr. }
  rewrite Qdiv2. lra.
Qed.

Lemma adjusted_price_bounds (lo hi a : Q) (U : DataFrame) :
  buying_rows U <> [] -> selling_rows U <> [] ->
  (forall r, In r U -> lo <= price (snd r) <= hi) ->
  - (1 # 2) <= a <= 1 # 2 ->
  lo <= MPAS.adjusted_price U a <= hi.
Proof.
  intros HB HS H Ha. unfold MPAS.adjusted_price.
  set (b := price_max (prices (buying_rows U))).
  set (s := price_min (prices (selling_rows U))).
  assert (Hb : lo <= b <= hi).
  { assert (I : In b (prices (buying_rows U))).
    { apply price_max_In. intro E. apply map_eq_nil in E. contradiction. }
    apply prices_In in I. destruct I as [r [Hr <-]]. apply H. now apply filter_In in Hr. }
  assert (Hs : lo <= s <= hi).
  { assert (I : In s (prices (selling_rows U))).
    { apply price_min_In. intro E. apply map_eq_nil in E. contradiction. }
    apply prices_In in I. destruct I as [r [Hr <-]]. apply H. now apply filter_In in Hr. }
  assert (E : (b + s) / 2 + a * (b - s) == ((1 # 2) + a) * b + ((1 # 2) - a) * s) by field.
  rewrite E.
  assert (P1 : 0 <= ((1 # 2) + a) * (b - lo)) by (apply Qmult_le_0_compat; lra).
  assert (P2 : 0 <= ((1 # 2) - a) * (s - lo)) by (apply Qmult_le_0_compat; lra).
  assert (P3 : 0 <= ((1 # 2) + a) * (hi - b)) by (apply Qmult_le_0_compat; lra).
  assert (P4 : 0 <= ((1 # 2) - a) * (hi - s)) by (apply Qmult_le_0_compat; lra).
  split; nra.
Qed.

Lemma CFRM_ledger (bids : DataFrame) (kwargs : Kwargs) :
  residual_guard (primary_phase bids) = true ->
  fst (CFRM.two_steps_CFRM_mechanism bids kwargs)
  = snd (Common.allocate
           (fun _ => CFRM.midpoint_price (bids_uncovered0 (primary_phase bids)))
           (fun _ => CFRM.midpoint_price (bids_uncovered0 (primary_phase bids)))
           (bids_uncovered0 (primary_phase bids)) (trans0 (primary_phase bids))).
Proof.
  intro G. unfold CFRM.two_steps_CFRM_mechanism, CFRM.cap_and_floor_range_midpoint.
  rewrite G. now destruct (Common.allocate _ _ _ _).
Qed.

Lemma MPAS_ledger (bids : DataFrame) (kwargs : Kwargs) :
  residual_guard (primary_phase bids) = true ->
  fst (MPAS.two_steps_MPAS_mechanism bids kwargs)
  = snd (Common.allocate
           (fun _ => MPAS.adjusted_price (bids_uncovered0 (primary_phase bids)) (alpha kwargs))
           (fun _ => MPAS.adjusted_price (bids_uncovered0 (primary_phase bids)) (alpha kwargs))
           (bids_uncovered0 (primary_phase bids)) (trans0 (primary_phase bids))).
Proof.
  intro G. unfold MPAS.two_steps_MPAS_mechanism, MPAS.marginal_price_adjusted_by_spread.
  rewrite G. now destruct (Common.allocate _ _ _ _).
Qed.

Lemma APM_ledger (bids : DataFrame) (kwargs : Kwargs) :
  residual_guard (primary_phase bids) = true ->
  fst (APM.two_steps_APM_mechanism bids kwargs)
  = snd (Common.allocate
           (fun x => (price x + APM.iloc0_price
                        (Common.long_side (bids_uncovered0 (primary_phase bids)))) / 2)
           (fun x => (price x + APM.iloc0_price
                        (Common.short_side (bids_uncovered0 (primary_phase bids)))) / 2)
           (bids_uncovered0 (primary_phase bids)) (trans0 (primary_phase bids))).
Proof.
  intro G. unfold APM.two_steps_APM_mechanism, APM.average_price_method.
  rewrite G. unfold Common.long_side, Common.short_side.
  destruct (Common.sides (bids_uncovered0 (primary_phase bids))) as [l sh]. simpl.
  now destruct (Common.allocate _ _ _ _).
Qed.

(** For every round that reaches the residual phase, CFRM records every
    residual transaction at the midpoint price and MPAS at the
    spread-adjusted price, as computed from the uncovered bids: neither
    price is compared with FIT or TOU. *)
Lemma residual_prices_are_the_computed_prices (bids : DataFrame) (kwargs : Kwargs) :
  let U := bids_uncovered0 (primary_phase bids) in
  residual_guard (primary_phase bids) = true ->
  Forall (fun t => t_price t = CFRM.midpoint_price U)
    (residual_transactions bids (fst (CFRM.two_steps_CFRM_mechanism bids kwargs))) /\
  Forall (fun t => t_price t = MPAS.adjusted_price U (alpha kwargs))
    (residual_transactions bids (fst (MPAS.two_steps_MPAS_mechanism bids kwargs))).
Proof.
  intros U G. split.
  - rewrite (CFRM_ledger bids kwargs G), residual_of_allocate. fold U.
    apply Forall_forall. intros t Ht. apply in_map_iff in Ht. destruct Ht as [r [<- _]].
    reflexivity.
  - rewrite (MPAS_ledger bids kwargs G), residual_of_allocate. fold U.
    apply Forall_forall. intros t Ht. apply in_map_iff in Ht. destruct Ht as [r [<- _]].
    reflexivity.
Qed.

(** These prices lie between FIT and TOU when every uncovered bid price
    does and, for MPAS, alpha lies in [-1/2, 1/2]; nothing keeps them
    there otherwise. *)
Lemma computed_prices_between_the_bid_prices (bids : DataFrame) (kwargs : Kwargs) :
  let U := bids_uncovered0 (primary_phase bids) in
  residual_guard (primary_phase bids) = true ->
  (forall r, In r U -> FIT kwargs <= price (snd r) <= TOU kwargs) ->
  FIT kwargs <= CFRM.midpoint_price U <= TOU kwargs /\
  (- (1 # 2) <= alpha kwargs <= 1 # 2 ->
   FIT kwargs <= MPAS.adjusted_price U (alpha kwargs) <= TOU kwargs).
Proof.
  intros U G H.
  destruct (guard_sides_nonempty bids G) as [HB HS]. fold U in HB, HS.
  split.
  - now apply midpoint_price_bounds.
  - intro Ha. now apply adjusted_price_bounds.
Qed.

(** C3.  On [gap_bids] with the default bounds FIT = 0.1 and TOU = 0.25
    nothing clears in the primary phase and the residual phase runs.  CFRM
    computes the midpoint (0.40 + 0.50) / 2 = 0.45 and MPAS, with the
    default alpha = 0.5, the adjusted price 0.45 + 0.5 * (0.40 - 0.50) =
    0.40.  Each records its residual transaction (against buyer 0) at
    that price, above TOU, where clipping to [FIT, TOU] would give 0.25;
    CFRM also reports 0.45 as the residual price of the round. *)
Theorem residual_prices_are_not_clipped :
  let U := bids_uncovered0 (primary_phase gap_bids) in
  let cfrm := CFRM.two_steps_CFRM_mechanism gap_bids default_kwargs in
  let mpas := MPAS.two_steps_MPAS_mechanism gap_bids default_kwargs in
  residual_guard (primary_phase gap_bids) = true /\
  FIT default_kwargs == 10 # 100 /\ TOU default_kwargs == 25 # 100 /\
  alpha default_kwargs == 5 # 10 /\
  CFRM.midpoint_price U == 45 # 100 /\
  MPAS.adjusted_price U (alpha default_kwargs) == 40 # 100 /\
  map bid (residual_transactions gap_bids (fst cfrm)) = [0%Z] /\
  Forall (fun t => t_price t == 45 # 100 /\ TOU default_kwargs < t_price t)
    (residual_transactions gap_bids (fst cfrm)) /\
  map bid (residual_transactions gap_bids (fst mpas)) = [0%Z] /\
  Forall (fun t => t_price t == 40 # 100 /\ TOU default_kwargs < t_price t)
    (residual_transactions gap_bids (fst mpas)) /\
  same_price (residual_price (snd cfrm)) (Some (45 # 100)) /\
  clip (FIT default_kwargs) (TOU default_kwargs) (CFRM.midpoint_price U) == 25 # 100 /\
  clip (FIT default_kwargs) (TOU default_kwargs)
       (MPAS.adjusted_price U (alpha default_kwargs)) == 25 # 100.
Proof.
  repeat split; try (vm_compute; reflexivity);
    repeat constructor; vm_compute; reflexivity.
Qed.

(** ** Divergences of the code from the specification *)

Lemma bids_uncovered0_NoDup (bids : DataFrame) :
  NoDup (index bids) -> NoDup (index (bids_uncovered0 (primary_phase bids))).
Proof.
  intro N. unfold primary_phase.
  destruct (UP.uniform_price_mechanism bids) as [t res]. simpl.
  apply NoDup_index_filter. now rewrite index_update_remaining.
Qed.

Lemma short_transactions_quantity (price_of : Row -> Q) (rows : DataFrame) :
  ledger_quantity (map (short_transaction price_of) rows) == quantity_sum rows.
Proof.
  unfold ledger_quantity, quantity_sum.
  induction rows as [|x rows IH]; simpl; [reflexivity|]. rewrite IH. reflexivity.
Qed.

(** For every round that reaches the residual phase, CFRM and APM record
    exactly the short-side bids, each at its full quantity; no transaction
    is recorded against a long-side bid. *)
Lemma common_allocation_serves_short_side_only (bids : DataFrame) (kwargs : Kwargs) :
  let U := bids_uncovered0 (primary_phase bids) in
  residual_guard (primary_phase bids) = true ->
  residual_transactions bids (fst (CFRM.two_steps_CFRM_mechanism bids kwargs))
    = map (short_transaction (fun _ => CFRM.midpoint_price U)) (Common.short_side U) /\
  residual_transactions bids (fst (APM.two_steps_APM_mechanism bids kwargs))
    = map (short_transaction
             (fun x => (price x + APM.iloc0_price (Common.long_side U)) / 2))
          (Common.short_side U).
Proof.
  intros U G. split.
  - rewrite (CFRM_ledger bids kwargs G). apply residual_of_allocate.
  - rewrite (APM_ledger bids kwargs G). apply residual_of_allocate.
Qed.

(** For every round that reaches the residual phase on a bid set with
    unique identifiers, CFRM trades the short side's quantity and reports
    what is left on the uncovered bids afterwards, that is the whole long
    side. *)
Lemma cfrm_reports_what_is_left (bids : DataFrame) (kwargs : Kwargs) :
  let U := bids_uncovered0 (primary_phase bids) in
  NoDup (index bids) ->
  residual_guard (primary_phase bids) = true ->
  ledger_quantity (residual_transactions bids (fst (CFRM.two_steps_CFRM_mechanism bids kwargs)))
    == quantity_sum (Common.short_side U) /\
  residual_quantity (snd (CFRM.two_steps_CFRM_mechanism bids kwargs))
    == quantity_sum U - quantity_sum (Common.short_side U).
Proof.
  intros U N G. split.
  - rewrite (proj1 (common_allocation_serves_short_side_only bids kwargs G)).
    apply short_transactions_quantity.
  - unfold CFRM.two_steps_CFRM_mechanism, CFRM.cap_and_floor_range_midpoint.
    rewrite G. rewrite allocate_short_only by apply bids_uncovered0_positive.
    simpl. fold U. apply quantity_sum_served.
    + now apply bids_uncovered0_NoDup.
    + intros r Hr. apply index_In. exists (snd r).
      rewrite <- surjective_pairing. now apply short_side_In.
Qed.

(** C2.  On [nbs_bids] the primary phase clears one unit between bids 0
    and 1, leaving buyer 2 with 10 and sellers 3 and 4 with 6 each.  The
    NBS matching loop then records 6 against buyer 2 for each of the two
    sellers: 12 in total against a bid of quantity 10, whose remaining
    quantity ends at -2 (the reported sum of remaining quantities). *)
Theorem nash_bargaining_over_allocates :
  forall fuel : nat,
  exists trans extra,
    NBS.two_steps_NBS_mechanism (S (S fuel)) nbs_bids default_kwargs = Returns (trans, extra) /\
    Pairwise.at_quantity nbs_bids 2%Z == 10 /\
    traded_against 2%Z trans == 12 /\
    residual_quantity extra == - (2).
Proof.
  intro fuel. eexists. eexists. split; [vm_compute; reflexivity|].
  split; [|split]; vm_compute; reflexivity.
Qed.

(** C4.  On [gap_bids] nothing clears in the primary phase; the uncovered
    buyer holds 4 and the uncovered seller 10.  CFRM and APM record the
    short side (buyer 0, quantity 4) and nothing against the long side:
    the seller-side residual quantity is 0, not min(4, 10) = 4. *)
Theorem long_side_is_not_allocated :
  let U := bids_uncovered0 (primary_phase gap_bids) in
  let cfrm := residual_transactions gap_bids
                (fst (CFRM.two_steps_CFRM_mechanism gap_bids default_kwargs)) in
  let apm := residual_transactions gap_bids
               (fst (APM.two_steps_APM_mechanism gap_bids default_kwargs)) in
  residual_guard (primary_phase gap_bids) = true /\
  quantity_sum (buying_rows U) == 4 /\ quantity_sum (selling_rows U) == 10 /\
  map (fun t => (bid t, t_quantity t)) cfrm = [(0%Z, 4)] /\
  map (fun t => (bid t, t_quantity t)) apm = [(0%Z, 4)] /\
  traded_on (buying_rows U) cfrm == 4 /\ traded_on (selling_rows U) cfrm == 0 /\
  traded_on (buying_rows U) apm == 4 /\ traded_on (selling_rows U) apm == 0.
Proof.
  repeat split; vm_compute; reflexivity.
Qed.

(** C5.  On [gap_bids] the residual phase of CFRM and of APM trades 4
    (one transaction against buyer 0), while the summary reports
    residual quantity 10 and total quantity 10: the reported figure is the
    sum of the quantities left on the uncovered bids after the phase. *)
Theorem reported_quantity_is_what_is_left :
  let cfrm := CFRM.two_steps_CFRM_mechanism gap_bids default_kwargs in
  let apm := APM.two_steps_APM_mechanism gap_bids default_kwargs in
  residual_guard (primary_phase gap_bids) = true /\
  ledger_quantity (residual_transactions gap_bids (fst cfrm)) == 4 /\
  residual_quantity (snd cfrm) == 10 /\ total_quantity (snd cfrm) == 10 /\
  ledger_quantity (residual_transactions gap_bids (fst apm)) == 4 /\
  residual_quantity (snd apm) == 10 /\ total_quantity (snd apm) == 10.
Proof.
  repeat split; vm_compute; reflexivity.
Qed.

(** ** Monte-Carlo Shapley values *)

Lemma sum_skipna_all_nan (l : list (label * option Q)) :
  (forall e, In e l -> snd e = None) -> CGTS.sum_skipna l = 0.
Proof.
  induction l as [|[i [v|]] l IH]; intro H; simpl.
  - reflexivity.
  - specialize (H (i, Some v) (or_introl eq_refl)). discriminate.
  - apply IH. intros e He. apply H. now right.
Qed.

Lemma find_none_all (A : Type) (f : A -> bool) (l : list A) :
  (forall x, In x l -> f x = false) -> find f l = None.
Proof.
  induction l as [|x l IH]; intro H; simpl; [reflexivity|].
  rewrite (H x (or_introl eq_refl)). apply IH. intros y Hy. apply H. now right.
Qed.

Lemma series_get_absent (s : CGTS.Series) (l : label) :
  ~ In l (map fst s) -> CGTS.series_get s l = None.
Proof.
  intro H. unfold CGTS.series_get. rewrite find_none_all; [reflexivity|].
  intros e He. apply Z.eqb_neq. intro E. apply H. rewrite <- E. now apply in_map.
Qed.

(** The two operands of the subtraction in [calculate_welfare] carry
    disjoint labels, so every aligned entry is NaN and the sum is 0. *)
Lemma welfare_zero (df : DataFrame) :
  one_side_per_label df -> CGTS.calculate_welfare df = 0.
Proof.
  intro F. unfold CGTS.calculate_welfare. apply sum_skipna_all_nan.
  intros e He. unfold CGTS.series_sub in He. apply in_app_iff in He.
  destruct He as [He|He].
  - apply in_map_iff in He. destruct He as [a [<- Ha]]. simpl.
    rewrite series_get_absent; [reflexivity|].
    intro Hin. unfold CGTS.price_series in Hin, Ha.
    rewrite map_map in Hin. simpl in Hin.
    apply in_map_iff in Hin. destruct Hin as [[j r2] [Es Hs]].
    apply in_map_iff in Ha. destruct Ha as [[i r1] [Eb Hb]].
    subst a. simpl in Es. subst j.
    apply filter_In in Hs. apply filter_In in Hb. simpl in *.
    destruct Hs as [Hs Bs]. destruct Hb as [Hb Bb].
    rewrite (F i r1 r2 Hb Hs) in Bb. rewrite Bb in Bs. discriminate.
  - apply in_map_iff in He. destruct He as [a [<- _]]. reflexivity.
Qed.

Lemma loc_list_rows (df : DataFrame) (S : list label) :
  forall d, CGTS.loc_list df S = Some d -> forall r, In r d -> In r df.
Proof.
  induction S as [|l S IH]; simpl; intros d H r Hr.
  - injection H as <-. destruct Hr.
  - cbv zeta in H.
    destruct (filter (fun r0 => Z.eqb (fst r0) l) df) as [|x rows] eqn:Ef; [discriminate|].
    destruct (CGTS.loc_list df S) as [rest|]; [|discriminate]. rewrite <- Ef in H.
    injection H as <-. apply in_app_iff in Hr. destruct Hr as [Hr|Hr].
    + now apply filter_In in Hr.
    + now apply (IH rest).
Qed.

Lemma loc_list_total (df : DataFrame) (S : list label) :
  (forall l, In l S -> In l (index df)) -> exists d, CGTS.loc_list df S = Some d.
Proof.
  induction S as [|l S IH]; simpl; intro H; [now exists []|].
  destruct IH as [d Hd]; [intros l' Hl'; apply H; now right|]. rewrite Hd.
  cbv zeta.
  destruct (filter (fun r0 => Z.eqb (fst r0) l) df) as [|x rows] eqn:Ef.
  - exfalso. assert (Hl : In l (index df)) by (apply H; now left).
    apply index_In in Hl. destruct Hl as [row Hrow].
    assert (Hf : In (l, row) (filter (fun r0 => Z.eqb (fst r0) l) df)).
    { apply filter_In. split; [exact Hrow|apply Z.eqb_refl]. }
    rewrite Ef in Hf. destruct Hf.
  - eexists. reflexivity.
Qed.

Lemma welfare_of_coalition (U : DataFrame) (S : list label) :
  one_side_per_label U -> (forall l, In l S -> In l (index U)) ->
  option_map CGTS.calculate_welfare (CGTS.loc_list U S) = Some 0.
Proof.
  intros F H. destruct (loc_list_total U S H) as [d Hd]. rewrite Hd. simpl. f_equal.
  apply welfare_zero. intros i r1 r2 H1 H2.
  apply (F i); eapply loc_list_rows; eassumption.
Qed.

(** *** [random.shuffle] only reorders *)

Lemma set_nth_In (x : list label) : forall i v y,
  In y (CGTS.set_nth x i v) -> y = v \/ In y x.
Proof.
  induction x as [|a x IH]; intros i v y H; simpl in *; [destruct H|].
  destruct i as [|i]; simpl in H.
  - destruct H as [H|H]; auto.
  - destruct H as [H|H]; [auto|]. destruct (IH i v y H); auto.
Qed.

Lemma set_nth_length (x : list label) : forall i v,
  List.length (CGTS.set_nth x i v) = List.length x.
Proof.
  induction x as [|a x IH]; intros i v; simpl; [reflexivity|].
  destruct i; simpl; [reflexivity|now rewrite IH].
Qed.

Lemma swap_length (x : list label) (i j : nat) :
  List.length (CGTS.swap x i j) = List.length x.
Proof. unfold CGTS.swap. now rewrite !set_nth_length. Qed.

Lemma swap_In (x : list label) (i j : nat) (y : label) :
  (i < List.length x)%nat -> (j < List.length x)%nat ->
  In y (CGTS.swap x i j) -> In y x.
Proof.
  intros Hi Hj H. unfold CGTS.swap in H.
  apply set_nth_In in H. destruct H as [->|H]; [now apply nth_In|].
  apply set_nth_In in H. destruct H as [->|H]; [now apply nth_In|exact H].
Qed.

Lemma randbelow_lt (n : nat) (g : CGTS.Generator) :
  (0 < n)%nat -> (fst (CGTS.randbelow n g) < n)%nat.
Proof.
  intro H. destruct g as [|d g]; simpl; [exact H|].
  apply Nat.mod_upper_bound. lia.
Qed.

Lemma shuffle_from_In (i : nat) : forall x g y,
  (i < List.length x)%nat -> In y (fst (CGTS.shuffle_from i x g)) -> In y x.
Proof.
  induction i as [|i IH]; intros x g y Hi H; simpl in H; [exact H|].
  pose proof (randbelow_lt (S (S i)) g ltac:(lia)) as Hj.
  destruct (CGTS.randbelow (S (S i)) g) as [j g']. simpl in Hj.
  apply IH in H; [|rewrite swap_length; lia].
  apply swap_In in H; [exact H|exact Hi|lia].
Qed.

Lemma shuffle_In (x : list label) (g : CGTS.Generator) (y : label) :
  In y (fst (CGTS.shuffle x g)) -> In y x.
Proof.
  unfold CGTS.shuffle. destruct x as [|a x]; [simpl; tauto|].
  apply shuffle_from_In. simpl. lia.
Qed.

(** *** The sampled Shapley values *)

Lemma sv_add_zero (sv : CGTS.Shapley) (p : label) (v : Q) :
  In p (map fst sv) -> v == 0 -> Forall (fun e => snd e == 0) sv ->
  exists sv', CGTS.sv_add sv p v = Some sv' /\ map fst sv' = map fst sv /\
              Forall (fun e => snd e == 0) sv'.
Proof.
  intros Hp Hv Hz. unfold CGTS.sv_add.
  rewrite (proj2 (existsb_label p (map fst sv)) Hp).
  eexists. split; [reflexivity|]. split.
  - rewrite map_map. apply map_ext. intro e. destruct (Z.eqb _ p); reflexivity.
  - apply Forall_forall. intros e He. apply in_map_iff in He.
    destruct He as [e0 [<- He0]].
    rewrite Forall_forall in Hz. specialize (Hz e0 He0).
    destruct (Z.eqb _ p); simpl; [|exact Hz].
    rewrite Hv, Qplus_0_r. exact Hz.
Qed.

Lemma coalition_loop_zero (U : DataFrame) (n : nat) :
  one_side_per_label U ->
  forall participants S sv,
    (forall p, In p participants -> In p (index U)) ->
    (forall p, In p S -> In p (index U)) ->
    map fst sv = index U -> Forall (fun e => snd e == 0) sv ->
    exists sv', CGTS.coalition_loop U n participants S sv = Some sv' /\
                map fst sv' = index U /\ Forall (fun e => snd e == 0) sv'.
Proof.
  intro F. induction participants as [|p rest IH]; intros S sv HP HS Hk Hz.
  - exists sv. simpl. auto.
  - simpl.
    assert (W : match S with
                | [] => Some 0
                | _ :: _ => option_map CGTS.calculate_welfare (CGTS.loc_list U S)
                end = Some 0).
    { destruct S; [reflexivity|]. now apply welfare_of_coalition. }
    rewrite W.
    assert (HS' : forall q, In q (S ++ [p]) -> In q (index U)).
    { intros q Hq. apply in_app_iff in Hq. destruct Hq as [Hq|[<-|[]]]; [auto|].
      apply HP. now left. }
    rewrite (welfare_of_coalition U (S ++ [p]) F HS').
    destruct (sv_add_zero sv p ((0 - 0) / inject_Z (Z.of_nat n))) as [sv' [E [Hk' Hz']]].
    + rewrite Hk. apply HP. now left.
    + unfold Qdiv. ring.
    + exact Hz.
    + rewrite E. apply IH; try assumption.
      * intros q Hq. apply HP. now right.
      * now rewrite Hk'.
Qed.

Lemma sample_loop_zero (U : DataFrame) (num_samples : nat) :
  one_side_per_label U ->
  forall n participants sv g,
    (forall p, In p participants -> In p (index U)) ->
    map fst sv = index U -> Forall (fun e => snd e == 0) sv ->
    exists sv' g', CGTS.sample_loop n U num_samples participants sv g = Some (sv', g') /\
                   map fst sv' = index U /\ Forall (fun e => snd e == 0) sv'.
Proof.
  intro F. induction n as [|n IH]; intros participants sv g HP Hk Hz.
  - exists sv, g. simpl. auto.
  - simpl.
    pose proof (shuffle_In participants g) as Hsh.
    destruct (CGTS.shuffle participants g) as [participants' g']. simpl in Hsh.
    assert (HP' : forall p, In p participants' -> In p (index U)) by (intros q Hq; auto).
    destruct (coalition_loop_zero U num_samples F participants' [] sv HP'
                ltac:(intros q []) Hk Hz) as [sv' [E [Hk' Hz']]].
    rewrite E. now apply IH.
Qed.

Lemma monte_carlo_shapley_zero (U : DataFrame) (n : nat) (g : CGTS.Generator) :
  one_side_per_label U ->
  exists sv g', CGTS.monte_carlo_shapley U n g = Some (sv, g') /\
                map fst sv = index U /\ Forall (fun e => snd e == 0) sv.
Proof.
  intro F. unfold CGTS.monte_carlo_shapley. apply sample_loop_zero.
  - exact F.
  - auto.
  - rewrite map_map. simpl. apply map_id.
  - apply Forall_forall. intros e He. apply in_map_iff in He.
    destruct He as [q [<- _]]. simpl. reflexivity.
Qed.

Lemma sv_get_zero (sv : CGTS.Shapley) (p : label) :
  Forall (fun e => snd e == 0) sv -> CGTS.sv_get sv p == 0.
Proof.
  intro Hz. unfold CGTS.sv_get.
  destruct (find (fun e => Z.eqb (fst e) p) sv) as [e|] eqn:E; [|reflexivity].
  apply find_some in E. rewrite Forall_forall in Hz. apply Hz. tauto.
Qed.

Lemma py_sum_from (l : list Q) : forall a, fold_left Qplus l a == a + Qsum l.
Proof.
  induction l as [|x l IH]; intro a; simpl; [lra|]. rewrite IH. lra.
Qed.

Lemma py_sum_zero (l : list Q) : Forall (fun x => x == 0) l -> py_sum l == 0.
Proof.
  intro H. unfold py_sum. rewrite py_sum_from.
  induction H as [|x l Hx Hl IH]; simpl; lra.
Qed.

(** *** The matching loop does not look at prices *)

Lemma same_ledger_refl (l : TransactionManager) : same_ledger l l.
Proof.
  induction l as [|t l IH]; constructor; [|exact IH].
  unfold same_trade. repeat split; reflexivity.
Qed.

Lemma same_ledger_add (l l' : TransactionManager) (b : label) (q p p' : Q) (s : Z) (a : bool) :
  same_ledger l l' -> p == p' ->
  same_ledger (add_transaction l b q p s a) (add_transaction l' b q p' s a).
Proof.
  intros H E. unfold add_transaction. apply Forall2_app; [exact H|].
  constructor; [|constructor]. unfold same_trade. simpl. repeat split; auto.
Qed.

Section PriceExtensionality.

Variables bp sp bp' sp' : label -> label -> Q.
Hypothesis buyer_prices : forall i j, bp i j == bp' i j.
Hypothesis seller_prices : forall i j, sp i j == sp' i j.

Lemma match_sellers_ext (i : label) (row : Row) (ms : DataFrame) :
  forall b t t', same_ledger t t' ->
    fst (Pairwise.match_sellers bp sp i row ms b t)
      = fst (Pairwise.match_sellers bp' sp' i row ms b t') /\
    same_ledger (snd (Pairwise.match_sellers bp sp i row ms b t))
                (snd (Pairwise.match_sellers bp' sp' i row ms b t')).
Proof.
  induction ms as [|[j seller] rest IH]; intros b t t' H; simpl.
  - split; [reflexivity|exact H].
  - assert (H2 : same_ledger
             (add_transaction (add_transaction t i (py_min (quantity row) (quantity seller))
                                 (bp i j) (-1) false)
                j (py_min (quantity row) (quantity seller)) (sp i j) (-1) false)
             (add_transaction (add_transaction t' i (py_min (quantity row) (quantity seller))
                                 (bp' i j) (-1) false)
                j (py_min (quantity row) (quantity seller)) (sp' i j) (-1) false)).
    { apply same_ledger_add; [apply same_ledger_add|]; auto. }
    destruct (Qeq_bool _ 0); simpl; [split; [reflexivity|exact H2]|].
    now apply IH.
Qed.

Lemma match_buyers_ext (rows : DataFrame) :
  forall b t t', same_ledger t t' ->
    fst (Pairwise.match_buyers bp sp rows b t)
      = fst (Pairwise.match_buyers bp' sp' rows b t') /\
    same_ledger (snd (Pairwise.match_buyers bp sp rows b t))
                (snd (Pairwise.match_buyers bp' sp' rows b t')).
Proof.
  induction rows as [|[i row] rest IH]; intros b t t' H; simpl.
  - split; [reflexivity|exact H].
  - destruct (buying row); [|now apply IH].
    destruct (match_sellers_ext i row (selling_rows b) b t t' H) as [E L].
    destruct (Pairwise.match_sellers bp sp i row (selling_rows b) b t) as [b1 t1].
    destruct (Pairwise.match_sellers bp' sp' i row (selling_rows b) b t') as [b1' t1'].
    simpl in E, L. subst b1'. now apply IH.
Qed.

End PriceExtensionality.

Lemma clip_compat (lo hi x y : Q) : x == y -> clip lo hi x == clip lo hi y.
Proof.
  intro E. unfold clip.
  destruct (py_min_spec x hi) as [[H1 ->]|[H1 ->]];
    destruct (py_min_spec y hi) as [[H2 ->]|[H2 ->]]; try lra; try reflexivity.
  destruct (py_max_spec lo x) as [[H3 ->]|[H3 ->]];
    destruct (py_max_spec lo y) as [[H4 ->]|[H4 ->]]; lra.
Qed.

(** *** Labels stay unique through the primary phase *)

Lemma bids_uncovered0_one_side (bids : DataFrame) :
  NoDup (index bids) -> one_side_per_label (bids_uncovered0 (primary_phase bids)).
Proof.
  intro N. unfold primary_phase.
  destruct (UP.uniform_price_mechanism bids) as [t res]. simpl.
  intros i r1 r2 H1 H2. f_equal.
  apply (unique_labels (uncovered (update_remaining bids t))) with i; try assumption.
  apply NoDup_index_filter. now rewrite index_update_remaining.
Qed.

Lemma cgts_allocations_agree (U : DataFrame) (trans : TransactionManager)
    (cap floor : Q) (n : nat) (g1 g2 : CGTS.Generator) :
  one_side_per_label U ->
  exists A1 g1' A2 g2',
    CGTS.cooperative_game_theory_shapley_monte_carlo U trans cap floor n g1 = Some (A1, g1') /\
    CGTS.cooperative_game_theory_shapley_monte_carlo U trans cap floor n g2 = Some (A2, g2') /\
    CGTS.bidsM A1 = CGTS.bidsM A2 /\
    same_ledger (CGTS.CGTtrans A1) (CGTS.CGTtrans A2) /\
    CGTS.CGTprice A1 == CGTS.CGTprice A2 /\
    map fst (CGTS.shapley_values A1) = map fst (CGTS.shapley_values A2) /\
    Forall (fun e => snd e == 0) (CGTS.shapley_values A1) /\
    Forall (fun e => snd e == 0) (CGTS.shapley_values A2).
Proof.
  intro F.
  destruct (monte_carlo_shapley_zero U n g1 F) as [sv1 [g1' [E1 [K1 Z1]]]].
  destruct (monte_carlo_shapley_zero U n g2 F) as [sv2 [g2' [E2 [K2 Z2]]]].
  unfold CGTS.cooperative_game_theory_shapley_monte_carlo. rewrite E1, E2.
  unfold Pairwise.pairwise.
  assert (P : forall i j,
             clip floor cap ((CGTS.sv_get sv1 i + CGTS.sv_get sv1 j) / 2)
             == clip floor cap ((CGTS.sv_get sv2 i + CGTS.sv_get sv2 j) / 2)).
  { intros i j. apply clip_compat.
    rewrite (sv_get_zero sv1 i Z1), (sv_get_zero sv1 j Z1),
            (sv_get_zero sv2 i Z2), (sv_get_zero sv2 j Z2). reflexivity. }
  destruct (match_buyers_ext _ _ _ _ P P U U trans trans (same_ledger_refl trans)) as [Eb L].
  destruct (Pairwise.match_buyers _ _ U U trans) as [b1 t1].
  destruct (Pairwise.match_buyers _ _ U U trans) as [b2 t2].
  simpl in Eb, L. subst b2.
  do 4 eexists. split; [reflexivity|]. split; [reflexivity|]. simpl.
  split; [reflexivity|]. split; [exact L|]. split; [|split; [congruence|split; assumption]].
  assert (S1 : py_sum (map snd sv1) == 0).
  { apply py_sum_zero. apply Forall_forall. intros x Hx. apply in_map_iff in Hx.
    destruct Hx as [e [<- He]]. rewrite Forall_forall in Z1. now apply Z1. }
  assert (S2 : py_sum (map snd sv2) == 0).
  { apply py_sum_zero. apply Forall_forall. intros x Hx. apply in_map_iff in Hx.
    destruct Hx as [e [<- He]]. rewrite Forall_forall in Z2. now apply Z2. }
  rewrite S1, S2. unfold Qdiv. ring.
Qed.

Lemma same_values_zero (sv sv' : CGTS.Shapley) :
  map fst sv = map fst sv' ->
  Forall (fun e => snd e == 0) sv -> Forall (fun e => snd e == 0) sv' ->
  same_values sv sv'.
Proof.
  revert sv'. induction sv as [|e sv IH]; intros [|e' sv'] K Z Z'; try discriminate.
  - constructor.
  - simpl in K. inversion K as [[K1 K2]].
    inversion Z as [|? ? Ze Zr]; subst. inversion Z' as [|? ? Ze' Zr']; subst.
    constructor; [|now apply IH]. split; [exact K1|]. rewrite Ze, Ze'. reflexivity.
Qed.

(** C7 (the seed clause fails).  The mechanism has no seed argument: a
    [seed] keyword stays unread in [**kwargs] and the orderings are drawn
    with [random.shuffle] from the process-wide generator.  Two rounds on
    the same bids, with the same sample count and the same seed keyword,
    draw different orderings when that generator is in different states:
    the keyword is no seed for the random ordering. *)
Lemma seed_keyword_does_not_fix_the_orderings :
  round_orderings nbs_bids (with_seed default_kwargs 42) [0%nat]
  <> round_orderings nbs_bids (with_seed default_kwargs 42) [2%nat].
Proof. vm_compute. discriminate. Qed.

(** C7 (amended).  Any two rounds of CGTS on the same bid set (with unique
    identifiers), with the same sample count and bounds, return, and they
    return the same transactions, the same Shapley values and the same
    reported prices and quantities, whatever [seed] keyword each round was
    given and whatever the state of the generator each started from.  The
    orderings differ from round to round but do not reach the result:
    [calculate_welfare] subtracts two price columns that share no label,
    so every coalition is worth 0 and so is every sampled Shapley value. *)
Theorem monte_carlo_shapley_is_reproducible :
  forall (bids : DataFrame) (kwargs : Kwargs) (seed1 seed2 : Z) (g1 g2 : CGTS.Generator),
    NoDup (index bids) ->
    exists r1 r2,
      CGTS.two_steps_CGTS_mechanism bids (with_seed kwargs seed1) g1 = Returns r1 /\
      CGTS.two_steps_CGTS_mechanism bids (with_seed kwargs seed2) g2 = Returns r2 /\
      same_ledger (CGTS.ledger r1) (CGTS.ledger r2) /\
      same_values (CGTS.shapley r1) (CGTS.shapley r2) /\
      same_extra (CGTS.extra r1) (CGTS.extra r2).
Proof.
  intros bids kwargs seed1 seed2 g1 g2 N.
  unfold CGTS.two_steps_CGTS_mechanism. simpl cap. simpl floor. simpl num_samples.
  destruct (residual_guard (primary_phase bids)).
  - destruct (cgts_allocations_agree (bids_uncovered0 (primary_phase bids))
                (trans0 (primary_phase bids)) (cap kwargs) (floor kwargs)
                (num_samples kwargs) g1 g2 (bids_uncovered0_one_side bids N))
      as [A1 [g1' [A2 [g2' [E1 [E2 [Eb [L [Ep [K [Z1 Z2]]]]]]]]]]].
    rewrite E1, E2. do 2 eexists. split; [reflexivity|]. split; [reflexivity|]. simpl.
    split; [exact L|]. split; [now apply same_values_zero|].
    unfold same_extra, make_extra. simpl. rewrite Eb. repeat split; try reflexivity. exact Ep.
  - do 2 eexists. split; [reflexivity|]. split; [reflexivity|]. simpl.
    split; [apply same_ledger_refl|]. split; [constructor|].
    unfold same_extra, make_extra. simpl. repeat split; try reflexivity.
    destruct (UPprice (primary_phase bids)); simpl; [reflexivity|exact I].
Qed.

Lemma monte_carlo_shapley_is_reproducible_witness :
  exists r1 r2,
    CGTS.two_steps_CGTS_mechanism nbs_bids (with_seed default_kwargs 42) [0%nat] = Returns r1 /\
    CGTS.two_steps_CGTS_mechanism nbs_bids (with_seed default_kwargs 42) [2%nat] = Returns r2 /\
    same_ledger (CGTS.ledger r1) (CGTS.ledger r2) /\
    same_values (CGTS.shapley r1) (CGTS.shapley r2) /\
    same_extra (CGTS.extra r1) (CGTS.extra r2).
Proof.
  apply (monte_carlo_shapley_is_reproducible nbs_bids default_kwargs 42 42 [0%nat] [2%nat]).
  repeat constructor; simpl; intuition discriminate.
Defined.

(** * Further properties *)

(** ** Entries of the primary ledger *)

Lemma insert_asc_perm (x : label * Row) (l : DataFrame) : Permutation (insert_asc x l) (x :: l).
Proof.
  induction l as [|y l IH]; simpl; [apply Permutation_refl|].
  destruct (Qle_bool _ _); [apply Permutation_refl|].
  eapply Permutation_trans; [apply perm_skip, IH|apply perm_swap].
Qed.

Lemma insert_desc_perm (x : label * Row) (l : DataFrame) : Permutation (insert_desc x l) (x :: l).
Proof.
  induction l as [|y l IH]; simpl; [apply Permutation_refl|].
  destruct (Qle_bool _ _); [apply Permutation_refl|].
  eapply Permutation_trans; [apply perm_skip, IH|apply perm_swap].
Qed.

Lemma sort_values_asc_perm (df : DataFrame) : Permutation (sort_values_asc df) df.
Proof.
  induction df as [|x df IH]; simpl; [apply Permutation_refl|].
  eapply Permutation_trans; [apply insert_asc_perm|now apply perm_skip].
Qed.

Lemma sort_values_desc_perm (df : DataFrame) : Permutation (sort_values_desc df) df.
Proof.
  induction df as [|x df IH]; simpl; [apply Permutation_refl|].
  eapply Permutation_trans; [apply insert_desc_perm|now apply perm_skip].
Qed.

Lemma NoDup_index_asc (df : DataFrame) : NoDup (index df) -> NoDup (index (sort_values_asc df)).
Proof.
  intro N. eapply Permutation_NoDup; [|exact N].
  apply Permutation_map, Permutation_sym, sort_values_asc_perm.
Qed.

Lemma NoDup_index_desc (df : DataFrame) : NoDup (index df) -> NoDup (index (sort_values_desc df)).
Proof.
  intro N. eapply Permutation_NoDup; [|exact N].
  apply Permutation_map, Permutation_sym, sort_values_desc_perm.
Qed.

(** What one execution loop records: each row at most once, a positive
    quantity that neither exceeds the row's nor what was left to hand out. *)
Lemma execute_trades_entries (cp : Q) (rows : DataFrame) :
  NoDup (index rows) ->
  forall q,
    NoDup (map bid (UP.execute_trades rows q cp [])) /\
    Forall (fun t => exists row, In (bid t, row) rows /\
                       0 < t_quantity t /\ t_quantity t <= quantity row /\ t_price t = cp)
           (UP.execute_trades rows q cp []).
Proof.
  induction rows as [|[i row] rest IH]; intros N q; simpl.
  - split; constructor.
  - simpl in N. inversion N as [|? ? Hn N']; subst.
    assert (W : forall l,
              Forall (fun t => exists row0, In (bid t, row0) rest /\
                         0 < t_quantity t /\ t_quantity t <= quantity row0 /\ t_price t = cp) l ->
              Forall (fun t => exists row0, ((i, row) = (bid t, row0) \/ In (bid t, row0) rest) /\
                         0 < t_quantity t /\ t_quantity t <= quantity row0 /\ t_price t = cp) l).
    { intros l Hl. eapply Forall_impl; [|exact Hl]. simpl.
      intros t [row0 [H1 H2]]. exists row0. tauto. }
    destruct (Qle_bool (py_min (quantity row) q) 0) eqn:E0.
    + destruct (IH N' q) as [A B]. split; [exact A|now apply W].
    + apply Qle_bool_false in E0.
      assert (F : exists row0, ((i, row) = (i, row0) \/ In (i, row0) rest) /\
                    0 < py_min (quantity row) q /\ py_min (quantity row) q <= quantity row0 /\
                    cp = cp).
      { exists row. split; [now left|]. split; [exact E0|]. split; [apply py_min_le_l|reflexivity]. }
      destruct (Qle_bool (q - py_min (quantity row) q) 0).
      * split; [repeat constructor; simpl; tauto|]. constructor; [exact F|constructor].
      * rewrite execute_trades_app.
        destruct (IH N' (q - py_min (quantity row) q)) as [A B]. split.
        -- simpl. constructor; [|exact A].
           intro Hin. apply in_map_iff in Hin. destruct Hin as [t [Et Ht]].
           rewrite Forall_forall in B. destruct (B t Ht) as [row0 [Hr _]].
           apply Hn. apply index_In. exists row0. now rewrite <- Et.
        -- constructor; [exact F|now apply W].
Qed.

Lemma NoDup_app_disjoint (A : Type) (l l' : list A) :
  NoDup l -> NoDup l' -> (forall x, In x l -> ~ In x l') -> NoDup (l ++ l').
Proof.
  induction l as [|x l IH]; intros N N' D; simpl; [exact N'|].
  inversion N as [|? ? Hn N1]; subst. constructor.
  - intro H. apply in_app_iff in H. destruct H as [H|H]; [contradiction|].
    apply (D x); [now left|exact H].
  - apply IH; try assumption. intros y Hy. apply D. now right.
Qed.

Lemma primary_ledger_entries_aux :
  forall (bids : DataFrame) (q p : Q),
    NoDup (index bids) ->
    UP.find_clearing_price_and_quantity bids = (Some q, Some p) ->
    NoDup (map bid (fst (UP.uniform_price_mechanism bids))) /\
    Forall (fun t => exists row, In (bid t, row) bids /\
                       0 < t_quantity t /\ t_quantity t <= quantity row /\
                       t_price t = p /\ acceptable p row)
           (fst (UP.uniform_price_mechanism bids)).
Proof.
  intros bids q p N H.
  unfold UP.uniform_price_mechanism. rewrite H. simpl fst.
  set (buyers := UP.willing_buyers bids p).
  set (sellers := UP.willing_sellers bids p).
  set (tq := py_min (quantity_sum buyers) (quantity_sum sellers)).
  rewrite execute_trades_app.
  assert (Ns : NoDup (index sellers)).
  { apply NoDup_index_asc, NoDup_index_filter, N. }
  assert (Nb : NoDup (index buyers)).
  { apply NoDup_index_desc, NoDup_index_filter, N. }
  destruct (execute_trades_entries p sellers Ns tq) as [As Bs].
  destruct (execute_trades_entries p buyers Nb tq) as [Ab Bb].
  split.
  - rewrite map_app. apply NoDup_app_disjoint; try assumption.
    intros x Hs Hb.
    apply in_map_iff in Hs. destruct Hs as [ts [<- Hts]].
    apply in_map_iff in Hb. destruct Hb as [tb [Eb Htb]].
    rewrite Forall_forall in Bs, Bb.
    destruct (Bs ts Hts) as [rs [Hrs _]]. destruct (Bb tb Htb) as [rb [Hrb _]].
    apply (sides_disjoint bids N (bid ts)).
    + apply (willing_buyers_index bids p). apply index_In. exists rb. now rewrite <- Eb.
    + apply (willing_sellers_index bids p). apply index_In. now exists rs.
  - apply Forall_app. split.
    + eapply Forall_impl; [|exact Bs]. simpl.
      intros t [row [Hr [H1 [H2 H3]]]]. exists row.
      unfold sellers, UP.willing_sellers in Hr.
      apply (proj1 (sort_values_asc_In _ _)) in Hr. apply filter_In in Hr.
      destruct Hr as [Hr Hf]. simpl in Hf. apply andb_true_iff in Hf. destruct Hf as [Hf1 Hf2].
      repeat split; try assumption. unfold acceptable.
      apply negb_true_iff in Hf1. rewrite Hf1. now apply Qle_bool_iff.
    + eapply Forall_impl; [|exact Bb]. simpl.
      intros t [row [Hr [H1 [H2 H3]]]]. exists row.
      unfold buyers, UP.willing_buyers in Hr.
      apply (proj1 (sort_values_desc_In _ _)) in Hr. apply filter_In in Hr.
      destruct Hr as [Hr Hf]. simpl in Hf. apply andb_true_iff in Hf. destruct Hf as [Hf1 Hf2].
      repeat split; try assumption. unfold acceptable.
      rewrite Hf1. now apply Qle_bool_iff.
Qed.

(** X1.  In the primary ledger of a bid set with unique identifiers every
    bid is recorded at most once, with a positive quantity that does not
    exceed the bid's own, at the clearing price, and only bids that accept
    that price are recorded. *)
Theorem primary_ledger_entries :
  forall (bids : DataFrame) (q p : Q),
    NoDup (index bids) ->
    UP.find_clearing_price_and_quantity bids = (Some q, Some p) ->
    NoDup (map bid (fst (UP.uniform_price_mechanism bids))) /\
    Forall (fun t => exists row, In (bid t, row) bids /\
                       0 < t_quantity t /\ t_quantity t <= quantity row /\
                       t_price t = p /\ acceptable p row)
           (fst (UP.uniform_price_mechanism bids)).
Proof. exact primary_ledger_entries_aux. Qed.

Lemma NoDup_ex_bids : NoDup (index ex_bids).
Proof. repeat constructor; simpl; intuition discriminate. Qed.

Lemma primary_ledger_entries_witness :
  NoDup (map bid (fst (UP.uniform_price_mechanism ex_bids))) /\
  Forall (fun t => exists row, In (bid t, row) ex_bids /\
                     0 < t_quantity t /\ t_quantity t <= quantity row /\
                     t_price t = 25 # 100 /\ acceptable (25 # 100) row)
         (fst (UP.uniform_price_mechanism ex_bids)).
Proof.
  apply (primary_ledger_entries ex_bids 10 (25 # 100)).
  - exact NoDup_ex_bids.
  - vm_compute. reflexivity.
Defined.

(** ** What the primary phase leaves on each bid *)

Lemma at_quantity_In (df : DataFrame) (i : label) (r : Row) :
  NoDup (index df) -> In (i, r) df -> Pairwise.at_quantity df i = quantity r.
Proof.
  intros N H. unfold Pairwise.at_quantity.
  destruct (find (fun r0 => Z.eqb (fst r0) i) df) as [[j r']|] eqn:E.
  - apply find_some in E. destruct E as [Hin Ej]. simpl in Ej. apply Z.eqb_eq in Ej. subst j.
    simpl. now rewrite (unique_labels df N i r r' H Hin).
  - exfalso. pose proof (find_none _ _ E (i, r) H) as Hn. simpl in Hn.
    rewrite Z.eqb_refl in Hn. discriminate.
Qed.

Lemma at_quantity_absent (df : DataFrame) (i : label) :
  ~ In i (index df) -> Pairwise.at_quantity df i = 0.
Proof.
  intro H. unfold Pairwise.at_quantity. rewrite find_none_all; [reflexivity|].
  intros [j r] Hr. simpl. apply Z.eqb_neq. intro E. subst j.
  apply H. apply index_In. now exists r.
Qed.

Lemma at_quantity_sub (df : DataFrame) (i j : label) (q : Q) :
  In j (index df) ->
  Pairwise.at_quantity (sub_quantity df j q) i
  == if Z.eqb i j then Pairwise.at_quantity df i - q else Pairwise.at_quantity df i.
Proof.
  unfold Pairwise.at_quantity. induction df as [|[k r] df IH]; intro H; [destruct H|].
  simpl. destruct (Z.eqb_spec k j) as [Ekj|Ekj]; simpl.
  - subst k. destruct (Z.eqb_spec j i) as [Eji|Eji]; simpl.
    + subst j. rewrite Z.eqb_refl. reflexivity.
    + destruct (Z.eqb_spec i j) as [E|E]; [congruence|].
      destruct (in_dec Z.eq_dec j (index df)) as [Hin|Hout].
      * rewrite IH by exact Hin. destruct (Z.eqb_spec i j); [congruence|reflexivity].
      * fold (sub_quantity df j q). rewrite sub_quantity_absent by exact Hout. reflexivity.
  - destruct H as [H|H]; [simpl in H; congruence|].
    destruct (Z.eqb_spec k i) as [Eki|Eki]; simpl.
    + subst k. destruct (Z.eqb_spec i j); [congruence|reflexivity].
    + now apply IH.
Qed.

Lemma filter_all_false (A : Type) (f : A -> bool) (l : list A) :
  (forall x, In x l -> f x = false) -> filter f l = [].
Proof.
  induction l as [|x l IH]; intro H; simpl; [reflexivity|].
  rewrite (H x (or_introl eq_refl)). apply IH. intros y Hy. apply H. now right.
Qed.

Lemma traded_against_cons (i : label) (t : Transaction) (l : TransactionManager) :
  traded_against i (t :: l)
  = if Z.eqb (bid t) i then t_quantity t + traded_against i l else traded_against i l.
Proof. unfold traded_against. simpl. now destruct (Z.eqb (bid t) i). Qed.

Lemma traded_against_app (i : label) (a b : TransactionManager) :
  traded_against i (a ++ b) == traded_against i a + traded_against i b.
Proof. unfold traded_against. rewrite filter_app, map_app. apply Qsum_app. Qed.

(** Every transaction against a label of the frame comes off that
    label's quantity. *)
Lemma at_quantity_update (trans_UP : TransactionManager) :
  forall df i, In i (index df) ->
    Pairwise.at_quantity (update_remaining df trans_UP) i
    == Pairwise.at_quantity df i - traded_against i trans_UP.
Proof.
  unfold update_remaining.
  induction trans_UP as [|t l IH]; intros df i Hi; simpl.
  - unfold traded_against. simpl. lra.
  - rewrite traded_against_cons.
    destruct (existsb (Z.eqb (bid t)) (index df)) eqn:E.
    + apply existsb_label in E.
      rewrite IH by (now rewrite index_sub_quantity).
      rewrite (at_quantity_sub df i (bid t) (t_quantity t) E).
      rewrite (Z.eqb_sym i (bid t)). destruct (Z.eqb (bid t) i); lra.
    + rewrite IH by exact Hi.
      destruct (Z.eqb_spec (bid t) i) as [Eb|Eb]; [|lra].
      exfalso. subst i. apply existsb_label in Hi. congruence.
Qed.

Lemma traded_against_bounds (i : label) (c : Q) (trans : TransactionManager) :
  0 <= c -> NoDup (map bid trans) ->
  (forall t, In t trans -> bid t = i -> 0 < t_quantity t /\ t_quantity t <= c) ->
  0 <= traded_against i trans /\ traded_against i trans <= c.
Proof.
  intros Hc N H. induction trans as [|t l IH].
  - unfold traded_against. simpl. lra.
  - simpl in N. inversion N as [|? ? Hn N']; subst.
    rewrite traded_against_cons. destruct (Z.eqb_spec (bid t) i) as [E|E].
    + assert (Z : traded_against i l = 0).
      { unfold traded_against. rewrite filter_all_false; [reflexivity|].
        intros t' Ht'. apply Z.eqb_neq. intro E'. apply Hn.
        apply in_map_iff. exists t'. split; [congruence|exact Ht']. }
      rewrite Z. destruct (H t (or_introl eq_refl) E). lra.
    + apply IH; [exact N'|]. intros t' Ht'. apply H. now right.
Qed.

Lemma remaining_after_primary_aux :
  forall (bids : DataFrame) (i : label) (row : Row),
    NoDup (index bids) -> In (i, row) bids ->
    let remaining := Pairwise.at_quantity (after_primary bids) i in
    let traded := traded_against i (fst (UP.uniform_price_mechanism bids)) in
    remaining == quantity row - traded /\
    remaining <= quantity row /\
    (0 <= quantity row -> 0 <= remaining).
Proof.
  intros bids i row N Hin remaining traded. subst remaining traded. unfold after_primary.
  assert (Hi : In i (index bids)) by (apply index_In; now exists row).
  pose proof (at_quantity_update (fst (UP.uniform_price_mechanism bids)) bids i Hi) as E.
  rewrite (at_quantity_In bids i row N Hin) in E.
  assert (B : 0 <= traded_against i (fst (UP.uniform_price_mechanism bids)) /\
              (0 <= quantity row ->
               traded_against i (fst (UP.uniform_price_mechanism bids)) <= quantity row)).
  { destruct (UP.find_clearing_price_and_quantity bids) as [[q|] [p|]] eqn:F.
    2-4: unfold UP.uniform_price_mechanism; rewrite F; unfold traded_against; simpl;
         split; [lra|tauto].
    destruct (primary_ledger_entries_aux bids q p N F) as [Nd Fa].
    rewrite Forall_forall in Fa.
    destruct (Qlt_le_dec (quantity row) 0) as [Hneg|Hpos].
    - assert (Z : traded_against i (fst (UP.uniform_price_mechanism bids)) = 0).
      { unfold traded_against. rewrite filter_all_false; [reflexivity|].
        intros t Ht. apply Z.eqb_neq. intro Eb.
        destruct (Fa t Ht) as [row0 [Hr [H1 [H2 _]]]]. rewrite Eb in Hr.
        rewrite (unique_labels bids N i row0 row Hr Hin) in H2. lra. }
      rewrite Z. split; [lra|intro; lra].
    - destruct (traded_against_bounds i (quantity row) _ Hpos Nd) as [B1 B2].
      + intros t Ht Eb. destruct (Fa t Ht) as [row0 [Hr [H1 [H2 _]]]]. rewrite Eb in Hr.
        rewrite (unique_labels bids N i row0 row Hr Hin) in H2. tauto.
      + split; [exact B1|intro; exact B2]. }
  destruct B as [B1 B2]. split; [exact E|]. split; [lra|]. intro Hq. specialize (B2 Hq). lra.
Qed.

(** X2.  After "Update remaining quantities" every bid of a bid set with
    unique identifiers holds its original quantity minus what the primary
    ledger records against it; that remainder never exceeds the original
    quantity and, for a bid of non-negative quantity, is never negative. *)
Theorem remaining_after_primary :
  forall (bids : DataFrame) (i : label) (row : Row),
    NoDup (index bids) -> In (i, row) bids ->
    let remaining := Pairwise.at_quantity (after_primary bids) i in
    let traded := traded_against i (fst (UP.uniform_price_mechanism bids)) in
    remaining == quantity row - traded /\
    remaining <= quantity row /\
    (0 <= quantity row -> 0 <= remaining).
Proof. exact remaining_after_primary_aux. Qed.

Lemma remaining_after_primary_witness :
  Pairwise.at_quantity (after_primary ex_bids) 4%Z
    == quantity (mkRow 10 (25 # 100) false)
       - traded_against 4%Z (fst (UP.uniform_price_mechanism ex_bids)) /\
  Pairwise.at_quantity (after_primary ex_bids) 4%Z <= quantity (mkRow 10 (25 # 100) false) /\
  (0 <= quantity (mkRow 10 (25 # 100) false) ->
   0 <= Pairwise.at_quantity (after_primary ex_bids) 4%Z).
Proof.
  apply (remaining_after_primary ex_bids 4%Z (mkRow 10 (25 # 100) false)).
  - exact NoDup_ex_bids.
  - simpl. tauto.
Defined.

(** ** Aggregates after the primary phase *)

Section SideFilter.

(** A selection that looks at the label and the side of a row only. *)
Variable f : label * Row -> bool.
Hypothesis f_side : forall i q q' p b, f (i, mkRow q p b) = f (i, mkRow q' p b).

Lemma filter_sub_quantity (df : DataFrame) (j : label) (q : Q) :
  filter f (sub_quantity df j q) = sub_quantity (filter f df) j q.
Proof.
  induction df as [|[k [qk pk bk]] df IH]; simpl; [reflexivity|].
  unfold label in *.
  destruct (Z.eqb k j) eqn:E; simpl.
  - rewrite (f_side k (qk - q) qk pk bk).
    destruct (f (k, mkRow qk pk bk)); simpl; [rewrite E; simpl; now rewrite IH|exact IH].
  - destruct (f (k, mkRow qk pk bk)); simpl; [rewrite E; now rewrite IH|exact IH].
Qed.

Lemma traded_on_cons (df : DataFrame) (t : Transaction) (l : TransactionManager) :
  traded_on df (t :: l)
  = if existsb (Z.eqb (bid t)) (index df) then t_quantity t + traded_on df l
    else traded_on df l.
Proof. unfold traded_on. simpl. now destruct (existsb _ _). Qed.

Lemma traded_on_index (a b : DataFrame) (l : TransactionManager) :
  index a = index b -> traded_on a l = traded_on b l.
Proof. intro E. unfold traded_on. now rewrite E. Qed.

Lemma side_sum_after_update (trans_UP : TransactionManager) :
  forall df, NoDup (index df) ->
    quantity_sum (filter f (update_remaining df trans_UP))
    == quantity_sum (filter f df) - traded_on (filter f df) trans_UP.
Proof.
  unfold update_remaining.
  induction trans_UP as [|t l IH]; intros df N; simpl.
  - unfold traded_on. simpl. lra.
  - rewrite traded_on_cons.
    destruct (existsb (Z.eqb (bid t)) (index df)) eqn:E.
    + rewrite IH by (now rewrite index_sub_quantity).
      rewrite filter_sub_quantity.
      rewrite (traded_on_index (sub_quantity (filter f df) (bid t) (t_quantity t)) (filter f df))
        by apply index_sub_quantity.
      destruct (existsb (Z.eqb (bid t)) (index (filter f df))) eqn:E'.
      * apply existsb_label in E'.
        rewrite quantity_sum_sub; [lra|now apply NoDup_index_filter|exact E'].
      * rewrite sub_quantity_absent; [lra|].
        intro H. apply existsb_label in H. congruence.
    + rewrite IH by exact N.
      destruct (existsb (Z.eqb (bid t)) (index (filter f df))) eqn:E'; [|lra].
      exfalso. apply existsb_label in E'. apply index_In in E'. destruct E' as [row Hr].
      apply filter_In in Hr. destruct Hr as [Hr _].
      assert (Hi : In (bid t) (index df)) by (apply index_In; now exists row).
      apply existsb_label in Hi. congruence.
Qed.

End SideFilter.

(** Each side of the primary ledger sums to the clearing quantity. *)
Lemma primary_sides_sum (bids : DataFrame) (q p : Q) :
  NoDup (index bids) ->
  UP.find_clearing_price_and_quantity bids = (Some q, Some p) ->
  traded_on (selling_rows bids) (fst (UP.uniform_price_mechanism bids)) == q /\
  traded_on (buying_rows bids) (fst (UP.uniform_price_mechanism bids)) == q.
Proof.
  intros N H.
  destruct (find_clearing_some bids q p H) as [Eq Hpos].
  unfold UP.uniform_price_mechanism. rewrite H. simpl fst.
  set (buyers := UP.willing_buyers bids p).
  set (sellers := UP.willing_sellers bids p).
  set (tq := py_min (quantity_sum buyers) (quantity_sum sellers)).
  assert (Etq : tq == q).
  { rewrite Eq. unfold tq, UP.traded_qty.
    apply py_min_compat; [apply willing_buyers_sum|apply willing_sellers_sum]. }
  rewrite execute_trades_app.
  assert (Ss : ledger_quantity (UP.execute_trades sellers tq p []) == q).
  { rewrite execute_trades_sum; [exact Etq|lra|apply py_min_le_r]. }
  assert (Sb : ledger_quantity (UP.execute_trades buyers tq p []) == q).
  { rewrite execute_trades_sum; [exact Etq|lra|apply py_min_le_l]. }
  assert (Is : Forall (fun t => In (bid t) (index (selling_rows bids)))
                      (UP.execute_trades sellers tq p [])).
  { eapply Forall_impl; [|apply execute_trades_rows].
    intros t [Ht _]. now apply willing_sellers_index in Ht. }
  assert (Ib : Forall (fun t => In (bid t) (index (buying_rows bids)))
                      (UP.execute_trades buyers tq p [])).
  { eapply Forall_impl; [|apply execute_trades_rows].
    intros t [Ht _]. now apply willing_buyers_index in Ht. }
  split.
  - rewrite traded_on_app, (traded_on_all _ _ Is), traded_on_none; [lra|].
    eapply Forall_impl; [|exact Ib]. intros t Ht Hc. exact (sides_disjoint bids N _ Ht Hc).
  - rewrite traded_on_app, (traded_on_all _ _ Ib), traded_on_none; [lra|].
    eapply Forall_impl; [|exact Is]. intros t Ht Hc. exact (sides_disjoint bids N _ Hc Ht).
Qed.

(** X3.  With a primary clearing of quantity [q] on a bid set with unique
    identifiers, the aggregates the guard of the residual phase tests are
    the aggregate buy and sell quantities of the round, each reduced by
    [q]. *)
Theorem primary_phase_aggregates :
  forall (bids : DataFrame) (q p : Q),
    NoDup (index bids) ->
    UP.find_clearing_price_and_quantity bids = (Some q, Some p) ->
    demanded_quantity (primary_phase bids) == quantity_sum (buying_rows bids) - q /\
    unsold_quantity (primary_phase bids) == quantity_sum (selling_rows bids) - q.
Proof.
  intros bids q p N H.
  destruct (primary_sides_sum bids q p N H) as [Ts Tb].
  unfold primary_phase.
  destruct (UP.uniform_price_mechanism bids) as [t res] eqn:E. simpl in *.
  split.
  - unfold buying_rows at 1. rewrite side_sum_after_update; [|now intros|exact N].
    fold (buying_rows bids). lra.
  - unfold selling_rows at 1. rewrite side_sum_after_update; [|now intros|exact N].
    fold (selling_rows bids). lra.
Qed.

Lemma primary_phase_aggregates_witness :
  demanded_quantity (primary_phase ex_bids) == quantity_sum (buying_rows ex_bids) - 10 /\
  unsold_quantity (primary_phase ex_bids) == quantity_sum (selling_rows ex_bids) - 10.
Proof.
  apply (primary_phase_aggregates ex_bids 10 (25 # 100)).
  - exact NoDup_ex_bids.
  - vm_compute. reflexivity.
Defined.

(** ** No bid is over-served by the mechanisms that share the allocation loops *)

Lemma bids_uncovered0_eq (bids : DataFrame) :
  bids_uncovered0 (primary_phase bids) = uncovered (after_primary bids).
Proof.
  unfold primary_phase, after_primary.
  now destruct (UP.uniform_price_mechanism bids) as [t res].
Qed.

Lemma NoDup_after_primary (bids : DataFrame) :
  NoDup (index bids) -> NoDup (index (after_primary bids)).
Proof. intro N. unfold after_primary. now rewrite index_update_remaining. Qed.

Lemma traded_against_short (price_of : Row -> Q) (rows : DataFrame) (i : label) :
  NoDup (index rows) ->
  traded_against i (map (short_transaction price_of) rows) == Pairwise.at_quantity rows i.
Proof.
  induction rows as [|[k r] rows IH]; intro N.
  - unfold traded_against, Pairwise.at_quantity. simpl. reflexivity.
  - simpl in N. inversion N as [|? ? Hn N']; subst.
    simpl map. rewrite traded_against_cons. simpl bid. simpl t_quantity.
    unfold Pairwise.at_quantity. simpl find.
    destruct (Z.eqb_spec k i) as [E|E]; simpl.
    + subst k. rewrite (IH N'), (at_quantity_absent rows i Hn). lra.
    + apply (IH N').
Qed.

Lemma short_side_NoDup (b : DataFrame) : NoDup (index b) -> NoDup (index (Common.short_side b)).
Proof.
  intro N. destruct (sides_cases b) as [[_ ->]|[_ ->]].
  - apply NoDup_index_asc, NoDup_index_filter, N.
  - apply NoDup_index_desc, NoDup_index_filter, N.
Qed.

(** Whatever prices the loops use, the ledger they extend never holds
    more against a bid than the bid's quantity. *)
Lemma allocate_within_quantity (bids : DataFrame) (short_price long_price : Row -> Q)
    (i : label) (row : Row) :
  NoDup (index bids) -> In (i, row) bids -> 0 <= quantity row ->
  traded_against i (trans0 (primary_phase bids)) <= quantity row /\
  traded_against i
    (snd (Common.allocate short_price long_price
            (bids_uncovered0 (primary_phase bids)) (trans0 (primary_phase bids))))
  <= quantity row.
Proof.
  intros N Hin Hq.
  destruct (remaining_after_primary_aux bids i row N Hin) as [E [_ Hpos]].
  specialize (Hpos Hq). rewrite primary_ledger.
  split; [lra|].
  rewrite allocate_short_only by apply bids_uncovered0_positive.
  simpl snd. rewrite traded_against_app.
  set (U := bids_uncovered0 (primary_phase bids)).
  assert (NU : NoDup (index U)) by (now apply bids_uncovered0_NoDup).
  rewrite traded_against_short by (now apply short_side_NoDup).
  destruct (in_dec Z.eq_dec i (index (Common.short_side U))) as [Hs|Hs].
  - apply index_In in Hs. destruct Hs as [r' Hr'].
    rewrite (at_quantity_In _ i r' (short_side_NoDup U NU) Hr').
    apply short_side_In in Hr'. unfold U in Hr'. rewrite bids_uncovered0_eq in Hr'.
    apply filter_In in Hr'. destruct Hr' as [Hr' _].
    rewrite <- (at_quantity_In _ i r' (NoDup_after_primary bids N) Hr'). lra.
  - rewrite (at_quantity_absent _ i Hs). lra.
Qed.

Lemma WAM_ledger (bids : DataFrame) (kwargs : Kwargs) :
  residual_guard (primary_phase bids) = true ->
  fst (WAM.two_steps_WAM_mechanism bids kwargs)
  = snd (Common.allocate
           (fun _ => WAM.weighted_price (bids_uncovered0 (primary_phase bids)))
           (fun _ => WAM.weighted_price (bids_uncovered0 (primary_phase bids)))
           (bids_uncovered0 (primary_phase bids)) (trans0 (primary_phase bids))).
Proof.
  intro G. unfold WAM.two_steps_WAM_mechanism, WAM.weighted_average_method.
  rewrite G. now destruct (Common.allocate _ _ _ _).
Qed.

Lemma MMP_ledger (bids : DataFrame) (kwargs : Kwargs) :
  residual_guard (primary_phase bids) = true ->
  fst (MMP.two_steps_MMP_mechanism bids kwargs)
  = snd (Common.allocate
           (fun _ => MMP.marginal_price (bids_uncovered0 (primary_phase bids)))
           (fun _ => MMP.marginal_price (bids_uncovered0 (primary_phase bids)))
           (bids_uncovered0 (primary_phase bids)) (trans0 (primary_phase bids))).
Proof.
  intro G. unfold MMP.two_steps_MMP_mechanism, MMP.modified_marginal_price.
  rewrite G. now destruct (Common.allocate _ _ _ _).
Qed.

Lemma guard_false_ledgers (bids : DataFrame) (kwargs : Kwargs) :
  residual_guard (primary_phase bids) = false ->
  fst (CFRM.two_steps_CFRM_mechanism bids kwargs) = trans0 (primary_phase bids) /\
  fst (APM.two_steps_APM_mechanism bids kwargs) = trans0 (primary_phase bids) /\
  fst (MPAS.two_steps_MPAS_mechanism bids kwargs) = trans0 (primary_phase bids) /\
  fst (WAM.two_steps_WAM_mechanism bids kwargs) = trans0 (primary_phase bids) /\
  fst (MMP.two_steps_MMP_mechanism bids kwargs) = trans0 (primary_phase bids).
Proof.
  intro G.
  unfold CFRM.two_steps_CFRM_mechanism, APM.two_steps_APM_mechanism,
    MPAS.two_steps_MPAS_mechanism, WAM.two_steps_WAM_mechanism, MMP.two_steps_MMP_mechanism.
  rewrite G. repeat split.
Qed.

(** X4.  On a bid set with unique identifiers, the ledger returned by
    CFRM, APM, MPAS, WAM or MMP (primary and residual transactions
    together) never holds more against a bid of non-negative quantity than
    the bid's quantity. *)
Theorem shared_loops_never_over_serve :
  forall (bids : DataFrame) (kwargs : Kwargs) (i : label) (row : Row),
    NoDup (index bids) -> In (i, row) bids -> 0 <= quantity row ->
    traded_against i (fst (CFRM.two_steps_CFRM_mechanism bids kwargs)) <= quantity row /\
    traded_against i (fst (APM.two_steps_APM_mechanism bids kwargs)) <= quantity row /\
    traded_against i (fst (MPAS.two_steps_MPAS_mechanism bids kwargs)) <= quantity row /\
    traded_against i (fst (WAM.two_steps_WAM_mechanism bids kwargs)) <= quantity row /\
    traded_against i (fst (MMP.two_steps_MMP_mechanism bids kwargs)) <= quantity row.
Proof.
  intros bids kwargs i row N Hin Hq.
  destruct (residual_guard (primary_phase bids)) eqn:G.
  - rewrite (CFRM_ledger bids kwargs G), (APM_ledger bids kwargs G),
      (MPAS_ledger bids kwargs G), (WAM_ledger bids kwargs G), (MMP_ledger bids kwargs G).
    repeat split; apply allocate_within_quantity; assumption.
  - destruct (guard_false_ledgers bids kwargs G) as [-> [-> [-> [-> ->]]]].
    repeat split; apply (allocate_within_quantity bids (fun _ => 0) (fun _ => 0)); assumption.
Qed.

Lemma NoDup_gap_bids : NoDup (index gap_bids).
Proof. repeat constructor; simpl; intuition discriminate. Qed.

Lemma shared_loops_never_over_serve_witness :
  traded_against 0%Z (fst (CFRM.two_steps_CFRM_mechanism gap_bids default_kwargs))
    <= quantity (mkRow 4 (40 # 100) true) /\
  traded_against 0%Z (fst (APM.two_steps_APM_mechanism gap_bids default_kwargs))
    <= quantity (mkRow 4 (40 # 100) true) /\
  traded_against 0%Z (fst (MPAS.two_steps_MPAS_mechanism gap_bids default_kwargs))
    <= quantity (mkRow 4 (40 # 100) true) /\
  traded_against 0%Z (fst (WAM.two_steps_WAM_mechanism gap_bids default_kwargs))
    <= quantity (mkRow 4 (40 # 100) true) /\
  traded_against 0%Z (fst (MMP.two_steps_MMP_mechanism gap_bids default_kwargs))
    <= quantity (mkRow 4 (40 # 100) true).
Proof.
  apply (shared_loops_never_over_serve gap_bids default_kwargs 0%Z (mkRow 4 (40 # 100) true)).
  - exact NoDup_gap_bids.
  - simpl. tauto.
  - simpl. discriminate.
Defined.

(** ** The short side is filled *)

Lemma allocate_fills_short_side (bids : DataFrame) (short_price long_price : Row -> Q)
    (i : label) (row : Row) :
  NoDup (index bids) -> In (i, row) bids ->
  In i (index (Common.short_side (bids_uncovered0 (primary_phase bids)))) ->
  traded_against i
    (snd (Common.allocate short_price long_price
            (bids_uncovered0 (primary_phase bids)) (trans0 (primary_phase bids))))
  == quantity row.
Proof.
  intros N Hin Hs.
  destruct (remaining_after_primary_aux bids i row N Hin) as [E _].
  rewrite allocate_short_only by apply bids_uncovered0_positive.
  simpl snd. rewrite traded_against_app, primary_ledger.
  set (U := bids_uncovered0 (primary_phase bids)) in *.
  assert (NU : NoDup (index U)) by (now apply bids_uncovered0_NoDup).
  rewrite traded_against_short by (now apply short_side_NoDup).
  apply index_In in Hs. destruct Hs as [r' Hr'].
  rewrite (at_quantity_In _ i r' (short_side_NoDup U NU) Hr').
  apply short_side_In in Hr'. unfold U in Hr'. rewrite bids_uncovered0_eq in Hr'.
  apply filter_In in Hr'. destruct Hr' as [Hr' _].
  rewrite <- (at_quantity_In _ i r' (NoDup_after_primary bids N) Hr'). lra.
Qed.

(** X5.  When the residual phase of CFRM, APM, MPAS, WAM or MMP runs on a
    bid set with unique identifiers, every bid on the short side of the
    uncovered bids ends the round completely filled: the primary and
    residual transactions against it add up to its quantity. *)
Theorem short_side_is_filled :
  forall (bids : DataFrame) (kwargs : Kwargs) (i : label) (row : Row),
    NoDup (index bids) -> In (i, row) bids ->
    residual_guard (primary_phase bids) = true ->
    In i (index (Common.short_side (bids_uncovered0 (primary_phase bids)))) ->
    traded_against i (fst (CFRM.two_steps_CFRM_mechanism bids kwargs)) == quantity row /\
    traded_against i (fst (APM.two_steps_APM_mechanism bids kwargs)) == quantity row /\
    traded_against i (fst (MPAS.two_steps_MPAS_mechanism bids kwargs)) == quantity row /\
    traded_against i (fst (WAM.two_steps_WAM_mechanism bids kwargs)) == quantity row /\
    traded_against i (fst (MMP.two_steps_MMP_mechanism bids kwargs)) == quantity row.
Proof.
  intros bids kwargs i row N Hin G Hs.
  rewrite (CFRM_ledger bids kwargs G), (APM_ledger bids kwargs G),
    (MPAS_ledger bids kwargs G), (WAM_ledger bids kwargs G), (MMP_ledger bids kwargs G).
  repeat split; apply allocate_fills_short_side; assumption.
Qed.

Lemma short_side_is_filled_witness :
  traded_against 2%Z (fst (CFRM.two_steps_CFRM_mechanism ex_bids default_kwargs))
    == quantity (mkRow 5 (20 # 100) true) /\
  traded_against 2%Z (fst (APM.two_steps_APM_mechanism ex_bids default_kwargs))
    == quantity (mkRow 5 (20 # 100) true) /\
  traded_against 2%Z (fst (MPAS.two_steps_MPAS_mechanism ex_bids default_kwargs))
    == quantity (mkRow 5 (20 # 100) true) /\
  traded_against 2%Z (fst (WAM.two_steps_WAM_mechanism ex_bids default_kwargs))
    == quantity (mkRow 5 (20 # 100) true) /\
  traded_against 2%Z (fst (MMP.two_steps_MMP_mechanism ex_bids default_kwargs))
    == quantity (mkRow 5 (20 # 100) true).
Proof.
  apply (short_side_is_filled ex_bids default_kwargs 2%Z (mkRow 5 (20 # 100) true)).
  - exact NoDup_ex_bids.
  - simpl. tauto.
  - vm_compute. reflexivity.
  - vm_compute. tauto.
Defined.

(** ** Where the price-adjustment loop can stop *)

Lemma price_loop_result (lo hi theta epsilon pmax pmin : Q) :
  lo <= hi ->
  forall fuel a p,
    IPA.price_loop fuel lo hi theta epsilon pmax pmin a = Some p ->
    Qabs (IPA.next_price lo hi theta pmax pmin p - p) < epsilon /\
    (p = a \/ (lo <= p /\ p <= hi)).
Proof.
  intro B. induction fuel as [|n IH]; intros a p H; [discriminate|].
  rewrite price_loop_S in H.
  destruct (Qltb (Qabs (IPA.next_price lo hi theta pmax pmin a - a)) epsilon) eqn:E.
  - injection H as <-. split; [now apply Qltb_true|now left].
  - destruct (IH _ _ H) as [H1 [->|H2]]; split; try assumption; right.
    + unfold IPA.next_price. apply clip_bounds, B.
    + exact H2.
Qed.

Lemma price_loop_near_bounds (lo hi theta epsilon pmax pmin : Q) (fuel : nat) (a p : Q) :
  lo <= hi ->
  IPA.price_loop fuel lo hi theta epsilon pmax pmin a = Some p ->
  lo - epsilon < p /\ p < hi + epsilon /\ (p = a \/ (lo <= p /\ p <= hi)).
Proof.
  intros B H. destruct (price_loop_result lo hi theta epsilon pmax pmin B fuel a p H) as [H1 H2].
  apply Qabs_lt_iff in H1.
  assert (N : lo <= IPA.next_price lo hi theta pmax pmin p <= hi)
    by (unfold IPA.next_price; apply clip_bounds, B).
  repeat split; try lra. exact H2.
Qed.

(** X7.  When IPA returns from a round whose residual phase ran, with
    FIT <= TOU, every residual transaction carries the reported IPA price
    [p], and [p] lies strictly between FIT - epsilon and TOU + epsilon; it
    lies inside [FIT, TOU] unless the loop stopped at its first test and
    [p] is the primary clearing price itself. *)
Theorem ipa_price_near_bounds :
  forall (fuel : nat) (bids : DataFrame) (kwargs : Kwargs)
         (trans : TransactionManager) (extra : Extra),
    FIT kwargs <= TOU kwargs ->
    residual_guard (primary_phase bids) = true ->
    IPA.two_steps_IPA_mechanism fuel bids kwargs = Returns (trans, extra) ->
    exists p,
      residual_price extra = Some p /\
      Forall (fun t => t_price t = p) (residual_transactions bids trans) /\
      FIT kwargs - epsilon kwargs < p /\ p < TOU kwargs + epsilon kwargs /\
      (Some p = UPprice (primary_phase bids) \/ (FIT kwargs <= p /\ p <= TOU kwargs)).
Proof.
  intros fuel bids kwargs trans extra B G H.
  unfold IPA.two_steps_IPA_mechanism in H. rewrite G in H.
  destruct (UPprice (primary_phase bids)) as [MP|]; [|discriminate].
  unfold IPA.iterative_price_adjustment in H.
  destruct (IPA.price_loop fuel (FIT kwargs) (TOU kwargs) (theta kwargs) (epsilon kwargs) _ _ MP)
    as [p|] eqn:L; [|discriminate].
  pose proof (residual_of_allocate bids (fun _ => p) (fun _ => p)) as R.
  destruct (Common.allocate (fun _ => p) (fun _ => p) _ _) as [b t].
  injection H as <- <-. simpl in R.
  destruct (price_loop_near_bounds _ _ _ _ _ _ _ _ _ B L) as [P1 [P2 P3]].
  exists p. split; [reflexivity|]. split.
  - rewrite R. apply Forall_forall. intros tx Htx. apply in_map_iff in Htx.
    now destruct Htx as [r [<- _]].
  - repeat split; try assumption. destruct P3 as [->|P3]; [now left|now right].
Qed.

Lemma ipa_price_near_bounds_witness :
  exists p,
    residual_price
      (snd (returned (IPA.two_steps_IPA_mechanism 3 ex_bids default_kwargs) no_round)) = Some p /\
    Forall (fun t => t_price t = p)
      (residual_transactions ex_bids
         (fst (returned (IPA.two_steps_IPA_mechanism 3 ex_bids default_kwargs) no_round))) /\
    FIT default_kwargs - epsilon default_kwargs < p /\
    p < TOU default_kwargs + epsilon default_kwargs /\
    (Some p = UPprice (primary_phase ex_bids) \/
     (FIT default_kwargs <= p /\ p <= TOU default_kwargs)).
Proof.
  apply (ipa_price_near_bounds 3 ex_bids default_kwargs).
  - discriminate.
  - vm_compute. reflexivity.
  - vm_compute. reflexivity.
Defined.

(** ** Prices of APM, WAM and MMP *)

Lemma weighted_sum_bounds (lo hi : Q) (df : DataFrame) :
  (forall r, In r df -> 0 < quantity (snd r) /\ lo <= price (snd r) <= hi) ->
  lo * quantity_sum df <= Qsum (map (fun r => price (snd r) * quantity (snd r)) df) /\
  Qsum (map (fun r => price (snd r) * quantity (snd r)) df) <= hi * quantity_sum df.
Proof.
  unfold quantity_sum. induction df as [|x df IH]; intro H; simpl; [lra|].
  destruct (H x (or_introl eq_refl)) as [Hq [Hl Hh]].
  destruct IH as [I1 I2]; [intros r Hr; apply H; now right|].
  assert (P1 : 0 <= (price (snd x) - lo) * quantity (snd x)) by (apply Qmult_le_0_compat; lra).
  assert (P2 : 0 <= (hi - price (snd x)) * quantity (snd x)) by (apply Qmult_le_0_compat; lra).
  split; nra.
Qed.

Lemma weighted_price_bounds (lo hi : Q) (U : DataFrame) :
  buying_rows U <> [] ->
  (forall r, In r U -> 0 < quantity (snd r) /\ lo <= price (snd r) <= hi) ->
  lo <= WAM.weighted_price U <= hi.
Proof.
  intros HB H. unfold WAM.weighted_price.
  set (B := sort_values_desc (buying_rows U)).
  set (S := sort_values_asc (selling_rows U)).
  assert (HBr : forall r, In r B -> 0 < quantity (snd r) /\ lo <= price (snd r) <= hi).
  { intros r Hr. apply H. apply (proj1 (sort_values_desc_In _ _)) in Hr. now apply filter_In in Hr. }
  assert (HSr : forall r, In r S -> 0 < quantity (snd r) /\ lo <= price (snd r) <= hi).
  { intros r Hr. apply H. apply (proj1 (sort_values_asc_In _ _)) in Hr. now apply filter_In in Hr. }
  destruct (weighted_sum_bounds lo hi B HBr) as [B1 B2].
  destruct (weighted_sum_bounds lo hi S HSr) as [S1 S2].
  assert (QS : 0 <= quantity_sum S).
  { apply quantity_sum_nonneg. intros r Hr. now apply HSr. }
  assert (QB : 0 < quantity_sum B).
  { unfold B. rewrite sort_values_desc_sum.
    destruct (buying_rows U) as [|x l] eqn:E; [congruence|].
    assert (Hx : 0 < quantity (snd x)).
    { apply H. assert (I : In x (buying_rows U)) by (rewrite E; now left).
      now apply filter_In in I. }
    assert (Hl : 0 <= quantity_sum l).
    { apply quantity_sum_nonneg. intros r Hr. apply H.
      assert (I : In r (buying_rows U)) by (rewrite E; now right). now apply filter_In in I. }
    unfold quantity_sum in *. simpl. lra. }
  split.
  - apply Qle_shift_div_l; lra.
  - apply Qle_shift_div_r; lra.
Qed.

Lemma marginal_price_bounds (lo hi : Q) (U : DataFrame) :
  buying_rows U <> [] -> selling_rows U <> [] ->
  (forall r, In r U -> lo <= price (snd r) <= hi) ->
  lo <= MMP.marginal_price U <= hi.
Proof.
  intros HB HS H. unfold MMP.marginal_price.
  assert (Hb : lo <= price_max (prices (sort_values_desc (buying_rows U))) <= hi).
  { assert (I : In (price_max (prices (sort_values_desc (buying_rows U))))
                   (prices (sort_values_desc (buying_rows U)))).
    { apply price_max_In. intro E. apply map_eq_nil in E. revert E. now apply sorted_nonempty_desc. }
    apply prices_In in I. destruct I as [r [Hr <-]]. apply H.
    apply (proj1 (sort_values_desc_In _ _)) in Hr. now apply filter_In in Hr. }
  assert (Hs : lo <= price_min (prices (sort_values_asc (selling_rows U))) <= hi).
  { assert (I : In (price_min (prices (sort_values_asc (selling_rows U))))
                   (prices (sort_values_asc (selling_rows U)))).
    { apply price_min_In. intro E. apply map_eq_nil in E. revert E. now apply sorted_nonempty_asc. }
    apply prices_In in I. destruct I as [r [Hr <-]]. apply H.
    apply (proj1 (sort_values_asc_In _ _)) in Hr. now apply filter_In in Hr. }
  rewrite Qdiv2. lra.
Qed.

Lemma long_side_In (b : DataFrame) (r : label * Row) :
  In r (Common.long_side b) -> In r b.
Proof.
  destruct (sides_cases b) as [[-> _]|[-> _]]; intro H.
  - apply (proj1 (sort_values_desc_In _ _)) in H. now apply filter_In in H.
  - apply (proj1 (sort_values_asc_In _ _)) in H. now apply filter_In in H.
Qed.

Lemma long_side_nonempty (b : DataFrame) :
  buying_rows b <> [] -> selling_rows b <> [] -> Common.long_side b <> [].
Proof.
  intros HB HS. destruct (sides_cases b) as [[-> _]|[-> _]].
  - now apply sorted_nonempty_desc.
  - now apply sorted_nonempty_asc.
Qed.

(** X8.  When the residual phase of APM, WAM or MMP runs and every
    uncovered bid price lies within [FIT, TOU], every residual transaction
    these mechanisms record is priced within [FIT, TOU], although none of
    them clips. *)
Theorem averaged_prices_stay_within_bid_bounds :
  forall (bids : DataFrame) (kwargs : Kwargs),
    residual_guard (primary_phase bids) = true ->
    (forall r, In r (bids_uncovered0 (primary_phase bids)) ->
               FIT kwargs <= price (snd r) <= TOU kwargs) ->
    Forall (fun t => FIT kwargs <= t_price t <= TOU kwargs)
      (residual_transactions bids (fst (APM.two_steps_APM_mechanism bids kwargs))) /\
    Forall (fun t => FIT kwargs <= t_price t <= TOU kwargs)
      (residual_transactions bids (fst (WAM.two_steps_WAM_mechanism bids kwargs))) /\
    Forall (fun t => FIT kwargs <= t_price t <= TOU kwargs)
      (residual_transactions bids (fst (MMP.two_steps_MMP_mechanism bids kwargs))).
Proof.
  intros bids kwargs G H.
  destruct (guard_sides_nonempty bids G) as [HB HS].
  set (U := bids_uncovered0 (primary_phase bids)) in *.
  split; [|split].
  - rewrite (APM_ledger bids kwargs G), residual_of_allocate. fold U.
    apply Forall_forall. intros t Ht. apply in_map_iff in Ht. destruct Ht as [r [<- Hr]].
    simpl.
    assert (Hp : FIT kwargs <= price (snd r) <= TOU kwargs) by (apply H; now apply short_side_In).
    assert (Hl : FIT kwargs <= APM.iloc0_price (Common.long_side U) <= TOU kwargs).
    { pose proof (long_side_nonempty U HB HS) as Hne.
      pose proof (long_side_In U) as Hin.
      destruct (Common.long_side U) as [|[j x] l]; [congruence|]. simpl.
      apply (H (j, x)). apply Hin. now left. }
    rewrite Qdiv2. lra.
  - rewrite (WAM_ledger bids kwargs G), residual_of_allocate. fold U.
    apply Forall_forall. intros t Ht. apply in_map_iff in Ht. destruct Ht as [r [<- Hr]].
    simpl. apply weighted_price_bounds; [exact HB|].
    intros r0 Hr0. split; [exact (bids_uncovered0_positive bids r0 Hr0)|now apply H].
  - rewrite (MMP_ledger bids kwargs G), residual_of_allocate. fold U.
    apply Forall_forall. intros t Ht. apply in_map_iff in Ht. destruct Ht as [r [<- Hr]].
    simpl. now apply marginal_price_bounds.
Qed.

Lemma averaged_prices_stay_within_bid_bounds_witness :
  Forall (fun t => FIT default_kwargs <= t_price t <= TOU default_kwargs)
    (residual_transactions inside_bids
       (fst (APM.two_steps_APM_mechanism inside_bids default_kwargs))) /\
  Forall (fun t => FIT default_kwargs <= t_price t <= TOU default_kwargs)
    (residual_transactions inside_bids
       (fst (WAM.two_steps_WAM_mechanism inside_bids default_kwargs))) /\
  Forall (fun t => FIT default_kwargs <= t_price t <= TOU default_kwargs)
    (residual_transactions inside_bids
       (fst (MMP.two_steps_MMP_mechanism inside_bids default_kwargs))).
Proof.
  apply (averaged_prices_stay_within_bid_bounds inside_bids default_kwargs).
  - vm_compute. reflexivity.
  - intros r Hr. vm_compute in Hr.
    destruct Hr as [<-|[<-|[]]]; simpl; split; discriminate.
Defined.

(** ** The pairwise loops of NBS, CGT, CGTS and VCG *)

Lemma paired_app (df : DataFrame) (a b : TransactionManager) :
  paired df a -> paired df b -> paired df (a ++ b).
Proof.
  intros Ha Hb. induction Ha as [|x y rest H1 H2 H3 H4 Hr IH]; simpl; [exact Hb|].
  now constructor.
Qed.

Lemma side_index_In (f : label * Row -> bool) (df : DataFrame) (i : label) :
  In i (index (filter f df)) -> In i (index df).
Proof.
  intro H. apply index_In in H. destruct H as [r H]. apply filter_In in H.
  apply index_In. exists r. tauto.
Qed.

Lemma ledger_quantity_two (new : TransactionManager) (a b : Transaction) :
  ledger_quantity (new ++ [a; b]) == ledger_quantity new + t_quantity a + t_quantity b.
Proof. rewrite ledger_quantity_app. unfold ledger_quantity. simpl. lra. Qed.

Lemma traded_against_two (k : label) (new : TransactionManager) (a b : Transaction) :
  traded_against k (new ++ [a; b])
  == traded_against k new
     + (if Z.eqb (bid a) k then t_quantity a else 0)
     + (if Z.eqb (bid b) k then t_quantity b else 0).
Proof.
  rewrite traded_against_app, !traded_against_cons.
  assert (E : traded_against k [] = 0) by reflexivity. rewrite E.
  destruct (Z.eqb (bid a) k), (Z.eqb (bid b) k); lra.
Qed.

Section PairwiseLoops.

Variable U0 : DataFrame.
Hypothesis U0_labels : NoDup (index U0).

Lemma pairwise_step (i j : label) (q pb ps : Q) (U : DataFrame) (new : TransactionManager) :
  In i (index (buying_rows U0)) -> In j (index (selling_rows U0)) ->
  0 <= q -> q <= Pairwise.at_quantity U j ->
  pairwise_invariant U0 U new ->
  pairwise_invariant U0 (sub_quantity (sub_quantity U i q) j q)
    (new ++ [mkTransaction i q pb (-1) false; mkTransaction j q ps (-1) false]).
Proof.
  intros Hi Hj Hq0 Hq [I1 [I2 [I3 [I4 [I5 I6]]]]].
  assert (Hij : i <> j).
  { intro E. subst j. exact (sides_disjoint U0 U0_labels i Hi Hj). }
  assert (HiU : In i (index U)) by (rewrite I1; now apply side_index_In in Hi).
  assert (HjU : In j (index U)) by (rewrite I1; now apply side_index_In in Hj).
  assert (HjU' : In j (index (sub_quantity U i q))) by now rewrite index_sub_quantity.
  assert (A : forall k, Pairwise.at_quantity (sub_quantity (sub_quantity U i q) j q) k
                        == Pairwise.at_quantity U k
                           - (if Z.eqb i k then q else 0) - (if Z.eqb j k then q else 0)).
  { intro k. rewrite (at_quantity_sub _ k j q HjU'), (Z.eqb_sym k j).
    destruct (Z.eqb j k); rewrite (at_quantity_sub _ k i q HiU), (Z.eqb_sym k i);
      destruct (Z.eqb i k); lra. }
  unfold pairwise_invariant. repeat split.
  - now rewrite !index_sub_quantity.
  - unfold selling_rows.
    rewrite !filter_sub_quantity by (intros; reflexivity).
    now rewrite !index_sub_quantity.
  - intros k Hk. rewrite A. specialize (I3 k Hk).
    destruct (Z.eqb_spec i k) as [E|E].
    + exfalso. subst k. exact (sides_disjoint U0 U0_labels i Hi Hk).
    + destruct (Z.eqb_spec j k) as [E'|E']; [subst k|]; lra.
  - intros k Hk. rewrite A, traded_against_two. simpl. specialize (I4 k Hk).
    destruct (Z.eqb i k), (Z.eqb j k); lra.
  - rewrite ledger_quantity_two. simpl.
    rewrite quantity_sum_sub; [|rewrite index_sub_quantity, I1; exact U0_labels|exact HjU'].
    rewrite quantity_sum_sub; [|rewrite I1; exact U0_labels|exact HiU]. lra.
  - apply paired_app; [exact I6|]. constructor; simpl; try assumption; try reflexivity.
    constructor.
Qed.

Lemma match_sellers_invariant (bp sp : label -> label -> Q) (i : label) (row : Row)
    (t0 : TransactionManager) (ms : DataFrame) :
  In i (index (buying_rows U0)) -> 0 <= quantity row ->
  forall U new,
    pairwise_invariant U0 U new ->
    NoDup (index ms) ->
    (forall j s, In (j, s) ms ->
       In j (index (selling_rows U0)) /\ quantity s == Pairwise.at_quantity U j) ->
    exists U' new',
      Pairwise.match_sellers bp sp i row ms U (t0 ++ new) = (U', t0 ++ new') /\
      pairwise_invariant U0 U' new'.
Proof.
  intros Hi Hrow. induction ms as [|[j seller] rest IH]; intros U new Inv N F.
  - exists U, new. split; [reflexivity|exact Inv].
  - simpl. destruct (F j seller (or_introl eq_refl)) as [Hj Eq].
    set (q := py_min (quantity row) (quantity seller)).
    assert (Hq : 0 <= q /\ q <= Pairwise.at_quantity U j).
    { pose proof Inv as [_ [_ [I3 _]]]. specialize (I3 j Hj).
      unfold q. destruct (py_min_spec (quantity row) (quantity seller)) as [[? ->]|[? ->]]; lra. }
    destruct Hq as [Hq0 Hq1].
    pose proof (pairwise_step i j q (bp i j) (sp i j) U new Hi Hj Hq0 Hq1 Inv) as Inv'.
    unfold add_transaction. rewrite <- !app_assoc. simpl app.
    destruct (Qeq_bool _ 0).
    + eexists. eexists. split; [reflexivity|exact Inv'].
    + simpl in N. inversion N as [|? ? Hn N']; subst.
      apply IH; [exact Inv'|exact N'|].
      intros j' s' Hin. destruct (F j' s' (or_intror Hin)) as [Hj' Eq'].
      split; [exact Hj'|].
      assert (Hjj : j <> j').
      { intro E. subst j'. apply Hn. apply index_In. now exists s'. }
      assert (Hij : i <> j').
      { intro E. subst j'. exact (sides_disjoint U0 U0_labels i Hi Hj'). }
      destruct Inv as [I1 _].
      assert (HiU : In i (index U)) by (rewrite I1; now apply side_index_In in Hi).
      assert (HjU : In j (index (sub_quantity U i q))).
      { rewrite index_sub_quantity, I1. now apply side_index_In in Hj. }
      pose proof (at_quantity_sub _ j' j q HjU) as E1.
      pose proof (at_quantity_sub U j' i q HiU) as E2.
      destruct (Z.eqb_spec j' j); [congruence|]. destruct (Z.eqb_spec j' i); [congruence|].
      rewrite E1, E2. exact Eq'.
Qed.

Lemma match_buyers_invariant (bp sp : label -> label -> Q) (t0 : TransactionManager)
    (rows : DataFrame) :
  (forall i row, In (i, row) rows -> In (i, row) U0 /\ 0 <= quantity row) ->
  forall U new,
    pairwise_invariant U0 U new ->
    exists U' new',
      Pairwise.match_buyers bp sp rows U (t0 ++ new) = (U', t0 ++ new') /\
      pairwise_invariant U0 U' new'.
Proof.
  induction rows as [|[i row] rest IH]; intros H U new Inv.
  - exists U, new. split; [reflexivity|exact Inv].
  - simpl. assert (Hrest : forall i row, In (i, row) rest -> In (i, row) U0 /\ 0 <= quantity row).
    { intros i' row' Hin. apply H. now right. }
    destruct (buying row) eqn:B; [|now apply IH].
    destruct (H i row (or_introl eq_refl)) as [Hin Hq].
    assert (Hi : In i (index (buying_rows U0))).
    { apply index_In. exists row. apply filter_In. split; [exact Hin|exact B]. }
    pose proof Inv as [I1 [I2 _]].
    assert (NU : NoDup (index U)) by now rewrite I1.
    destruct (match_sellers_invariant bp sp i row t0 (selling_rows U) Hi Hq U new Inv)
      as [U1 [new1 [E1 Inv1]]].
    + now apply NoDup_index_filter.
    + intros j s Hs. split.
      * rewrite <- I2. apply index_In. now exists s.
      * apply filter_In in Hs. destruct Hs as [Hs _].
        now rewrite (at_quantity_In U j s NU Hs).
    + rewrite E1. now apply IH.
Qed.

End PairwiseLoops.

Lemma pairwise_invariant_start (U : DataFrame) :
  (forall r, In r U -> 0 < quantity (snd r)) -> NoDup (index U) ->
  pairwise_invariant U U [].
Proof.
  intros P N. unfold pairwise_invariant. repeat split; try reflexivity.
  - intros j Hj. apply index_In in Hj. destruct Hj as [r Hr].
    apply filter_In in Hr. destruct Hr as [Hr _].
    rewrite (at_quantity_In U j r N Hr). apply Qlt_le_weak. exact (P (j, r) Hr).
  - intros k _. unfold traded_against. simpl. lra.
  - unfold ledger_quantity. simpl. lra.
  - constructor.
Qed.

(** What a run of the pairwise loops on the uncovered bids leaves. *)
Lemma pairwise_result (bp sp : label -> label -> Q) (bids : DataFrame) :
  NoDup (index bids) ->
  let U := bids_uncovered0 (primary_phase bids) in
  exists U' new,
    Pairwise.match_buyers bp sp U U (trans0 (primary_phase bids))
      = (U', trans0 (primary_phase bids) ++ new) /\
    paired U new /\
    (forall j r, In (j, r) (selling_rows U) -> traded_against j new <= quantity r) /\
    quantity_sum U' == quantity_sum U - ledger_quantity new.
Proof.
  intros N U.
  assert (NU : NoDup (index U)) by now apply bids_uncovered0_NoDup.
  assert (PU : forall r, In r U -> 0 < quantity (snd r)).
  { intros r Hr. exact (bids_uncovered0_positive bids r Hr). }
  destruct (match_buyers_invariant U NU bp sp (trans0 (primary_phase bids)) U) with
    (U := U) (new := @nil Transaction) as [U' [new [E [I1 [I2 [I3 [I4 [I5 I6]]]]]]]].
  - intros i row Hin. split; [exact Hin|]. apply Qlt_le_weak. exact (PU (i, row) Hin).
  - now apply pairwise_invariant_start.
  - rewrite app_nil_r in E. exists U', new. split; [exact E|]. split; [exact I6|].
    split; [|lra].
    intros j r Hr.
    assert (Hj : In j (index (selling_rows U))) by (apply index_In; now exists r).
    specialize (I3 j Hj). specialize (I4 j (side_index_In _ _ _ Hj)).
    apply filter_In in Hr. destruct Hr as [Hr _].
    rewrite (at_quantity_In U j r NU Hr) in I4. lra.
Qed.

Lemma pairwise_round_intro (bids : DataFrame) (new : TransactionManager) (U' : DataFrame)
    (p : option Q) :
  let P := primary_phase bids in
  paired (bids_uncovered0 P) new ->
  (forall j r, In (j, r) (selling_rows (bids_uncovered0 P)) ->
     traded_against j new <= quantity r) ->
  quantity_sum U' == quantity_sum (bids_uncovered0 P) - ledger_quantity new ->
  pairwise_round bids (trans0 P ++ new) (make_extra (UPq_ P) (UPprice P) (quantity_sum U') p).
Proof.
  intros P H1 H2 H3. unfold pairwise_round, residual_transactions. fold P.
  rewrite skipn_length_app. simpl. auto.
Qed.

(** The loops of VCG trade what the shared pairwise loops trade; only the
    prices differ. *)
Lemma vcg_match_sellers_trades (cap floor MP tw : Q) (bp sp : label -> label -> Q)
    (i : label) (row : Row) (P_Bi : Q) (ms : DataFrame) :
  forall U t t' vp,
    trades t = trades t' ->
    fst (fst (VCG.match_sellers cap floor MP tw i row P_Bi ms U t vp))
      = fst (Pairwise.match_sellers bp sp i row ms U t') /\
    trades (snd (fst (VCG.match_sellers cap floor MP tw i row P_Bi ms U t vp)))
      = trades (snd (Pairwise.match_sellers bp sp i row ms U t')).
Proof.
  induction ms as [|[j seller] rest IH]; intros U t t' vp E; simpl.
  - split; [reflexivity|exact E].
  - destruct (Qeq_bool _ 0); simpl.
    + split; [reflexivity|]. unfold add_transaction, trades in *.
      rewrite !map_app, E. reflexivity.
    + apply IH. unfold add_transaction, trades in *. rewrite !map_app, E. reflexivity.
Qed.

Lemma vcg_match_buyers_trades (cap floor MP tw : Q) (bp sp : label -> label -> Q)
    (rows : DataFrame) :
  forall U t t' vp,
    trades t = trades t' ->
    fst (fst (VCG.match_buyers cap floor MP tw rows U t vp))
      = fst (Pairwise.match_buyers bp sp rows U t') /\
    trades (snd (fst (VCG.match_buyers cap floor MP tw rows U t vp)))
      = trades (snd (Pairwise.match_buyers bp sp rows U t')).
Proof.
  induction rows as [|[i row] rest IH]; intros U t t' vp E; simpl.
  - split; [reflexivity|exact E].
  - destruct (buying row); [|now apply IH].
    destruct (vcg_match_sellers_trades cap floor MP tw bp sp i row
                (VCG.individual_price cap floor MP tw U i row) (selling_rows U) U t t' vp E)
      as [E1 E2].
    destruct (VCG.match_sellers cap floor MP tw i row _ (selling_rows U) U t vp)
      as [[U1 t1] vp1].
    destruct (Pairwise.match_sellers bp sp i row (selling_rows U) U t') as [U1' t1'].
    simpl in E1, E2. subst U1'. now apply IH.
Qed.

Lemma trades_length (t t' : TransactionManager) :
  trades t = trades t' -> List.length t = List.length t'.
Proof.
  intro E. rewrite <- (length_map (fun t => (bid t, t_quantity t)) t).
  rewrite <- (length_map (fun t => (bid t, t_quantity t)) t'). unfold trades in E. now rewrite E.
Qed.

Lemma trades_skipn (n : nat) (t : TransactionManager) :
  trades (skipn n t) = skipn n (trades t).
Proof. unfold trades. symmetry. apply skipn_map. Qed.

Lemma traded_against_trades (k : label) (t : TransactionManager) :
  forall t', trades t = trades t' -> traded_against k t = traded_against k t'.
Proof.
  induction t as [|x t IH]; intros [|y t'] E; try discriminate; [reflexivity|].
  simpl in E. injection E as Eb Eq Et. rewrite !traded_against_cons, Eb, Eq.
  now rewrite (IH t' Et).
Qed.

Lemma ledger_quantity_trades (t : TransactionManager) :
  forall t', trades t = trades t' -> ledger_quantity t = ledger_quantity t'.
Proof.
  unfold ledger_quantity.
  induction t as [|x t IH]; intros [|y t'] E; try discriminate; [reflexivity|].
  simpl in E. injection E as Eb Eq Et. simpl. now rewrite Eq, (IH t' Et).
Qed.

Lemma paired_trades (df : DataFrame) (t : TransactionManager) :
  paired df t -> forall t', trades t = trades t' -> paired df t'.
Proof.
  intro H. induction H as [|b s rest H1 H2 H3 H4 Hr IH]; intros t' E.
  - destruct t'; [constructor|discriminate].
  - destruct t' as [|b' [|s' rest']]; try discriminate.
    simpl in E. injection E as Eb Eq Es Eqs Er.
    constructor.
    + now rewrite <- Eb.
    + now rewrite <- Es.
    + congruence.
    + now rewrite <- Eq.
    + now apply IH.
Qed.

Lemma pairwise_round_trades (bids : DataFrame) (t t' : TransactionManager) (extra : Extra) :
  trades t = trades t' -> pairwise_round bids t extra -> pairwise_round bids t' extra.
Proof.
  intros E [H1 [H2 H3]].
  assert (E' : trades (residual_transactions bids t) = trades (residual_transactions bids t')).
  { unfold residual_transactions. now rewrite !trades_skipn, E. }
  unfold pairwise_round. split; [|split].
  - exact (paired_trades _ _ H1 _ E').
  - intros j r Hr. rewrite <- (traded_against_trades j _ _ E'). now apply H2.
  - rewrite <- (ledger_quantity_trades _ _ E'). exact H3.
Qed.

(** X9.  The pairwise loops of NBS, CGT, CGTS and VCG.  On a bid set with
    unique identifiers whose residual phase runs, whatever round one of
    these mechanisms returns, its residual transactions come in pairs, a
    buyer's followed by a seller's for the same non-negative quantity; no
    seller is recorded for more than its uncovered quantity (a buyer can
    be, as its quantity is read from a stale row); and the residual
    quantity the summary reports is the uncovered quantity less every
    quantity recorded, on both sides. *)
Theorem pairwise_rounds_spare_the_sellers :
  forall (fuel : nat) (bids : DataFrame) (kwargs : Kwargs) (g : CGTS.Generator),
    NoDup (index bids) ->
    residual_guard (primary_phase bids) = true ->
    (forall r, NBS.two_steps_NBS_mechanism fuel bids kwargs = Returns r ->
               pairwise_round bids (fst r) (snd r)) /\
    (forall r, CGT.two_steps_CGT_mechanism bids kwargs = Returns r ->
               pairwise_round bids (fst r) (snd r)) /\
    (forall r, CGTS.two_steps_CGTS_mechanism bids kwargs g = Returns r ->
               pairwise_round bids (CGTS.ledger r) (CGTS.extra r)) /\
    (forall r, VCG.two_steps_VCG_mechanism bids kwargs = Returns r ->
               pairwise_round bids (fst r) (snd r)).
Proof.
  intros fuel bids kwargs g N G.
  assert (R : forall bp sp p,
             pairwise_round bids
               (snd (Pairwise.match_buyers bp sp (bids_uncovered0 (primary_phase bids))
                       (bids_uncovered0 (primary_phase bids)) (trans0 (primary_phase bids))))
               (make_extra (UPq_ (primary_phase bids)) (UPprice (primary_phase bids))
                  (quantity_sum
                     (fst (Pairwise.match_buyers bp sp (bids_uncovered0 (primary_phase bids))
                             (bids_uncovered0 (primary_phase bids))
                             (trans0 (primary_phase bids))))) p)).
  { intros bp sp p. destruct (pairwise_result bp sp bids N) as [U' [new [E [H1 [H2 H3]]]]].
    rewrite E. simpl. now apply pairwise_round_intro. }
  split; [|split; [|split]].
  - intros r. unfold NBS.two_steps_NBS_mechanism. rewrite G.
    destruct (UPprice (primary_phase bids)) as [MP|] eqn:EMP; [|discriminate].
    unfold NBS.nash_bargaining_solution.
    destruct (IPA.price_loop _ _ _ _ _ _ _ _) as [a|]; [|discriminate].
    unfold Pairwise.pairwise.
    specialize (R (fun _ _ => a) (fun _ _ => a) (Some a)).
    destruct (Pairwise.match_buyers _ _ _ _ _) as [U' t'].
    intro E. injection E as <-. simpl. rewrite <- EMP. exact R.
  - intros r. unfold CGT.two_steps_CGT_mechanism. rewrite G.
    unfold CGT.cooperative_game_theory_shapley.
    destruct (CGT.shapley_loop _ _ _) as [sv|]; [|discriminate].
    unfold Pairwise.pairwise.
    match goal with
    | |- context [Pairwise.match_buyers ?bp ?sp _ _ _] =>
        specialize (R bp sp (Some (py_sum (map snd sv) / inject_Z (Z.of_nat (List.length sv)))))
    end.
    destruct (Pairwise.match_buyers _ _ _ _ _) as [U' t'].
    intro E. injection E as <-. exact R.
  - intros r. unfold CGTS.two_steps_CGTS_mechanism. rewrite G.
    unfold CGTS.cooperative_game_theory_shapley_monte_carlo.
    destruct (CGTS.monte_carlo_shapley _ _ _) as [[sv g']|]; [|discriminate].
    unfold Pairwise.pairwise.
    match goal with
    | |- context [Pairwise.match_buyers ?bp ?sp _ _ _] =>
        specialize (R bp sp (Some (py_sum (map snd sv) / inject_Z (Z.of_nat (List.length sv)))))
    end.
    destruct (Pairwise.match_buyers _ _ _ _ _) as [U' t'].
    intro E. injection E as <-. exact R.
  - intros r. unfold VCG.two_steps_VCG_mechanism. rewrite G.
    destruct (UPprice (primary_phase bids)) as [MP|] eqn:EMP; [|discriminate].
    unfold VCG.vickrey_clarke_groves.
    set (U := bids_uncovered0 (primary_phase bids)) in *.
    set (t0 := trans0 (primary_phase bids)) in *.
    destruct (vcg_match_buyers_trades (cap kwargs) (floor kwargs) MP
                (CGTS.calculate_welfare U) (fun _ _ => 0) (fun _ _ => 0) U U t0 t0 MP eq_refl)
      as [E1 E2].
    destruct (VCG.match_buyers _ _ _ _ _ _ _ _) as [[U' t'] vp].
    intro E. injection E as <-. simpl in *.
    specialize (R (fun _ _ => 0) (fun _ _ => 0) (Some vp)).
    rewrite <- E1 in R. rewrite <- EMP.
    exact (pairwise_round_trades bids _ _ _ (eq_sym E2) R).
Qed.

Lemma pairwise_rounds_spare_the_sellers_witness :
  pairwise_round nbs_bids
    (fst (returned (NBS.two_steps_NBS_mechanism 2 nbs_bids default_kwargs) no_round))
    (snd (returned (NBS.two_steps_NBS_mechanism 2 nbs_bids default_kwargs) no_round)) /\
  pairwise_round nbs_bids
    (fst (returned (VCG.two_steps_VCG_mechanism nbs_bids default_kwargs) no_round))
    (snd (returned (VCG.two_steps_VCG_mechanism nbs_bids default_kwargs) no_round)).
Proof.
  assert (N : NoDup (index nbs_bids)).
  { repeat constructor; simpl; intuition discriminate. }
  assert (G : residual_guard (primary_phase nbs_bids) = true) by (vm_compute; reflexivity).
  split.
  - apply (proj1 (pairwise_rounds_spare_the_sellers 2 nbs_bids default_kwargs [] N G)).
    vm_compute. reflexivity.
  - apply (proj2 (proj2 (proj2
             (pairwise_rounds_spare_the_sellers 2 nbs_bids default_kwargs [] N G)))).
    vm_compute. reflexivity.
Defined.

(** ** Prices of the pairwise mechanisms *)

Lemma from_position_add (Pt : Transaction -> Prop) (n : nat) (t : TransactionManager)
    (b : label) (q p : Q) (s : Z) (a : bool) :
  from_position Pt n t -> Pt (mkTransaction b q p s a) ->
  from_position Pt n (add_transaction t b q p s a).
Proof.
  intros [L F] H. unfold from_position, add_transaction. split.
  - rewrite length_app. simpl. lia.
  - rewrite skipn_app. apply Forall_app. split; [exact F|].
    replace (n - List.length t)%nat with 0%nat by lia. simpl. now constructor.
Qed.

Lemma from_position_start (Pt : Transaction -> Prop) (t : TransactionManager) :
  from_position Pt (List.length t) t.
Proof. split; [lia|]. rewrite skipn_all. constructor. Qed.

Section PairwisePrices.

Variable Pt : Transaction -> Prop.
Variables bp sp : label -> label -> Q.
Hypothesis buyer_priced : forall i j q, Pt (mkTransaction i q (bp i j) (-1) false).
Hypothesis seller_priced : forall i j q, Pt (mkTransaction j q (sp i j) (-1) false).

Lemma match_sellers_priced (n : nat) (i : label) (row : Row) (ms : DataFrame) :
  forall U t, from_position Pt n t ->
    from_position Pt n (snd (Pairwise.match_sellers bp sp i row ms U t)).
Proof.
  induction ms as [|[j seller] rest IH]; intros U t H; simpl; [exact H|].
  assert (H' : from_position Pt n
                 (add_transaction
                    (add_transaction t i (py_min (quantity row) (quantity seller))
                       (bp i j) (-1) false)
                    j (py_min (quantity row) (quantity seller)) (sp i j) (-1) false)).
  { apply from_position_add; [apply from_position_add|]; auto. }
  destruct (Qeq_bool _ 0); simpl; [exact H'|now apply IH].
Qed.

Lemma match_buyers_priced (n : nat) (rows : DataFrame) :
  forall U t, from_position Pt n t ->
    from_position Pt n (snd (Pairwise.match_buyers bp sp rows U t)).
Proof.
  induction rows as [|[i row] rest IH]; intros U t H; simpl; [exact H|].
  destruct (buying row); [|now apply IH].
  pose proof (match_sellers_priced n i row (selling_rows U) U t H) as H1.
  destruct (Pairwise.match_sellers bp sp i row (selling_rows U) U t) as [U1 t1].
  now apply IH.
Qed.

End PairwisePrices.

(** *** The exact Shapley values of CGT *)

Lemma selections_In (l : list label) (y : label) (r : list label) :
  In (y, r) (CGT.selections l) -> In y l /\ (forall x, In x r -> In x l).
Proof.
  revert y r. induction l as [|a l IH]; intros y r H; [destruct H|].
  simpl in H. destruct H as [H|H].
  - injection H as <- <-. split; [now left|intros x Hx; now right].
  - apply in_map_iff in H. destruct H as [[y' r'] [E Hin]]. simpl in E.
    injection E as <- <-. destruct (IH _ _ Hin) as [H1 H2]. split; [now right|].
    intros x [Hx|Hx]; [now left|right; now apply H2].
Qed.

Lemma permutations_of_In (n : nat) :
  forall l perm x, In perm (CGT.permutations_of n l) -> In x perm -> In x l.
Proof.
  induction n as [|n IH]; intros l perm x H Hx; simpl in H.
  - destruct H as [<-|[]]. destruct Hx.
  - apply in_flat_map in H. destruct H as [[y r] [Hs Hp]]. simpl in Hp.
    apply in_map_iff in Hp. destruct Hp as [perm' [<- Hp']].
    destruct (selections_In _ _ _ Hs) as [H1 H2].
    destruct Hx as [<-|Hx]; [exact H1|]. apply H2. exact (IH _ _ _ Hp' Hx).
Qed.

Lemma marginal_contribution_zero (U : DataFrame) (p : label) (S : list label) :
  one_side_per_label U -> In p (index U) -> (forall x, In x S -> In x (index U)) ->
  exists v, CGT.marginal_contribution U p S = Some v /\ v == 0.
Proof.
  intros F Hp HS. unfold CGT.marginal_contribution.
  rewrite (welfare_of_coalition U (S ++ [p]) F).
  2:{ intros x Hx. apply in_app_or in Hx. destruct Hx as [Hx|[<-|[]]]; auto. }
  destruct S as [|a S'].
  - eexists. split; [reflexivity|lra].
  - rewrite (welfare_of_coalition U (a :: S') F HS). eexists. split; [reflexivity|lra].
Qed.

Lemma collect_zero (A : Type) (f : A -> option Q) (l : list A) :
  (forall x, In x l -> exists v, f x = Some v /\ v == 0) ->
  exists mc, CGT.collect (map f l) = Some mc /\ Forall (fun v => v == 0) mc.
Proof.
  induction l as [|x l IH]; intro H; simpl.
  - exists []. split; [reflexivity|constructor].
  - destruct (H x (or_introl eq_refl)) as [v [E Hv]]. rewrite E.
    destruct IH as [mc [E' Hmc]]; [intros y Hy; apply H; now right|].
    rewrite E'. exists (v :: mc). split; [reflexivity|now constructor].
Qed.

Lemma shapley_value_zero (U : DataFrame) (p : label) :
  one_side_per_label U -> In p (index U) ->
  exists v, CGT.shapley_value U (index U) p = Some v /\ v == 0.
Proof.
  intros F Hp. unfold CGT.shapley_value.
  destruct (collect_zero _ (CGT.marginal_contribution U p)
              (CGT.permutations (filter (fun x => negb (Z.eqb x p)) (index U))))
    as [mc [E Hmc]].
  - intros S HS. apply marginal_contribution_zero; [exact F|exact Hp|].
    intros x Hx. unfold CGT.permutations in HS.
    pose proof (permutations_of_In _ _ _ _ HS Hx) as Hin.
    now apply filter_In in Hin.
  - rewrite E. eexists. split; [reflexivity|].
    rewrite (py_sum_zero mc Hmc). unfold Qdiv. ring.
Qed.

Lemma shapley_loop_zero (U : DataFrame) (todo : list label) :
  one_side_per_label U -> (forall p, In p todo -> In p (index U)) ->
  exists sv, CGT.shapley_loop U (index U) todo = Some sv /\
             map fst sv = todo /\ Forall (fun e => snd e == 0) sv.
Proof.
  intro F. induction todo as [|p rest IH]; intro H; simpl.
  - exists []. repeat split; constructor.
  - destruct (shapley_value_zero U p F (H p (or_introl eq_refl))) as [v [E Hv]]. rewrite E.
    destruct IH as [sv [E' [K Z]]]; [intros x Hx; apply H; now right|].
    rewrite E'. exists ((p, v) :: sv). split; [reflexivity|].
    split; [simpl; now rewrite K|now constructor].
Qed.

Lemma shapley_price_zero (cap floor : Q) (sv : CGTS.Shapley) (i j : label) :
  Forall (fun e => snd e == 0) sv ->
  clip floor cap ((CGTS.sv_get sv i + CGTS.sv_get sv j) / 2) == clip floor cap 0.
Proof.
  intro Z. apply clip_compat.
  rewrite (sv_get_zero sv i Z), (sv_get_zero sv j Z). reflexivity.
Qed.

Lemma shapley_mean_zero (sv : CGTS.Shapley) :
  Forall (fun e => snd e == 0) sv ->
  py_sum (map snd sv) / inject_Z (Z.of_nat (List.length sv)) == 0.
Proof.
  intro Z.
  assert (S : py_sum (map snd sv) == 0).
  { apply py_sum_zero. apply Forall_forall. intros x Hx. apply in_map_iff in Hx.
    destruct Hx as [e [<- He]]. rewrite Forall_forall in Z. now apply Z. }
  rewrite S. unfold Qdiv. ring.
Qed.

(** X10.  As [calculate_welfare] subtracts two price columns that share no
    label, every coalition is worth 0.  On a bid set with unique
    identifiers whose residual phase runs, CGT (all permutations) and CGTS
    (sampled orderings, whatever the generator) both return; every
    residual transaction they record is priced at 0 clipped to
    [floor, cap], whatever the bids; and the CGT price they report is 0. *)
Theorem shapley_prices_ignore_the_bids :
  forall (bids : DataFrame) (kwargs : Kwargs) (g : CGTS.Generator),
    NoDup (index bids) ->
    residual_guard (primary_phase bids) = true ->
    (exists r p,
       CGT.two_steps_CGT_mechanism bids kwargs = Returns r /\
       Forall (fun t => t_price t == clip (floor kwargs) (cap kwargs) 0)
         (residual_transactions bids (fst r)) /\
       residual_price (snd r) = Some p /\ p == 0) /\
    (exists r p,
       CGTS.two_steps_CGTS_mechanism bids kwargs g = Returns r /\
       Forall (fun t => t_price t == clip (floor kwargs) (cap kwargs) 0)
         (residual_transactions bids (CGTS.ledger r)) /\
       residual_price (CGTS.extra r) = Some p /\ p == 0).
Proof.
  intros bids kwargs g N G.
  pose proof (bids_uncovered0_one_side bids N) as F.
  set (U := bids_uncovered0 (primary_phase bids)) in *.
  set (t0 := trans0 (primary_phase bids)).
  assert (R : forall sv, Forall (fun e => snd e == 0) sv ->
             Forall (fun t => t_price t == clip (floor kwargs) (cap kwargs) 0)
               (residual_transactions bids
                  (snd (Pairwise.match_buyers
                          (fun i j => clip (floor kwargs) (cap kwargs)
                                        ((CGTS.sv_get sv i + CGTS.sv_get sv j) / 2))
                          (fun i j => clip (floor kwargs) (cap kwargs)
                                        ((CGTS.sv_get sv i + CGTS.sv_get sv j) / 2))
                          U U t0)))).
  { intros sv Z. unfold residual_transactions. fold t0.
    apply (match_buyers_priced
             (fun t => t_price t == clip (floor kwargs) (cap kwargs) 0) _ _).
    - intros i j q. simpl. now apply shapley_price_zero.
    - intros i j q. simpl. now apply shapley_price_zero.
    - apply from_position_start. }
  split.
  - destruct (shapley_loop_zero U (index U) F (fun p H => H)) as [sv [E [K Z]]].
    unfold CGT.two_steps_CGT_mechanism. rewrite G.
    unfold CGT.cooperative_game_theory_shapley. fold U. rewrite E.
    unfold Pairwise.pairwise. specialize (R sv Z). fold t0.
    destruct (Pairwise.match_buyers _ _ U U t0) as [U' t']. simpl in R.
    eexists. eexists. split; [reflexivity|]. simpl.
    split; [exact R|]. split; [reflexivity|now apply shapley_mean_zero].
  - destruct (monte_carlo_shapley_zero U (num_samples kwargs) g F) as [sv [g' [E [K Z]]]].
    unfold CGTS.two_steps_CGTS_mechanism. rewrite G.
    unfold CGTS.cooperative_game_theory_shapley_monte_carlo. fold U. rewrite E.
    unfold Pairwise.pairwise. specialize (R sv Z). fold t0.
    destruct (Pairwise.match_buyers _ _ U U t0) as [U' t']. simpl in R.
    eexists. eexists. split; [reflexivity|]. simpl.
    split; [exact R|]. split; [reflexivity|now apply shapley_mean_zero].
Qed.

Lemma shapley_prices_ignore_the_bids_witness :
  (exists r p,
     CGT.two_steps_CGT_mechanism nbs_bids default_kwargs = Returns r /\
     Forall (fun t => t_price t == clip (floor default_kwargs) (cap default_kwargs) 0)
       (residual_transactions nbs_bids (fst r)) /\
     residual_price (snd r) = Some p /\ p == 0) /\
  (exists r p,
     CGTS.two_steps_CGTS_mechanism nbs_bids default_kwargs [1%nat; 0%nat] = Returns r /\
     Forall (fun t => t_price t == clip (floor default_kwargs) (cap default_kwargs) 0)
       (residual_transactions nbs_bids (CGTS.ledger r)) /\
     residual_price (CGTS.extra r) = Some p /\ p == 0).
Proof.
  apply (shapley_prices_ignore_the_bids nbs_bids default_kwargs [1%nat; 0%nat]).
  - repeat constructor; simpl; intuition discriminate.
  - vm_compute. reflexivity.
Defined.

(** *** The individual prices of VCG *)

Lemma offers_sub_quantity (df : DataFrame) (i : label) (q : Q) :
  offers (sub_quantity df i q) = offers df.
Proof.
  unfold offers, sub_quantity. rewrite map_map. apply map_ext.
  intro r. destruct (Z.eqb _ i); reflexivity.
Qed.

Lemma offers_index (U U0 : DataFrame) : offers U = offers U0 -> index U = index U0.
Proof.
  intro E.
  assert (I : forall df, index df = map (fun x : label * Q * bool => fst (fst x)) (offers df)).
  { intro df. unfold index, offers. rewrite map_map. reflexivity. }
  now rewrite (I U), (I U0), E.
Qed.

Lemma offers_In (U U0 : DataFrame) (j : label) (s : Row) :
  offers U = offers U0 -> In (j, s) U ->
  exists r, In (j, r) U0 /\ price r = price s.
Proof.
  intros E H.
  assert (I : In (j, price s, buying s) (offers U0)).
  { rewrite <- E. unfold offers. apply in_map_iff. exists (j, s). split; [reflexivity|exact H]. }
  unfold offers in I. apply in_map_iff in I. destruct I as [[j' r] [Er Hr]].
  simpl in Er. injection Er as -> Ep _. exists r. split; [exact Hr|exact Ep].
Qed.

Lemma NoDup_one_side (df : DataFrame) : NoDup (index df) -> one_side_per_label df.
Proof. intros N i r1 r2 H1 H2. f_equal. exact (unique_labels df N i r1 r2 H1 H2). Qed.

Lemma individual_price_eq (cap floor MP : Q) (U : DataFrame) (i : label) (row : Row) :
  NoDup (index U) ->
  VCG.individual_price cap floor MP 0 U i row == clip floor cap (MP + price row).
Proof.
  intro N. unfold VCG.individual_price.
  rewrite (welfare_zero (VCG.drop U i)).
  - apply clip_compat. ring.
  - apply NoDup_one_side. unfold VCG.drop. now apply NoDup_index_filter.
Qed.

Section VCGPrices.

Variables cap floor MP : Q.
Variable U0 : DataFrame.
Hypothesis U0_labels : NoDup (index U0).

Lemma vcg_match_sellers_priced (n : nat) (i : label) (row : Row) (P_Bi : Q) (ms : DataFrame) :
  (forall q, vcg_priced cap floor MP U0 (mkTransaction i q P_Bi (-1) false)) ->
  forall U t vp,
    offers U = offers U0 ->
    (forall j s, In (j, s) ms -> exists r, In (j, r) U0 /\ price r = price s) ->
    from_position (vcg_priced cap floor MP U0) n t ->
    offers (fst (fst (VCG.match_sellers cap floor MP 0 i row P_Bi ms U t vp))) = offers U0 /\
    from_position (vcg_priced cap floor MP U0) n
      (snd (fst (VCG.match_sellers cap floor MP 0 i row P_Bi ms U t vp))).
Proof.
  intro HB. induction ms as [|[j seller] rest IH]; intros U t vp E F H; simpl.
  - split; assumption.
  - assert (E' : offers (sub_quantity
                           (sub_quantity U i (py_min (quantity row) (quantity seller)))
                           j (py_min (quantity row) (quantity seller))) = offers U0)
      by now rewrite !offers_sub_quantity.
    assert (H' : from_position (vcg_priced cap floor MP U0) n
                   (add_transaction
                      (add_transaction t i (py_min (quantity row) (quantity seller))
                         P_Bi (-1) false)
                      j (py_min (quantity row) (quantity seller))
                      (VCG.individual_price cap floor MP 0 U j seller) (-1) false)).
    { apply from_position_add; [apply from_position_add; [exact H|apply HB]|].
      destruct (F j seller (or_introl eq_refl)) as [r [Hr Ep]].
      exists r. simpl. split; [exact Hr|].
      rewrite individual_price_eq, Ep; [reflexivity|].
      rewrite (offers_index U U0 E). exact U0_labels. }
    destruct (Qeq_bool _ 0); simpl; [split; assumption|].
    apply IH; [exact E'| |exact H'].
    intros j' s' Hin. apply F. now right.
Qed.

Lemma vcg_match_buyers_priced (n : nat) (rows : DataFrame) :
  (forall i row, In (i, row) rows -> In (i, row) U0) ->
  forall U t vp,
    offers U = offers U0 ->
    from_position (vcg_priced cap floor MP U0) n t ->
    from_position (vcg_priced cap floor MP U0) n
      (snd (fst (VCG.match_buyers cap floor MP 0 rows U t vp))).
Proof.
  induction rows as [|[i row] rest IH]; intros HR U t vp E H; simpl; [exact H|].
  assert (HR' : forall i row, In (i, row) rest -> In (i, row) U0)
    by (intros i' row' Hin; apply HR; now right).
  destruct (buying row); [|now apply IH].
  destruct (vcg_match_sellers_priced n i row
              (VCG.individual_price cap floor MP 0 U i row) (selling_rows U)) with
    (U := U) (t := t) (vp := vp) as [E1 H1]; try assumption.
  - intro q. exists row. simpl. split; [apply HR; now left|].
    apply individual_price_eq. rewrite (offers_index U U0 E). exact U0_labels.
  - intros j s Hs. apply filter_In in Hs. destruct Hs as [Hs _].
    exact (offers_In U U0 j s E Hs).
  - destruct (VCG.match_sellers cap floor MP 0 i row _ (selling_rows U) U t vp)
      as [[U1 t1] vp1]. simpl in E1, H1. now apply IH.
Qed.

End VCGPrices.

(** X11.  On a bid set with unique identifiers whose primary phase
    cleared at [MP] and left both sides uncovered, VCG returns, and every
    residual transaction it records against a bid is priced at [MP] plus
    that bid's own price, clipped to [floor, cap]: the welfare terms of
    [P_Bi] and [P_Sj] are all 0. *)
Theorem vcg_price_is_clearing_price_plus_bid :
  forall (bids : DataFrame) (kwargs : Kwargs) (MP : Q),
    NoDup (index bids) ->
    residual_guard (primary_phase bids) = true ->
    UPprice (primary_phase bids) = Some MP ->
    exists r,
      VCG.two_steps_VCG_mechanism bids kwargs = Returns r /\
      Forall (fun t => exists row,
                In (bid t, row) (bids_uncovered0 (primary_phase bids)) /\
                t_price t == clip (floor kwargs) (cap kwargs) (MP + price row))
        (residual_transactions bids (fst r)).
Proof.
  intros bids kwargs MP N G EMP.
  pose proof (bids_uncovered0_NoDup bids N) as NU.
  unfold VCG.two_steps_VCG_mechanism. rewrite G, EMP.
  unfold VCG.vickrey_clarke_groves.
  rewrite (welfare_zero _ (NoDup_one_side _ NU)).
  pose proof (vcg_match_buyers_priced (cap kwargs) (floor kwargs) MP
                (bids_uncovered0 (primary_phase bids)) NU
                (List.length (trans0 (primary_phase bids)))
                (bids_uncovered0 (primary_phase bids)) (fun i row H => H)
                (bids_uncovered0 (primary_phase bids)) (trans0 (primary_phase bids)) MP
                eq_refl (from_position_start _ _)) as [_ H].
  destruct (VCG.match_buyers _ _ _ _ _ _ _ _) as [[U' t'] vp].
  eexists. split; [reflexivity|]. exact H.
Qed.

Lemma vcg_price_is_clearing_price_plus_bid_witness :
  exists r,
    VCG.two_steps_VCG_mechanism nbs_bids default_kwargs = Returns r /\
    Forall (fun t => exists row,
              In (bid t, row) (bids_uncovered0 (primary_phase nbs_bids)) /\
              t_price t == clip (floor default_kwargs) (cap default_kwargs)
                             ((1000 # 10000) + price row))
      (residual_transactions nbs_bids (fst r)).
Proof.
  apply (vcg_price_is_clearing_price_plus_bid nbs_bids default_kwargs (1000 # 10000)).
  - repeat constructor; simpl; intuition discriminate.
  - vm_compute. reflexivity.
  - vm_compute. reflexivity.
Defined.

(** X12.  When NBS returns from a round whose residual phase ran, with
    floor <= cap, every residual transaction, on the buyer's and on the
    seller's side, carries the reported NBS price [p], and [p] lies
    strictly between floor - epsilon and cap + epsilon; it lies inside
    [floor, cap] unless the loop stopped at its first test and [p] is the
    primary clearing price itself. *)
Theorem nbs_price_near_bounds :
  forall (fuel : nat) (bids : DataFrame) (kwargs : Kwargs)
         (trans : TransactionManager) (extra : Extra),
    floor kwargs <= cap kwargs ->
    residual_guard (primary_phase bids) = true ->
    NBS.two_steps_NBS_mechanism fuel bids kwargs = Returns (trans, extra) ->
    exists p,
      residual_price extra = Some p /\
      Forall (fun t => t_price t = p) (residual_transactions bids trans) /\
      floor kwargs - epsilon kwargs < p /\ p < cap kwargs + epsilon kwargs /\
      (Some p = UPprice (primary_phase bids) \/ (floor kwargs <= p /\ p <= cap kwargs)).
Proof.
  intros fuel bids kwargs trans extra B G H.
  unfold NBS.two_steps_NBS_mechanism in H. rewrite G in H.
  destruct (UPprice (primary_phase bids)) as [MP|]; [|discriminate].
  unfold NBS.nash_bargaining_solution in H.
  destruct (IPA.price_loop fuel (floor kwargs) (cap kwargs) (theta kwargs) (epsilon kwargs) _ _ MP)
    as [p|] eqn:L; [|discriminate].
  unfold Pairwise.pairwise in H.
  pose proof (match_buyers_priced (fun t => t_price t = p) (fun _ _ => p) (fun _ _ => p)
                (fun _ _ _ => eq_refl) (fun _ _ _ => eq_refl)
                (List.length (trans0 (primary_phase bids)))
                (bids_uncovered0 (primary_phase bids)) (bids_uncovered0 (primary_phase bids))
                (trans0 (primary_phase bids)) (from_position_start _ _)) as [_ R].
  destruct (Pairwise.match_buyers _ _ _ _ _) as [b t].
  injection H as <- <-. simpl in R.
  destruct (price_loop_near_bounds _ _ _ _ _ _ _ _ _ B L) as [P1 [P2 P3]].
  exists p. split; [reflexivity|]. split; [exact R|].
  repeat split; try assumption. destruct P3 as [->|P3]; [now left|now right].
Qed.

Lemma nbs_price_near_bounds_witness :
  exists p,
    residual_price
      (snd (returned (NBS.two_steps_NBS_mechanism 2 nbs_bids default_kwargs) no_round)) = Some p /\
    Forall (fun t => t_price t = p)
      (residual_transactions nbs_bids
         (fst (returned (NBS.two_steps_NBS_mechanism 2 nbs_bids default_kwargs) no_round))) /\
    floor default_kwargs - epsilon default_kwargs < p /\
    p < cap default_kwargs + epsilon default_kwargs /\
    (Some p = UPprice (primary_phase nbs_bids) \/
     (floor default_kwargs <= p /\ p <= cap default_kwargs)).
Proof.
  apply (nbs_price_near_bounds 2 nbs_bids default_kwargs).
  - discriminate.
  - vm_compute. reflexivity.
  - vm_compute. reflexivity.
Defined.

(** ** The iterations of AUP *)

Section SideIndex.

(** A selection that looks at the label and the side of a row only. *)
Variable f : label * Row -> bool.
Hypothesis f_label_side : forall i q q' p p' b, f (i, mkRow q p b) = f (i, mkRow q' p' b).

Lemma index_filter_update (trans_UP : TransactionManager) :
  forall df, index (filter f (update_remaining df trans_UP)) = index (filter f df).
Proof.
  unfold update_remaining.
  induction trans_UP as [|t l IH]; intro df; simpl; [reflexivity|].
  rewrite IH. destruct (existsb _ _); [|reflexivity].
  rewrite filter_sub_quantity by (intros; apply f_label_side).
  apply index_sub_quantity.
Qed.

Lemma index_filter_adjust (FIT TOU step : Q) (df : DataFrame) :
  index (filter f (AUP.adjust_prices FIT TOU step df)) = index (filter f df).
Proof.
  unfold AUP.adjust_prices.
  induction df as [|[i [q p b]] df IH]; simpl; [reflexivity|].
  rewrite (f_label_side i q q (AUP.series_clip FIT TOU (if b then p * (1 + step) else p * (1 - step)))
             p b).
  destruct (f (i, mkRow q p b)); simpl; now rewrite IH.
Qed.

End SideIndex.

Lemma index_adjust_prices (FIT TOU step : Q) (df : DataFrame) :
  index (AUP.adjust_prices FIT TOU step df) = index df.
Proof. unfold index, AUP.adjust_prices. rewrite map_map. reflexivity. Qed.

Lemma at_quantity_adjust_prices (FIT TOU step : Q) (df : DataFrame) (i : label) :
  Pairwise.at_quantity (AUP.adjust_prices FIT TOU step df) i = Pairwise.at_quantity df i.
Proof.
  unfold Pairwise.at_quantity, AUP.adjust_prices.
  induction df as [|[j r] df IH]; simpl; [reflexivity|].
  destruct (Z.eqb j i); [reflexivity|exact IH].
Qed.

(** One run of the uniform-price mechanism inside an iteration. *)
Lemma up_iteration (cur : DataFrame) :
  NoDup (index cur) ->
  let L := fst (UP.uniform_price_mechanism cur) in
  (forall i, In i (index cur) ->
     Pairwise.at_quantity (update_remaining cur L) i
       == Pairwise.at_quantity cur i - traded_against i L /\
     0 <= traded_against i L /\
     (0 <= Pairwise.at_quantity cur i -> 0 <= Pairwise.at_quantity (update_remaining cur L) i)) /\
  ledger_quantity L == 2 * traded_on (selling_rows cur) L /\
  traded_on (buying_rows cur) L == traded_on (selling_rows cur) L.
Proof.
  intros N L. split.
  - intros i Hi. apply index_In in Hi. destruct Hi as [row Hr].
    destruct (remaining_after_primary_aux cur i row N Hr) as [H1 [H2 H3]].
    unfold after_primary in *. fold L in H1, H2, H3.
    rewrite (at_quantity_In cur i row N Hr). repeat split; try assumption. lra.
  - destruct (UP.find_clearing_price_and_quantity cur) as [[q|] [p|]] eqn:F.
    2-4: subst L; unfold UP.uniform_price_mechanism; rewrite F; unfold traded_on, ledger_quantity;
         simpl; split; lra.
    destruct (primary_sides_sum cur q p N F) as [Ss Sb]. fold L in Ss, Sb.
    split; [|lra]. rewrite Ss.
    destruct (find_clearing_some cur q p F) as [Eq Hpos].
    subst L. unfold UP.uniform_price_mechanism. rewrite F. simpl fst.
    set (buyers := UP.willing_buyers cur p).
    set (sellers := UP.willing_sellers cur p).
    set (tq := py_min (quantity_sum buyers) (quantity_sum sellers)).
    assert (Etq : tq == q).
    { rewrite Eq. unfold tq, UP.traded_qty.
      apply py_min_compat; [apply willing_buyers_sum|apply willing_sellers_sum]. }
    rewrite execute_trades_app, ledger_quantity_app.
    rewrite !execute_trades_sum; [lra|lra|apply py_min_le_l|lra|apply py_min_le_r].
Qed.

Lemma aup_iterate_invariant (bids : DataFrame) (FIT TOU step : Q) :
  NoDup (index bids) ->
  forall n it cur T log res,
    aup_invariant bids cur T ->
    exists cur',
      aup_invariant bids cur' (fst (fst (AUP.iterate n it FIT TOU step cur T log res))).
Proof.
  intro N. induction n as [|n IH]; intros it cur T log res Inv.
  - exists cur. exact Inv.
  - simpl.
    destruct Inv as [I1 [I2 [I3 [I4 [I5 I6]]]]].
    assert (NC : NoDup (index cur)) by now rewrite I1.
    destruct (up_iteration cur NC) as [U1 [U2 U3]].
    destruct (UP.uniform_price_mechanism cur) as [L result]. simpl fst in *.
    rewrite merge_transactions_app.
    assert (Inv' : forall cur', index cur' = index (update_remaining cur L) ->
                     index (selling_rows cur') = index (selling_rows (update_remaining cur L)) ->
                     index (buying_rows cur') = index (buying_rows (update_remaining cur L)) ->
                     (forall i, Pairwise.at_quantity cur' i
                                = Pairwise.at_quantity (update_remaining cur L) i) ->
                     aup_invariant bids cur' (T ++ L)).
    { intros cur' E1 E2 E3 E4. unfold aup_invariant.
      split; [now rewrite E1, index_update_remaining|].
      split; [rewrite E2; unfold selling_rows;
              rewrite index_filter_update by (intros; reflexivity); exact I2|].
      split; [rewrite E3; unfold buying_rows;
              rewrite index_filter_update by (intros; reflexivity); exact I3|].
      split; [|split].
      - intros i Hi. rewrite E4.
        destruct (I4 i Hi) as [A1 [A2 A3]].
        assert (HiC : In i (index cur)) by now rewrite I1.
        destruct (U1 i HiC) as [B1 [B2 B3]].
        rewrite traded_against_app. specialize (B3 A2). repeat split; lra.
      - rewrite ledger_quantity_app, traded_on_app.
        rewrite <- (traded_on_index (selling_rows cur) (selling_rows bids) L I2). lra.
      - rewrite !traded_on_app.
        rewrite <- (traded_on_index (selling_rows cur) (selling_rows bids) L I2).
        rewrite <- (traded_on_index (buying_rows cur) (buying_rows bids) L I3). lra. }
    destruct (Qeq_bool _ 0 || Qeq_bool _ 0).
    + exists (update_remaining cur L). simpl. apply Inv'; reflexivity.
    + apply IH. apply Inv'.
      * apply index_adjust_prices.
      * unfold selling_rows. apply index_filter_adjust. intros; reflexivity.
      * unfold buying_rows. apply index_filter_adjust. intros; reflexivity.
      * intro i. apply at_quantity_adjust_prices.
Qed.

Lemma aup_iterate_result (FIT TOU step : Q) :
  forall n it cur T log res,
    (n <> 0%nat \/ res <> None) ->
    snd (AUP.iterate n it FIT TOU step cur T log res) <> None.
Proof.
  induction n as [|n IH]; intros it cur T log res H; simpl.
  - destruct H as [H|H]; [congruence|exact H].
  - destruct (UP.uniform_price_mechanism cur) as [L result].
    destruct (Qeq_bool _ 0 || Qeq_bool _ 0); simpl; [discriminate|].
    apply IH. right. discriminate.
Qed.

Lemma aup_invariant_start (bids : DataFrame) :
  NoDup (index bids) -> (forall r, In r bids -> 0 <= quantity (snd r)) ->
  aup_invariant bids bids [].
Proof.
  intros N P. unfold aup_invariant.
  split; [reflexivity|]. split; [reflexivity|]. split; [reflexivity|].
  split; [|split; unfold ledger_quantity, traded_on; simpl; lra].
  intros i Hi. apply index_In in Hi. destruct Hi as [row Hr].
  rewrite (at_quantity_In bids i row N Hr). pose proof (P (i, row) Hr) as Hq. simpl in Hq.
  unfold traded_against. simpl. repeat split; lra.
Qed.

Lemma aup_round (bids : DataFrame) (FIT TOU step : Q) (n : nat) :
  NoDup (index bids) -> (forall r, In r bids -> 0 <= quantity (snd r)) ->
  exists trans summary cur,
    AUP.adjusted_uniform_price_mechanism bids FIT TOU step (S n) = Returns (trans, summary) /\
    AUP.clearing_quantity summary = round4 (ledger_quantity trans) /\
    aup_invariant bids cur trans.
Proof.
  intros N P. unfold AUP.adjusted_uniform_price_mechanism.
  destruct (aup_iterate_invariant bids FIT TOU step N (S n) 1%nat bids [] [] None
              (aup_invariant_start bids N P)) as [cur Inv].
  pose proof (aup_iterate_result FIT TOU step (S n) 1%nat bids [] [] None
                (or_introl (Nat.neq_succ_0 n))) as R.
  destruct (AUP.iterate (S n) 1 FIT TOU step bids [] [] None) as [[T log] [result|]];
    [|simpl in R; congruence].
  eexists. eexists. exists cur. split; [reflexivity|]. split; [reflexivity|exact Inv].
Qed.

(** X13.  On a bid set with unique identifiers and non-negative
    quantities, AUP with at least one iteration returns, and over all its
    iterations together no bid is recorded for more than its quantity:
    each iteration trades on what the iterations before it left. *)
Theorem aup_never_over_allocates :
  forall (bids : DataFrame) (FIT TOU step : Q) (n : nat),
    NoDup (index bids) ->
    (forall r, In r bids -> 0 <= quantity (snd r)) ->
    exists trans summary,
      AUP.adjusted_uniform_price_mechanism bids FIT TOU step (S n) = Returns (trans, summary) /\
      forall i row, In (i, row) bids ->
        0 <= traded_against i trans /\ traded_against i trans <= quantity row.
Proof.
  intros bids FIT TOU step n N P.
  destruct (aup_round bids FIT TOU step n N P) as [trans [summary [cur [E [_ Inv]]]]].
  exists trans, summary. split; [exact E|].
  intros i row Hr. destruct Inv as [_ [_ [_ [I4 _]]]].
  assert (Hi : In i (index bids)) by (apply index_In; now exists row).
  destruct (I4 i Hi) as [A1 [A2 A3]].
  rewrite (at_quantity_In bids i row N Hr) in A1. split; lra.
Qed.

Lemma aup_never_over_allocates_witness :
  exists trans summary,
    AUP.adjusted_uniform_price_mechanism nbs_bids (1 # 10) (25 # 100) (1 # 10) 10
      = Returns (trans, summary) /\
    forall i row, In (i, row) nbs_bids ->
      0 <= traded_against i trans /\ traded_against i trans <= quantity row.
Proof.
  apply (aup_never_over_allocates nbs_bids (1 # 10) (25 # 100) (1 # 10) 9).
  - repeat constructor; simpl; intuition discriminate.
  - intros r Hr. simpl in Hr.
    destruct Hr as [<-|[<-|[<-|[<-|[<-|[]]]]]]; simpl; discriminate.
Defined.

(** X14.  The ledger of AUP is balanced, and its summary counts every
    unit twice: over all iterations the buyers are recorded for as much
    as the sellers, and the ['clearing quantity'] AUP reports, the sum of
    the quantity column rounded to 4 decimals, is twice that amount (the
    uniform-price mechanism reports the amount itself). *)
Theorem aup_reports_twice_the_traded_quantity :
  forall (bids : DataFrame) (FIT TOU step : Q) (n : nat),
    NoDup (index bids) ->
    (forall r, In r bids -> 0 <= quantity (snd r)) ->
    exists trans summary,
      AUP.adjusted_uniform_price_mechanism bids FIT TOU step (S n) = Returns (trans, summary) /\
      traded_on (buying_rows bids) trans == traded_on (selling_rows bids) trans /\
      AUP.clearing_quantity summary = round4 (2 * traded_on (selling_rows bids) trans).
Proof.
  intros bids FIT TOU step n N P.
  destruct (aup_round bids FIT TOU step n N P) as [trans [summary [cur [E [Eq Inv]]]]].
  exists trans, summary. split; [exact E|].
  destruct Inv as [_ [_ [_ [_ [I5 I6]]]]]. split; [exact I6|].
  rewrite Eq. now apply round4_compat.
Qed.

Lemma aup_reports_twice_the_traded_quantity_witness :
  exists trans summary,
    AUP.adjusted_uniform_price_mechanism nbs_bids (1 # 10) (25 # 100) (1 # 10) 10
      = Returns (trans, summary) /\
    traded_on (buying_rows nbs_bids) trans == traded_on (selling_rows nbs_bids) trans /\
    AUP.clearing_quantity summary = round4 (2 * traded_on (selling_rows nbs_bids) trans).
Proof.
  apply (aup_reports_twice_the_traded_quantity nbs_bids (1 # 10) (25 # 100) (1 # 10) 9).
  - repeat constructor; simpl; intuition discriminate.
  - intros r Hr. simpl in Hr.
    destruct Hr as [<-|[<-|[<-|[<-|[<-|[]]]]]]; simpl; discriminate.
Defined.

(** *** Prices of AUP *)

Lemma find_clearing_price_In (bids : DataFrame) (q p : Q) :
  UP.find_clearing_price_and_quantity bids = (Some q, Some p) -> In p (prices bids).
Proof.
  intro H.
  assert (HB : buying_rows bids <> []).
  { intro E. unfold UP.find_clearing_price_and_quantity in H. rewrite E in H. discriminate. }
  assert (HS : selling_rows bids <> []).
  { intro E. unfold UP.find_clearing_price_and_quantity in H. rewrite E in H.
    destruct (buying_rows bids); discriminate. }
  destruct (find_clearing_spec bids HB HS) as [S1 S2].
  set (T := UP.traded_qty (buying_rows bids) (selling_rows bids)) in *.
  assert (D : forall x, {T x <= 0} + {~ T x <= 0}).
  { intro x. destruct (Qlt_le_dec 0 (T x)) as [L|L]; [right; lra|left; exact L]. }
  destruct (Forall_Exists_dec _ D (prices bids)) as [F|E].
  - rewrite Forall_forall in F. rewrite (S1 F) in H. discriminate.
  - apply Exists_exists in E. destruct E as [x [Hx Hn]].
    destruct S2 as [p0 [Hp0 [E0 _]]].
    + exists x. split; [exact Hx|]. now apply Qnot_le_lt.
    + rewrite E0 in H. injection H as _ <-. exact Hp0.
Qed.

Lemma up_transaction_prices (cur : DataFrame) :
  Forall (fun t => In (t_price t) (prices cur)) (fst (UP.uniform_price_mechanism cur)).
Proof.
  unfold UP.uniform_price_mechanism.
  destruct (UP.find_clearing_price_and_quantity cur) as [[q|] [p|]] eqn:F;
    simpl; try constructor.
  pose proof (find_clearing_price_In cur q p F) as Hp.
  rewrite execute_trades_app. apply Forall_app. split.
  - eapply Forall_impl; [|apply execute_trades_rows]. intros t [_ [_ ->]]. exact Hp.
  - eapply Forall_impl; [|apply execute_trades_rows]. intros t [_ [_ ->]]. exact Hp.
Qed.

Lemma prices_sub_quantity (df : DataFrame) (i : label) (q : Q) :
  prices (sub_quantity df i q) = prices df.
Proof.
  unfold prices, sub_quantity. rewrite map_map. apply map_ext.
  intro r. destruct (Z.eqb _ i); reflexivity.
Qed.

Lemma prices_update_remaining (trans_UP : TransactionManager) :
  forall df, prices (update_remaining df trans_UP) = prices df.
Proof.
  unfold update_remaining.
  induction trans_UP as [|t l IH]; intro df; simpl; [reflexivity|].
  rewrite IH. destruct (existsb _ _); [apply prices_sub_quantity|reflexivity].
Qed.

Lemma series_clip_bounds (FIT TOU x : Q) :
  py_min FIT TOU <= AUP.series_clip FIT TOU x <= py_max FIT TOU.
Proof.
  unfold AUP.series_clip.
  assert (B : py_min FIT TOU <= py_max FIT TOU).
  { destruct (py_min_spec FIT TOU) as [[? ->]|[? ->]];
      destruct (py_max_spec FIT TOU) as [[? ->]|[? ->]]; lra. }
  destruct (Qltb x (py_min FIT TOU)) eqn:E1; [lra|].
  apply Qltb_false in E1.
  destruct (Qltb (py_max FIT TOU) x) eqn:E2; [lra|].
  apply Qltb_false in E2. lra.
Qed.

Lemma adjust_prices_bounds (FIT TOU step : Q) (df : DataFrame) (x : Q) :
  In x (prices (AUP.adjust_prices FIT TOU step df)) ->
  py_min FIT TOU <= x <= py_max FIT TOU.
Proof.
  unfold prices, AUP.adjust_prices. rewrite map_map. intro H.
  apply in_map_iff in H. destruct H as [r [<- _]]. simpl. apply series_clip_bounds.
Qed.

Lemma aup_iterate_prices (FIT TOU step : Q) :
  forall n it cur T log res,
    (forall x, In x (prices cur) -> py_min FIT TOU <= x <= py_max FIT TOU) ->
    Forall (fun t => py_min FIT TOU <= t_price t <= py_max FIT TOU) T ->
    Forall (fun t => py_min FIT TOU <= t_price t <= py_max FIT TOU)
      (fst (fst (AUP.iterate n it FIT TOU step cur T log res))).
Proof.
  induction n as [|n IH]; intros it cur T log res HP HT; simpl; [exact HT|].
  pose proof (up_transaction_prices cur) as U.
  destruct (UP.uniform_price_mechanism cur) as [L result]. simpl in U.
  rewrite merge_transactions_app.
  assert (HT' : Forall (fun t => py_min FIT TOU <= t_price t <= py_max FIT TOU) (T ++ L)).
  { apply Forall_app. split; [exact HT|].
    eapply Forall_impl; [|exact U]. intros t Ht. now apply HP. }
  destruct (Qeq_bool _ 0 || Qeq_bool _ 0); simpl; [exact HT'|].
  apply IH; [|exact HT']. intros x Hx. exact (adjust_prices_bounds _ _ _ _ x Hx).
Qed.

(** X15.  Whatever AUP returns on bids priced between FIT and TOU, every
    transaction of every iteration is priced between FIT and TOU (between
    the smaller and the larger of the two, as the clip orders them): an
    iteration clears at one of its bid prices, and the prices passed on
    are clipped after each adjustment. *)
Theorem aup_prices_stay_in_bounds :
  forall (bids : DataFrame) (FIT TOU step : Q) (max_iterations : nat)
         (trans : TransactionManager) (summary : AUP.Summary),
    (forall r, In r bids -> py_min FIT TOU <= price (snd r) <= py_max FIT TOU) ->
    AUP.adjusted_uniform_price_mechanism bids FIT TOU step max_iterations
      = Returns (trans, summary) ->
    Forall (fun t => py_min FIT TOU <= t_price t <= py_max FIT TOU) trans.
Proof.
  intros bids FIT TOU step n trans summary HP H.
  unfold AUP.adjusted_uniform_price_mechanism in H.
  pose proof (aup_iterate_prices FIT TOU step n 1%nat bids [] [] None) as R.
  destruct (AUP.iterate n 1 FIT TOU step bids [] [] None) as [[T log] [result|]];
    [|discriminate].
  injection H as <- _. apply R; [|constructor].
  intros x Hx. apply prices_In in Hx. destruct Hx as [r [Hr <-]]. now apply HP.
Qed.

Lemma aup_prices_stay_in_bounds_witness :
  Forall (fun t => py_min (1 # 10) (25 # 100) <= t_price t <= py_max (1 # 10) (25 # 100))
    (fst (returned (AUP.adjusted_uniform_price_mechanism inside_bids
                      (1 # 10) (25 # 100) (1 # 10) 10)
            ([], AUP.mkSummary 0 None []))).
Proof.
  apply (aup_prices_stay_in_bounds inside_bids (1 # 10) (25 # 100) (1 # 10) 10 _
           (snd (returned (AUP.adjusted_uniform_price_mechanism inside_bids
                             (1 # 10) (25 # 100) (1 # 10) 10)
                   ([], AUP.mkSummary 0 None [])))).
  - intros r Hr. simpl in Hr.
    repeat (destruct Hr as [<-|Hr]; [vm_compute; split; discriminate|]). destruct Hr.
  - vm_compute. reflexivity.
Defined.

(** ** The mediation of MUP *)

Lemma at_quantity_cons (j : label) (y : Row) (rest : DataFrame) (k : label) :
  Pairwise.at_quantity ((j, y) :: rest) k
  = if Z.eqb j k then quantity y else Pairwise.at_quantity rest k.
Proof. unfold Pairwise.at_quantity. simpl. now destruct (Z.eqb j k). Qed.

Lemma at_quantity_nonneg (df : DataFrame) (k : label) :
  (forall r, In r df -> 0 < quantity (snd r)) -> 0 <= Pairwise.at_quantity df k.
Proof.
  intro P. unfold Pairwise.at_quantity.
  destruct (find (fun r => Z.eqb (fst r) k) df) as [r|] eqn:E; [|lra].
  apply find_some in E. apply Qlt_le_weak, P, E.
Qed.

Lemma set_quantity_absent (df : DataFrame) (j : label) (v : Q) :
  ~ In j (index df) -> MUP.set_quantity df j v = df.
Proof.
  induction df as [|[k r] df IH]; intro H; simpl; [reflexivity|].
  simpl in H. destruct (Z.eqb_spec k j) as [E|E]; [exfalso; auto|].
  f_equal. apply IH. tauto.
Qed.

Lemma drop_absent (df : DataFrame) (j : label) :
  ~ In j (index df) -> VCG.drop df j = df.
Proof.
  induction df as [|[k r] df IH]; intro H; simpl; [reflexivity|].
  simpl in H. destruct (Z.eqb_spec k j) as [E|E]; [exfalso; auto|].
  simpl. f_equal. apply IH. tauto.
Qed.

Lemma quantity_sum_cons (x : label * Row) (df : DataFrame) :
  quantity_sum (x :: df) == quantity (snd x) + quantity_sum df.
Proof. unfold quantity_sum. simpl. lra. Qed.

Lemma mediation_step (long0 : DataFrame) (st : MUP.State) (new : TransactionManager)
    (L' : DataFrame) (i j : label) (q p : Q) :
  mediation_invariant long0 st new ->
  ~ In i (index long0) -> In j (index (MUP.long_side st)) -> 0 < q ->
  NoDup (index L') -> (forall r, In r L' -> 0 < quantity (snd r)) ->
  (forall k, In k (index L') -> In k (index (MUP.long_side st))) ->
  (forall k, Pairwise.at_quantity L' k
             == Pairwise.at_quantity (MUP.long_side st) k - (if Z.eqb j k then q else 0)) ->
  quantity_sum L' == quantity_sum (MUP.long_side st) - q ->
  mediation_invariant long0 (MUP.record_pair st L' i j q p)
    (new ++ [mkTransaction i q p (-1) false; mkTransaction j q p (-1) false]) /\
  (forall k, ~ In k (index long0) ->
     traded_against k
       (new ++ [mkTransaction i q p (-1) false; mkTransaction j q p (-1) false])
     == traded_against k new + (if Z.eqb i k then q else 0)).
Proof.
  intros [I1 [I2 [I3 [I4 [I5 [I6 I7]]]]]] Hi Hj Hq N' P' S' A' Q'.
  assert (Hj0 : In j (index long0)) by now apply I3.
  split.
  - unfold mediation_invariant. simpl.
    split; [exact N'|]. split; [exact P'|]. split; [intros k Hk; apply I3, S', Hk|].
    split; [|split; [|split]].
    + intros k Hk. rewrite A', traded_against_two. simpl. specialize (I4 k Hk).
      destruct (Z.eqb_spec i k) as [E|E]; [subst k; contradiction|].
      destruct (Z.eqb j k); lra.
    + intro k. rewrite traded_against_two. simpl. specialize (I5 k).
      destruct (Z.eqb i k), (Z.eqb j k); lra.
    + rewrite Q'. lra.
    + rewrite ledger_quantity_two. simpl. lra.
  - intros k Hk. rewrite traded_against_two. simpl.
    destruct (Z.eqb_spec j k) as [E|E]; [subst k; contradiction|].
    destruct (Z.eqb i k); lra.
Qed.

Lemma mediate_spec (long0 : DataFrame) (t0 : TransactionManager) (i : label) (sprice : Q) :
  ~ In i (index long0) ->
  forall rows st sq new,
    MUP.long_side st = rows -> mediation_invariant long0 st new ->
    MUP.trans st = t0 ++ new -> 0 < sq ->
    exists new',
      MUP.trans (MUP.mediate i sprice rows sq st) = t0 ++ new' /\
      mediation_invariant long0 (MUP.mediate i sprice rows sq st) new' /\
      MUP.q_ (MUP.mediate i sprice rows sq st) == MUP.q_ st + py_min sq (quantity_sum rows) /\
      (forall k, ~ In k (index long0) ->
         traded_against k new'
         == traded_against k new + (if Z.eqb i k then py_min sq (quantity_sum rows) else 0)) /\
      (rows <> [] -> MUP.last_price (MUP.mediate i sprice rows sq st) <> None).
Proof.
  intro Hi. induction rows as [|[j y] rest IH]; intros st sq new Hrows Inv Ht Hsq.
  - exists new. simpl.
    assert (E : py_min sq (quantity_sum []) == 0).
    { destruct (py_min_spec sq (quantity_sum [])) as [[_ ->]|[H ->]];
        unfold quantity_sum in *; simpl in *; lra. }
    split; [exact Ht|]. split; [exact Inv|]. split; [rewrite E; lra|].
    split; [|congruence].
    intros k _. destruct (Z.eqb i k); [rewrite E|]; lra.
  - pose proof Inv as [I1 [I2 _]]. rewrite Hrows in I1, I2.
    simpl in I1. inversion I1 as [|? ? Hn N']; subst.
    assert (Hy : 0 < quantity y) by exact (I2 (j, y) (or_introl eq_refl)).
    assert (Prest : forall r, In r rest -> 0 < quantity (snd r))
      by (intros r Hr; apply I2; now right).
    pose proof (quantity_sum_nonneg rest Prest) as Hrest.
    pose proof (quantity_sum_cons (j, y) rest) as S. simpl in S.
    assert (Hj : In j (index (MUP.long_side st))) by (rewrite Hrows; now left).
    simpl MUP.mediate.
    destruct (Qltb sq (quantity y)) eqn:E.
    + apply Qltb_true in E.
      assert (Em : py_min sq (quantity_sum ((j, y) :: rest)) == sq).
      { destruct (py_min_spec sq (quantity_sum ((j, y) :: rest))) as [[H ->]|[H ->]]; lra. }
      destruct (mediation_step long0 st new
                  (MUP.set_quantity (MUP.long_side st) j (quantity y - sq)) i j sq
                  (round4 ((sprice + price y) / 2)) Inv Hi Hj Hsq) as [Inv' F'].
      * rewrite Hrows. simpl. rewrite Z.eqb_refl, set_quantity_absent by exact Hn.
        simpl. constructor; assumption.
      * rewrite Hrows. simpl. rewrite Z.eqb_refl, set_quantity_absent by exact Hn.
        intros r [<-|Hr]; [simpl; lra|now apply Prest].
      * rewrite Hrows. simpl. rewrite Z.eqb_refl, set_quantity_absent by exact Hn.
        simpl. tauto.
      * intro k. rewrite Hrows. simpl MUP.set_quantity.
        rewrite Z.eqb_refl, set_quantity_absent by exact Hn.
        rewrite !at_quantity_cons. simpl. destruct (Z.eqb j k); lra.
      * rewrite Hrows. simpl MUP.set_quantity.
        rewrite Z.eqb_refl, set_quantity_absent by exact Hn.
        rewrite !quantity_sum_cons. simpl. lra.
      * eexists. split; [|split; [exact Inv'|split; [|split]]].
        -- simpl. rewrite Ht. unfold add_transaction. rewrite <- !app_assoc. reflexivity.
        -- simpl. rewrite Em. lra.
        -- intros k Hk. rewrite (F' k Hk). destruct (Z.eqb i k); [rewrite Em|]; lra.
        -- intros _. simpl. discriminate.
    + apply Qltb_false in E.
      destruct (mediation_step long0 st new (VCG.drop (MUP.long_side st) j) i j (quantity y)
                  (round4 ((sprice + price y) / 2)) Inv Hi Hj Hy) as [Inv' F'].
      * rewrite Hrows. simpl. rewrite Z.eqb_refl. simpl. now rewrite drop_absent.
      * rewrite Hrows. simpl. rewrite Z.eqb_refl. simpl. now rewrite drop_absent.
      * rewrite Hrows. simpl. rewrite Z.eqb_refl. simpl. rewrite drop_absent by exact Hn.
        intros k Hk. now right.
      * intro k. rewrite Hrows. simpl VCG.drop. rewrite Z.eqb_refl. simpl.
        rewrite drop_absent by exact Hn. rewrite at_quantity_cons.
        destruct (Z.eqb_spec j k) as [Ejk|Ejk]; [|lra].
        subst k. rewrite (at_quantity_absent rest j Hn). lra.
      * rewrite Hrows. simpl VCG.drop. rewrite Z.eqb_refl. simpl.
        rewrite drop_absent by exact Hn. lra.
      * set (st1 := MUP.record_pair st (VCG.drop (MUP.long_side st) j) i j (quantity y)
                      (round4 ((sprice + price y) / 2))) in *.
        assert (Ht1 : MUP.trans st1 = t0 ++ (new ++
                        [mkTransaction i (quantity y) (round4 ((sprice + price y) / 2)) (-1) false;
                         mkTransaction j (quantity y) (round4 ((sprice + price y) / 2)) (-1) false])).
        { unfold st1. simpl. rewrite Ht. unfold add_transaction.
          rewrite <- !app_assoc. reflexivity. }
        assert (Hl1 : MUP.long_side st1 = rest).
        { unfold st1. simpl. rewrite Hrows. simpl. rewrite Z.eqb_refl. simpl.
          now apply drop_absent. }
        assert (Hq1 : MUP.q_ st1 == MUP.q_ st + quantity y) by (unfold st1; simpl; lra).
        destruct (Qeq_bool (sq - quantity y) 0) eqn:E2.
        -- apply Qeq_bool_iff in E2.
           assert (Em : py_min sq (quantity_sum ((j, y) :: rest)) == quantity y).
           { destruct (py_min_spec sq (quantity_sum ((j, y) :: rest))) as [[H ->]|[H ->]]; lra. }
           eexists. split; [exact Ht1|]. split; [exact Inv'|]. split; [rewrite Em; exact Hq1|].
           split; [|intros _; unfold st1; simpl; discriminate].
           intros k Hk. rewrite (F' k Hk). destruct (Z.eqb i k); [rewrite Em|]; lra.
        -- apply Qeq_bool_neq in E2.
           assert (Hsq1 : 0 < sq - quantity y).
           { destruct (Qlt_le_dec 0 (sq - quantity y)) as [L|L]; [exact L|].
             exfalso. apply E2. lra. }
           destruct (IH st1 (sq - quantity y) _ Hl1 Inv' Ht1 Hsq1)
             as [new' [T' [J' [Q1 [F1 L1]]]]].
           assert (Em : py_min sq (quantity_sum ((j, y) :: rest))
                        == quantity y + py_min (sq - quantity y) (quantity_sum rest)).
           { destruct (py_min_spec sq (quantity_sum ((j, y) :: rest))) as [[H ->]|[H ->]];
               destruct (py_min_spec (sq - quantity y) (quantity_sum rest)) as [[H' ->]|[H' ->]];
               lra. }
           exists new'. split; [exact T'|]. split; [exact J'|].
           split; [rewrite Q1, Hq1, Em; lra|]. split.
           ++ intros k Hk. rewrite (F1 k Hk), (F' k Hk).
              destruct (Z.eqb i k); [rewrite Em|]; lra.
           ++ intros _. destruct rest as [|r0 rest0]; [|apply L1; discriminate].
              simpl. unfold st1. simpl. discriminate.
Qed.

Lemma mediate_all_spec (long0 : DataFrame) (t0 : TransactionManager) :
  forall todo st new,
    mediation_invariant long0 st new -> MUP.trans st = t0 ++ new ->
    NoDup (index todo) ->
    (forall r, In r todo -> ~ In (fst r) (index long0) /\ 0 < quantity (snd r)) ->
    quantity_sum todo <= quantity_sum (MUP.long_side st) ->
    exists new',
      MUP.trans (MUP.mediate_all todo st) = t0 ++ new' /\
      mediation_invariant long0 (MUP.mediate_all todo st) new' /\
      MUP.q_ (MUP.mediate_all todo st) == MUP.q_ st + quantity_sum todo /\
      (forall k, ~ In k (index long0) ->
         traded_against k new' == traded_against k new + Pairwise.at_quantity todo k) /\
      (todo <> [] -> MUP.last_price (MUP.mediate_all todo st) <> None).
Proof.
  induction todo as [|[i x] rest IH]; intros st new Inv Ht N P Hsum.
  - exists new. simpl. split; [exact Ht|]. split; [exact Inv|].
    unfold quantity_sum, Pairwise.at_quantity. simpl.
    split; [lra|]. split; [intros; lra|congruence].
  - simpl in N. inversion N as [|? ? Hn N']; subst.
    destruct (P (i, x) (or_introl eq_refl)) as [Hi Hx]. simpl in Hi, Hx.
    assert (Prest : forall r, In r rest -> ~ In (fst r) (index long0) /\ 0 < quantity (snd r))
      by (intros r Hr; apply P; now right).
    assert (Hrest : 0 <= quantity_sum rest).
    { apply quantity_sum_nonneg. intros r Hr. now apply Prest. }
    pose proof (quantity_sum_cons (i, x) rest) as S. simpl in S.
    destruct (mediate_spec long0 t0 i (price x) Hi (MUP.long_side st) st (quantity x) new
                eq_refl Inv Ht Hx) as [new1 [T1 [J1 [Q1 [F1 L1]]]]].
    assert (Em : py_min (quantity x) (quantity_sum (MUP.long_side st)) == quantity x).
    { destruct (py_min_spec (quantity x) (quantity_sum (MUP.long_side st)))
        as [[H ->]|[H ->]]; lra. }
    set (st1 := MUP.mediate i (price x) (MUP.long_side st) (quantity x) st) in *.
    assert (Hsum1 : quantity_sum rest <= quantity_sum (MUP.long_side st1)).
    { destruct Inv as [_ [_ [_ [_ [_ [G _]]]]]]. destruct J1 as [_ [_ [_ [_ [_ [G1 _]]]]]].
      rewrite Em in Q1. lra. }
    destruct (IH st1 new1 J1 T1 N' Prest Hsum1) as [new' [T' [J' [Q' [F' L']]]]].
    exists new'. simpl MUP.mediate_all. fold st1.
    split; [exact T'|]. split; [exact J'|]. split; [rewrite Q', Q1, Em; lra|]. split.
    + intros k Hk. rewrite (F' k Hk), (F1 k Hk), at_quantity_cons.
      destruct (Z.eqb_spec i k) as [E|E]; [|lra].
      subst k. rewrite (at_quantity_absent rest i Hn), Em. lra.
    + intros _. destruct rest as [|r0 rest0]; [|apply L'; discriminate].
      simpl. apply L1. intro E.
      rewrite E in Hsum. unfold quantity_sum at 2 in Hsum. simpl in Hsum. lra.
Qed.

Lemma long_side_NoDup (b : DataFrame) : NoDup (index b) -> NoDup (index (Common.long_side b)).
Proof.
  intro N. destruct (sides_cases b) as [[-> _]|[-> _]].
  - apply NoDup_index_desc, NoDup_index_filter, N.
  - apply NoDup_index_asc, NoDup_index_filter, N.
Qed.

Lemma sides_labels_disjoint (b : DataFrame) (i : label) :
  NoDup (index b) ->
  In i (index (Common.short_side b)) -> ~ In i (index (Common.long_side b)).
Proof.
  intros N Hs Hl.
  apply index_In in Hs. destruct Hs as [r1 H1].
  apply index_In in Hl. destruct Hl as [r2 H2].
  destruct (sides_cases b) as [[El Es]|[El Es]]; rewrite El in H2; rewrite Es in H1.
  - apply (proj1 (sort_values_asc_In _ _)) in H1. apply (proj1 (sort_values_desc_In _ _)) in H2.
    apply (sides_disjoint b N i); apply index_In; eauto.
  - apply (proj1 (sort_values_desc_In _ _)) in H1. apply (proj1 (sort_values_asc_In _ _)) in H2.
    apply (sides_disjoint b N i); apply index_In; eauto.
Qed.

Lemma sides_sums (b : DataFrame) :
  quantity_sum (Common.short_side b) <= quantity_sum (Common.long_side b) /\
  quantity_sum (Common.short_side b)
  == py_min (quantity_sum (buying_rows b)) (quantity_sum (selling_rows b)).
Proof.
  unfold Common.long_side, Common.short_side, Common.sides.
  pose proof (sort_values_desc_sum (buying_rows b)) as Sb.
  pose proof (sort_values_asc_sum (selling_rows b)) as Ss.
  destruct (Qltb _ _) eqn:E; simpl.
  - apply Qltb_true in E.
    destruct (py_min_spec (quantity_sum (buying_rows b)) (quantity_sum (selling_rows b)))
      as [[H ->]|[H ->]]; lra.
  - apply Qltb_false in E.
    destruct (py_min_spec (quantity_sum (buying_rows b)) (quantity_sum (selling_rows b)))
      as [[H ->]|[H ->]]; lra.
Qed.

Lemma short_side_nonempty (b : DataFrame) :
  buying_rows b <> [] -> selling_rows b <> [] -> Common.short_side b <> [].
Proof.
  intros HB HS. destruct (sides_cases b) as [[_ ->]|[_ ->]].
  - now apply sorted_nonempty_asc.
  - now apply sorted_nonempty_desc.
Qed.

Lemma mediation_mechanism_sides (U : DataFrame) (t0 : TransactionManager) :
  MUP.mediation_mechanism U t0
  = let st := MUP.mediate_all (Common.short_side U)
                (MUP.mkState (Common.long_side U) U t0 0 None) in
    match MUP.last_price st with
    | Some p => Some (MUP.bids st, p, MUP.q_ st, MUP.trans st)
    | None => None
    end.
Proof.
  unfold MUP.mediation_mechanism, Common.long_side, Common.short_side.
  now destruct (Common.sides U).
Qed.

(** What the mediation leaves on uncovered bids. *)
Lemma mediation_result (bids : DataFrame) :
  NoDup (index bids) ->
  residual_guard (primary_phase bids) = true ->
  let U := bids_uncovered0 (primary_phase bids) in
  exists bidsM p q new,
    MUP.mediation_mechanism U (trans0 (primary_phase bids))
      = Some (bidsM, p, q, trans0 (primary_phase bids) ++ new) /\
    q == py_min (quantity_sum (buying_rows U)) (quantity_sum (selling_rows U)) /\
    ledger_quantity new == 2 * q /\
    (forall i row, In (i, row) (Common.short_side U) -> traded_against i new == quantity row) /\
    (forall j row, In (j, row) (Common.long_side U) ->
       0 <= traded_against j new /\ traded_against j new <= quantity row).
Proof.
  intros N G U.
  assert (NU : NoDup (index U)) by now apply bids_uncovered0_NoDup.
  assert (PU : forall r, In r U -> 0 < quantity (snd r)).
  { intros r Hr. exact (bids_uncovered0_positive bids r Hr). }
  destruct (guard_sides_nonempty bids G) as [HB HS]. fold U in HB, HS.
  pose proof (long_side_NoDup U NU) as NL.
  pose proof (short_side_NoDup U NU) as NS.
  destruct (sides_sums U) as [Hle Hmin].
  set (t0 := trans0 (primary_phase bids)).
  set (st0 := MUP.mkState (Common.long_side U) U t0 0 None).
  assert (Inv0 : mediation_invariant (Common.long_side U) st0 []).
  { unfold mediation_invariant. simpl.
    split; [exact NL|]. split; [intros r Hr; apply PU; now apply long_side_In|].
    split; [tauto|]. unfold traded_against, ledger_quantity. simpl.
    split; [intros; lra|]. split; [intros; lra|]. split; lra. }
  destruct (mediate_all_spec (Common.long_side U) t0 (Common.short_side U) st0 []
              Inv0 (eq_sym (app_nil_r t0)) NS) as [new [T [J [Q [F L]]]]].
  - intros r Hr. split.
    + apply sides_labels_disjoint; [exact NU|]. apply index_In. exists (snd r).
      now destruct r.
    + apply PU. now apply short_side_In.
  - exact Hle.
  - specialize (L (short_side_nonempty U HB HS)).
    rewrite mediation_mechanism_sides. fold st0. cbv zeta.
    destruct (MUP.last_price (MUP.mediate_all (Common.short_side U) st0)) as [p|];
      [|congruence].
    exists (MUP.bids (MUP.mediate_all (Common.short_side U) st0)), p,
           (MUP.q_ (MUP.mediate_all (Common.short_side U) st0)), new.
    rewrite T. split; [reflexivity|].
    simpl in Q. split; [rewrite Q, <- Hmin; lra|].
    destruct J as [J1 [J2 [J3 [J4 [J5 [J6 J7]]]]]].
    split; [exact J7|]. split.
    + intros i row Hr.
      assert (Hi : ~ In i (index (Common.long_side U))).
      { apply sides_labels_disjoint; [exact NU|]. apply index_In. now exists row. }
      rewrite (F i Hi), (at_quantity_In _ i row NS Hr).
      unfold traded_against. simpl. lra.
    + intros j row Hr.
      assert (Hj : In j (index (Common.long_side U))) by (apply index_In; now exists row).
      specialize (J4 j Hj). rewrite (at_quantity_In _ j row NL Hr) in J4.
      pose proof (at_quantity_nonneg
                    (MUP.long_side (MUP.mediate_all (Common.short_side U) st0)) j J2) as A.
      specialize (J5 j). split; lra.
Qed.

(** X16.  On a bid set with unique identifiers whose residual phase runs,
    the mediation of MUP returns and clears the short side of the
    uncovered bids: the mediation quantity it reports is the smaller of
    the uncovered buy and sell totals, the residual transactions sum to
    twice that quantity, every short-side bid is recorded for exactly its
    uncovered quantity and no long-side bid for more than its own. *)
Theorem mediation_clears_the_short_side :
  forall (bids : DataFrame) (kwargs : Kwargs),
    NoDup (index bids) ->
    residual_guard (primary_phase bids) = true ->
    exists trans extra,
      MUP.two_steps_UPM_mechanism bids kwargs = Returns (trans, extra) /\
      residual_quantity extra
        == py_min (quantity_sum (buying_rows (bids_uncovered0 (primary_phase bids))))
                  (quantity_sum (selling_rows (bids_uncovered0 (primary_phase bids)))) /\
      ledger_quantity (residual_transactions bids trans) == 2 * residual_quantity extra /\
      (forall i row, In (i, row) (Common.short_side (bids_uncovered0 (primary_phase bids))) ->
         traded_against i (residual_transactions bids trans) == quantity row) /\
      (forall j row, In (j, row) (Common.long_side (bids_uncovered0 (primary_phase bids))) ->
         0 <= traded_against j (residual_transactions bids trans) /\
         traded_against j (residual_transactions bids trans) <= quantity row).
Proof.
  intros bids kwargs N G.
  destruct (mediation_result bids N G) as [bidsM [p [q [new [E [H1 [H2 [H3 H4]]]]]]]].
  unfold MUP.two_steps_UPM_mechanism. rewrite G, E.
  eexists. eexists. split; [reflexivity|].
  unfold residual_transactions. rewrite skipn_length_app. simpl.
  split; [exact H1|]. split; [exact H2|]. split; [exact H3|exact H4].
Qed.

Lemma mediation_clears_the_short_side_witness :
  exists trans extra,
    MUP.two_steps_UPM_mechanism nbs_bids default_kwargs = Returns (trans, extra) /\
    residual_quantity extra
      == py_min (quantity_sum (buying_rows (bids_uncovered0 (primary_phase nbs_bids))))
                (quantity_sum (selling_rows (bids_uncovered0 (primary_phase nbs_bids)))) /\
    ledger_quantity (residual_transactions nbs_bids trans) == 2 * residual_quantity extra /\
    (forall i row, In (i, row) (Common.short_side (bids_uncovered0 (primary_phase nbs_bids))) ->
       traded_against i (residual_transactions nbs_bids trans) == quantity row) /\
    (forall j row, In (j, row) (Common.long_side (bids_uncovered0 (primary_phase nbs_bids))) ->
       0 <= traded_against j (residual_transactions nbs_bids trans) /\
       traded_against j (residual_transactions nbs_bids trans) <= quantity row).
Proof.
  apply (mediation_clears_the_short_side nbs_bids default_kwargs).
  - repeat constructor; simpl; intuition discriminate.
  - vm_compute. reflexivity.
Defined.

(** ** The allocation of the Newton-Raphson mechanism *)

(** Whatever the order of rows with equal prices, a row sorted behind
    another does not have the better price. *)
Lemma insert_asc_behind (x : label * Row) (l : DataFrame) :
  (forall a r c, l = a ++ r :: c -> forall s, In s c -> price (snd r) <= price (snd s)) ->
  forall a r c, insert_asc x l = a ++ r :: c ->
    forall s, In s c -> price (snd r) <= price (snd s).
Proof.
  induction l as [|y l IH]; intros S a r c E s Hs.
  - simpl in E. destruct a as [|a0 a]; [inversion E; subst; destruct Hs|].
    destruct a; discriminate.
  - simpl in E. destruct (Qle_bool (price (snd x)) (price (snd y))) eqn:L.
    + apply Qle_bool_iff in L. destruct a as [|a0 a].
      * inversion E; subst. destruct Hs as [<-|Hs]; [exact L|].
        apply Qle_trans with (price (snd y)); [exact L|].
        apply (S [] y l eq_refl s Hs).
      * inversion E; subst. apply (S a r c H1 s Hs).
    + assert (L' : price (snd y) <= price (snd x)).
      { destruct (Qlt_le_dec (price (snd y)) (price (snd x))) as [G|G]; [lra|].
        apply Qle_bool_iff in G. congruence. }
      assert (S' : forall a r c, l = a ++ r :: c ->
                     forall s, In s c -> price (snd r) <= price (snd s)).
      { intros a' r' c' E' s' Hs'. apply (S (y :: a') r' c'); [now rewrite E'|exact Hs']. }
      destruct a as [|a0 a].
      * inversion E; subst. apply insert_asc_In in Hs. destruct Hs as [->|Hs]; [exact L'|].
        apply (S [] r l eq_refl s Hs).
      * inversion E; subst. apply (IH S' a r c H1 s Hs).
Qed.

Lemma sort_values_asc_behind (df : DataFrame) :
  forall a r c, sort_values_asc df = a ++ r :: c ->
    forall s, In s c -> price (snd r) <= price (snd s).
Proof.
  induction df as [|x df IH]; simpl.
  - intros a r c E. destruct a; discriminate.
  - apply insert_asc_behind, IH.
Qed.

Lemma insert_desc_behind (x : label * Row) (l : DataFrame) :
  (forall a r c, l = a ++ r :: c -> forall s, In s c -> price (snd s) <= price (snd r)) ->
  forall a r c, insert_desc x l = a ++ r :: c ->
    forall s, In s c -> price (snd s) <= price (snd r).
Proof.
  induction l as [|y l IH]; intros S a r c E s Hs.
  - simpl in E. destruct a as [|a0 a]; [inversion E; subst; destruct Hs|].
    destruct a; discriminate.
  - simpl in E. destruct (Qle_bool (price (snd y)) (price (snd x))) eqn:L.
    + apply Qle_bool_iff in L. destruct a as [|a0 a].
      * inversion E; subst. destruct Hs as [<-|Hs]; [exact L|].
        apply Qle_trans with (price (snd y)); [|exact L].
        apply (S [] y l eq_refl s Hs).
      * inversion E; subst. apply (S a r c H1 s Hs).
    + assert (L' : price (snd x) <= price (snd y)).
      { destruct (Qlt_le_dec (price (snd x)) (price (snd y))) as [G|G]; [lra|].
        apply Qle_bool_iff in G. congruence. }
      assert (S' : forall a r c, l = a ++ r :: c ->
                     forall s, In s c -> price (snd s) <= price (snd r)).
      { intros a' r' c' E' s' Hs'. apply (S (y :: a') r' c'); [now rewrite E'|exact Hs']. }
      destruct a as [|a0 a].
      * inversion E; subst. apply insert_desc_In in Hs. destruct Hs as [->|Hs]; [exact L'|].
        apply (S [] r l eq_refl s Hs).
      * inversion E; subst. apply (IH S' a r c H1 s Hs).
Qed.

Lemma sort_values_desc_behind (df : DataFrame) :
  forall a r c, sort_values_desc df = a ++ r :: c ->
    forall s, In s c -> price (snd s) <= price (snd r).
Proof.
  induction df as [|x df IH]; simpl.
  - intros a r c E. destruct a; discriminate.
  - apply insert_desc_behind, IH.
Qed.

Lemma upnr_short_loop_spec (price_ : Q) (rows : DataFrame) :
  forall b trans,
    UPNR.short_loop price_ rows b trans
    = (served rows b, trans ++ map (short_transaction (fun _ => price_)) rows).
Proof.
  induction rows as [|[i x] rest IH]; intros b trans; simpl.
  - now rewrite app_nil_r.
  - rewrite IH. unfold served. simpl. f_equal.
    unfold add_transaction, short_transaction. simpl. now rewrite <- app_assoc.
Qed.

Lemma nothing_traded (new : TransactionManager) :
  Forall (fun t => 0 < t_quantity t) new -> ledger_quantity new == 0 -> new = [].
Proof.
  intros F E. destruct new as [|t new]; [reflexivity|exfalso].
  inversion F as [|? ? Ht F']; subst.
  assert (H : 0 <= ledger_quantity new).
  { clear E F Ht. unfold ledger_quantity.
    induction F' as [|u l Hu Hl IH]; simpl; [lra|]. lra. }
  unfold ledger_quantity in *. simpl in E. lra.
Qed.

(** The long-side loop hands out exactly what is still missing to
    [traded_quantity], as long as its rows can supply it: no row gets
    more than its quantity, and a row gets something only once every row
    before it is served in full. *)
Lemma upnr_long_loop_spec (price_ : Q) (rows : DataFrame) :
  NoDup (index rows) ->
  (forall r, In r rows -> 0 < quantity (snd r)) ->
  forall tq added b trans,
    0 <= added -> added <= tq -> tq - added <= quantity_sum rows ->
    exists b' new,
      UPNR.long_loop price_ rows tq added b trans = (b', trans ++ new) /\
      ledger_quantity new == tq - added /\
      Forall (fun t => In (bid t) (index rows) /\ t_price t = price_ /\ 0 < t_quantity t) new /\
      (forall j, 0 <= traded_against j new /\
                 traded_against j new <= Pairwise.at_quantity rows j) /\
      (forall a k z c, rows = a ++ (k, z) :: c -> 0 < traded_against k new ->
         forall j y, In (j, y) a -> traded_against j new == quantity y).
Proof.
  induction rows as [|[i x] rest IH]; intros N Hpos tq added b trans H0 H1 H2.
  - exists b, []. simpl. rewrite app_nil_r. split; [reflexivity|].
    unfold quantity_sum in H2. simpl in H2. unfold ledger_quantity. simpl.
    split; [lra|]. split; [constructor|]. split.
    + intro j. unfold traded_against, Pairwise.at_quantity. simpl. lra.
    + intros a k z c E. destruct a; discriminate.
  - simpl in N. inversion N as [|? ? Hn N']; subst.
    assert (Hx : 0 < quantity x) by (apply (Hpos (i, x)); now left).
    assert (Hrest : forall r, In r rest -> 0 < quantity (snd r))
      by (intros r Hr; apply Hpos; now right).
    simpl. destruct (Qeq_bool added tq) eqn:E.
    + apply Qeq_bool_iff in E. exists b, []. rewrite app_nil_r. split; [reflexivity|].
      unfold ledger_quantity. simpl. split; [lra|]. split; [constructor|]. split.
      * intro j. assert (T : traded_against j [] = 0) by reflexivity. rewrite T.
        split; [lra|]. apply at_quantity_nonneg. exact Hpos.
      * intros a k z c _ G. assert (T : traded_against k [] = 0) by reflexivity.
        rewrite T in G. lra.
    + apply Qeq_bool_neq in E.
      assert (Hlt : added < tq).
      { destruct (Qlt_le_dec added tq) as [|G]; [assumption|exfalso; apply E; lra]. }
      unfold quantity_sum in H2. simpl in H2. fold (quantity_sum rest) in H2.
      pose proof (quantity_sum_nonneg rest Hrest) as Hnn.
      set (xq := if Qle_bool (quantity x + added) tq then quantity x else tq - added).
      assert (Hxq : 0 < xq /\ xq <= quantity x /\ added + xq <= tq /\
                    tq - (added + xq) <= quantity_sum rest /\
                    (xq = quantity x \/ tq - (added + xq) == 0)).
      { unfold xq. destruct (Qle_bool (quantity x + added) tq) eqn:L.
        - apply Qle_bool_iff in L. repeat split; try lra; now left.
        - apply Qle_bool_false in L. repeat split; try lra; right; lra. }
      destruct Hxq as [X1 [X4 [X2 [X3 X5]]]].
      destruct (IH N' Hrest tq (added + xq) (sub_quantity b i xq)
                  (add_transaction trans i xq price_ (-1) false))
        as [b' [new [El [Es [Ef [Eb Eo]]]]]]; try lra.
      assert (Ti : traded_against i new == 0).
      { destruct (Eb i) as [B1 B2]. rewrite (at_quantity_absent rest i Hn) in B2. lra. }
      exists b', (mkTransaction i xq price_ (-1) false :: new). split.
      * rewrite El. unfold add_transaction. now rewrite <- app_assoc.
      * split; [unfold ledger_quantity in *; simpl; rewrite Es; lra|].
        split.
        { constructor; [simpl; tauto|].
          eapply Forall_impl; [|exact Ef]. simpl. tauto. }
        split.
        { intro j. rewrite traded_against_cons, at_quantity_cons. simpl bid. simpl t_quantity.
          destruct (Z.eqb_spec i j) as [Eij|Eij].
          - subst j. rewrite Ti. lra.
          - apply Eb. }
        intros a k z c Er G j y Hj.
        destruct a as [|a0 a]; [destruct Hj|].
        simpl in Er. inversion Er as [[Ea Erest]]. subst a0.
        assert (Hk : In k (index rest)).
        { rewrite Erest. apply index_In. exists z. apply in_or_app. right. now left. }
        rewrite traded_against_cons in G. simpl bid in G.
        destruct (Z.eqb_spec i k) as [Eik|Eik]; [subst k; contradiction|].
        rewrite traded_against_cons. simpl bid. simpl t_quantity.
        destruct Hj as [Hj|Hj].
        -- inversion Hj; subst j y. rewrite Z.eqb_refl, Ti.
           destruct X5 as [X5|X5]; [rewrite X5; lra|].
           exfalso. assert (Z : new = []).
           { apply nothing_traded; [|rewrite Es; exact X5].
             eapply Forall_impl; [|exact Ef]. simpl. tauto. }
           rewrite Z in G. assert (T : traded_against k [] = 0) by reflexivity.
           rewrite T in G. lra.
        -- assert (Hjr : In j (index rest)).
           { rewrite Erest. apply index_In. exists y. apply in_or_app. now left. }
           destruct (Z.eqb_spec i j) as [Eij|Eij]; [subst j; contradiction|].
           apply (Eo a k z c Erest G j y Hj).
Qed.

Lemma upnr_sides_spec (U : DataFrame) :
  let maxQt := py_min (quantity_sum (sort_values_asc (selling_rows U)))
                      (quantity_sum (sort_values_desc (buying_rows U))) in
  quantity_sum (snd (upnr_sides U)) == maxQt /\ maxQt <= quantity_sum (fst (upnr_sides U)).
Proof.
  unfold upnr_sides.
  set (QS := quantity_sum (sort_values_asc (selling_rows U))).
  set (QB := quantity_sum (sort_values_desc (buying_rows U))).
  simpl. destruct (Qltb QS QB) eqn:E; simpl; fold QS QB.
  - apply Qltb_true in E. destruct (py_min_spec QS QB) as [[H ->]|[H ->]]; lra.
  - apply Qltb_false in E. destruct (py_min_spec QS QB) as [[H ->]|[H ->]]; lra.
Qed.

Lemma upnr_sides_In (U : DataFrame) (r : label * Row) :
  In r (fst (upnr_sides U)) \/ In r (snd (upnr_sides U)) -> In r U.
Proof.
  unfold upnr_sides. destruct (Qltb _ _); simpl; intros [H|H];
    (apply (proj1 (sort_values_asc_In _ _)) in H || apply (proj1 (sort_values_desc_In _ _)) in H);
    now apply filter_In in H.
Qed.

(** On the long side no row stands behind a row it beats on price. *)
Lemma upnr_long_side_order (U : DataFrame) :
  forall a r c, fst (upnr_sides U) = a ++ r :: c ->
    forall s, In s c ->
      ~ (if buying (snd s) then price (snd r) < price (snd s)
         else price (snd s) < price (snd r)).
Proof.
  intros a r c E s Hs. unfold upnr_sides in E.
  destruct (Qltb _ _); simpl in E.
  - pose proof (sort_values_desc_behind _ a r c E s Hs) as L.
    assert (B : buying (snd s) = true).
    { assert (Hin : In s (sort_values_desc (buying_rows U)))
        by (rewrite E; apply in_or_app; right; now right).
      apply (proj1 (sort_values_desc_In _ _)) in Hin. now apply filter_In in Hin. }
    rewrite B. lra.
  - pose proof (sort_values_asc_behind _ a r c E s Hs) as L.
    assert (B : buying (snd s) = false).
    { assert (Hin : In s (sort_values_asc (selling_rows U)))
        by (rewrite E; apply in_or_app; right; now right).
      apply (proj1 (sort_values_asc_In _ _)) in Hin. apply filter_In in Hin.
      now apply negb_true_iff. }
    rewrite B. lra.
Qed.

Lemma upnr_accepts (U : DataFrame) (trans : TransactionManager) (FIT TOU : Q) :
  FIT <= UPNR.discovered_price U -> UPNR.discovered_price U <= TOU ->
  UPNR.newton_raphson_adjustment U trans FIT TOU
  = let price_ := UPNR.discovered_price U in
    let '(long_side, short_side) := upnr_sides U in
    let traded_quantity := py_min (quantity_sum (sort_values_asc (selling_rows U)))
                                  (quantity_sum (sort_values_desc (buying_rows U))) in
    let '(b, t) := UPNR.short_loop price_ short_side U trans in
    let '(b, t) := UPNR.long_loop price_ long_side traded_quantity 0 b t in
    UPNR.mkAdjustment b price_ traded_quantity t.
Proof.
  intros H1 H2. unfold UPNR.newton_raphson_adjustment, upnr_sides.
  replace (Qltb TOU (UPNR.discovered_price U) || Qltb (UPNR.discovered_price U) FIT)
    with false; [reflexivity|].
  symmetry. apply orb_false_iff. split; apply Qltb_false; assumption.
Qed.

(** X6.  When the Newton-Raphson price for uncovered bids (with unique
    identifiers, all of positive quantity) lies within [FIT, TOU], the
    mechanism adds transactions at that price only: every bid of the short
    side trades its full quantity, no bid of the long side trades more than
    its quantity, a long-side bid trades only when every long-side bid with
    a strictly better price (higher for buyers, lower for sellers) trades
    in full, and the long side trades in total what the short side does,
    the reported quantity min(aggregate sell, aggregate buy). *)
Theorem newton_raphson_balanced_allocation :
  forall (U : DataFrame) (trans : TransactionManager) (FIT TOU : Q),
    NoDup (index U) ->
    (forall r, In r U -> 0 < quantity (snd r)) ->
    FIT <= UPNR.discovered_price U -> UPNR.discovered_price U <= TOU ->
    let A := UPNR.newton_raphson_adjustment U trans FIT TOU in
    let long_side := fst (upnr_sides U) in
    let short_side := snd (upnr_sides U) in
    exists new,
      UPNR.Mtrans A = trans ++ new /\
      Forall (fun t => t_price t = UPNR.discovered_price U /\ 0 < t_quantity t) new /\
      (forall i x, In (i, x) short_side -> traded_against i new == quantity x) /\
      (forall j y, In (j, y) long_side ->
         0 <= traded_against j new /\ traded_against j new <= quantity y) /\
      (forall j y k z, In (j, y) long_side -> In (k, z) long_side ->
         (if buying y then price z < price y else price y < price z) ->
         0 < traded_against k new -> traded_against j new == quantity y) /\
      traded_on long_side new == UPNR.Mq_ A /\
      quantity_sum short_side == UPNR.Mq_ A /\
      UPNR.Mq_ A == py_min (quantity_sum (selling_rows U)) (quantity_sum (buying_rows U)) /\
      UPNR.Mprice A = UPNR.discovered_price U.
Proof.
  intros U trans FIT TOU N Hpos H1 H2 A long_side short_side. subst A long_side short_side.
  rewrite (upnr_accepts U trans FIT TOU H1 H2). cbv zeta.
  destruct (upnr_sides_spec U) as [Es El].
  pose proof (upnr_sides_In U) as Hin.
  pose proof (upnr_long_side_order U) as Hord.
  pose proof (long_side_NoDup U N : NoDup (index (fst (upnr_sides U)))) as NL.
  pose proof (short_side_NoDup U N : NoDup (index (snd (upnr_sides U)))) as NS.
  assert (D : forall i, In i (index (snd (upnr_sides U))) ->
                        ~ In i (index (fst (upnr_sides U))))
    by (intro i; exact (sides_labels_disjoint U i N)).
  destruct (upnr_sides U) as [long short]. simpl in *.
  rewrite upnr_short_loop_spec.
  set (p := UPNR.discovered_price U) in *.
  set (tq := py_min (quantity_sum (sort_values_asc (selling_rows U)))
                    (quantity_sum (sort_values_desc (buying_rows U)))) in *.
  assert (PL : forall r, In r long -> 0 < quantity (snd r))
    by (intros r Hr; apply Hpos, Hin; now left).
  assert (PS : forall r, In r short -> 0 < quantity (snd r))
    by (intros r Hr; apply Hpos, Hin; now right).
  pose proof (quantity_sum_nonneg short PS) as Hs.
  destruct (upnr_long_loop_spec p long NL PL tq 0 (served short U)
              (trans ++ map (short_transaction (fun _ => p)) short))
    as [b' [new [E [Sn [Fn [Bn On]]]]]]; try lra.
  rewrite E. simpl.
  exists (map (short_transaction (fun _ => p)) short ++ new).
  assert (Tshort : forall i, ~ In i (index short) ->
            traded_against i (map (short_transaction (fun _ => p)) short) == 0).
  { intros i Hi. rewrite (traded_against_short _ short i NS).
    now rewrite (at_quantity_absent short i Hi). }
  assert (Tlong : forall i, ~ In i (index long) -> traded_against i new == 0).
  { intros i Hi. destruct (Bn i) as [B1 B2].
    rewrite (at_quantity_absent long i Hi) in B2. lra. }
  assert (Llong : forall j y, In (j, y) long ->
            traded_against j (map (short_transaction (fun _ => p)) short ++ new)
            == traded_against j new).
  { intros j y Hj. rewrite traded_against_app, Tshort; [lra|].
    intro Hjs. apply (D j Hjs). apply index_In. now exists y. }
  split; [now rewrite app_assoc|]. split.
  { apply Forall_app. split.
    - apply Forall_forall. intros t Ht. apply in_map_iff in Ht.
      destruct Ht as [r [<- Hr]]. simpl. split; [reflexivity|apply PS, Hr].
    - eapply Forall_impl; [|exact Fn]. simpl. tauto. }
  split.
  { intros i x Hi. rewrite traded_against_app, (traded_against_short _ short i NS).
    rewrite (at_quantity_In short i x NS Hi), Tlong; [lra|].
    apply D. apply index_In. now exists x. }
  split.
  { intros j y Hj. rewrite (Llong j y Hj). destruct (Bn j) as [B1 B2].
    rewrite (at_quantity_In long j y NL Hj) in B2. split; assumption. }
  split.
  { intros j y k z Hj Hk Ha G.
    rewrite (Llong k z Hk) in G. rewrite (Llong j y Hj).
    destruct (in_split _ _ Hk) as [a [c Ec]].
    assert (Hja : In (j, y) a).
    { rewrite Ec in Hj. apply in_app_or in Hj. destruct Hj as [Hj|[Hj|Hj]].
      - exact Hj.
      - inversion Hj; subst. exfalso. destruct (buying y); lra.
      - exfalso. exact (Hord a (k, z) c Ec (j, y) Hj Ha). }
    exact (On a k z c Ec G j y Hja). }
  split.
  { rewrite traded_on_app, traded_on_none, (traded_on_all long new).
    - rewrite Sn. lra.
    - eapply Forall_impl; [|exact Fn]. simpl. tauto.
    - apply Forall_forall. intros t Ht. apply in_map_iff in Ht.
      destruct Ht as [r [<- Hr]]. simpl. apply D.
      destruct r as [i x]. apply index_In. now exists x. }
  split; [exact Es|]. split; [|reflexivity].
  unfold tq. apply py_min_compat; [apply sort_values_asc_sum|apply sort_values_desc_sum].
Qed.

Lemma newton_raphson_balanced_allocation_witness :
  exists new,
    UPNR.Mtrans (UPNR.newton_raphson_adjustment inside_bids [] (1 # 10) (25 # 100)) = [] ++ new /\
    Forall (fun t => t_price t = UPNR.discovered_price inside_bids /\ 0 < t_quantity t) new /\
    (forall i x, In (i, x) (snd (upnr_sides inside_bids)) ->
       traded_against i new == quantity x) /\
    (forall j y, In (j, y) (fst (upnr_sides inside_bids)) ->
       0 <= traded_against j new /\ traded_against j new <= quantity y) /\
    (forall j y k z, In (j, y) (fst (upnr_sides inside_bids)) ->
       In (k, z) (fst (upnr_sides inside_bids)) ->
       (if buying y then price z < price y else price y < price z) ->
       0 < traded_against k new -> traded_against j new == quantity y) /\
    traded_on (fst (upnr_sides inside_bids)) new
      == UPNR.Mq_ (UPNR.newton_raphson_adjustment inside_bids [] (1 # 10) (25 # 100)) /\
    quantity_sum (snd (upnr_sides inside_bids))
      == UPNR.Mq_ (UPNR.newton_raphson_adjustment inside_bids [] (1 # 10) (25 # 100)) /\
    UPNR.Mq_ (UPNR.newton_raphson_adjustment inside_bids [] (1 # 10) (25 # 100))
      == py_min (quantity_sum (selling_rows inside_bids)) (quantity_sum (buying_rows inside_bids)) /\
    UPNR.Mprice (UPNR.newton_raphson_adjustment inside_bids [] (1 # 10) (25 # 100))
      = UPNR.discovered_price inside_bids.
Proof.
  apply (newton_raphson_balanced_allocation inside_bids [] (1 # 10) (25 # 100)).
  - repeat constructor; simpl; intuition discriminate.
  - intros r Hr. simpl in Hr. destruct Hr as [<-|[<-|[]]]; reflexivity.
  - vm_compute. discriminate.
  - vm_compute. discriminate.
Defined.

(** ** Value sharing *)

Lemma Qsum_repeat (x : Q) (n : nat) : Qsum (repeat x n) == inject_Z (Z.of_nat n) * x.
Proof.
  induction n as [|n IH].
  - change (0 == 0 * x). lra.
  - rewrite Nat2Z.inj_succ. unfold Z.succ. rewrite inject_Z_plus. simpl repeat. simpl Qsum.
    rewrite IH. change (inject_Z 1) with 1. lra.
Qed.

Lemma Qsum_scale (k : Q) (l : list Q) : Qsum (map (fun a => a * k) l) == Qsum l * k.
Proof. induction l as [|x l IH]; simpl; [lra|rewrite IH; lra]. Qed.

Lemma Qsum_map_ext (A : Type) (f g : A -> Q) (l : list A) :
  (forall x, In x l -> f x == g x) -> Qsum (map f l) == Qsum (map g l).
Proof.
  induction l as [|x l IH]; intro H; simpl; [lra|].
  rewrite (H x (or_introl eq_refl)), IH; [lra|]. intros y Hy. apply H. now right.
Qed.

Lemma Qsum_nonneg (l : list Q) : Forall (fun x => 0 <= x) l -> 0 <= Qsum l.
Proof. induction 1 as [|x l Hx Hl IH]; simpl; lra. Qed.

Lemma Qsum_Permutation (l l' : list Q) : Permutation l l' -> Qsum l == Qsum l'.
Proof. induction 1; simpl; lra. Qed.

Lemma Qsum_share (t G : Q) (l : list Q) :
  ~ t == 0 -> Qsum l == t -> Qsum (map (fun c => c / t * G) l) == G.
Proof.
  intros Ht E.
  rewrite (Qsum_map_ext _ (fun c => c / t * G) (fun c => c * (/ t * G))).
  - rewrite Qsum_scale, E. field. exact Ht.
  - intros x _. unfold Qdiv. ring.
Qed.

Lemma members_nonzero (n : nat) : n <> 0%nat -> ~ inject_Z (Z.of_nat n) == 0.
Proof.
  intros H E. apply H. unfold Qeq in E. simpl in E. lia.
Qed.

Lemma members_positive (n : nat) : n <> 0%nat -> 0 < inject_Z (Z.of_nat n).
Proof. intro H. unfold Qlt. simpl. lia. Qed.

Lemma Qsum_equal_shares (G : Q) (n : nat) :
  n <> 0%nat -> Qsum (repeat (G / inject_Z (Z.of_nat n)) n) == G.
Proof. intro H. rewrite Qsum_repeat. field. now apply members_nonzero. Qed.

(** *** Payments *)

Lemma payment_bounds (x tou fit : Q) :
  fit <= tou ->
  x * tou <= VS.compute_individual_payment x tou fit /\
  x * fit <= VS.compute_individual_payment x tou fit.
Proof.
  intro H. unfold VS.compute_individual_payment.
  destruct (Qltb 0 x) eqn:E.
  - apply Qltb_true in E. split; nra.
  - apply Qltb_false in E. split; nra.
Qed.

Lemma payment_cases (x tou fit : Q) :
  VS.compute_individual_payment x tou fit = x * tou \/
  VS.compute_individual_payment x tou fit = x * fit.
Proof. unfold VS.compute_individual_payment. destruct (Qltb 0 x); auto. Qed.

Lemma payment_compat (x y tou fit : Q) :
  x == y -> VS.compute_individual_payment x tou fit == VS.compute_individual_payment y tou fit.
Proof.
  intro E. unfold VS.compute_individual_payment.
  destruct (Qltb 0 x) eqn:Ex; destruct (Qltb 0 y) eqn:Ey;
    try apply Qltb_true in Ex; try apply Qltb_false in Ex;
    try apply Qltb_true in Ey; try apply Qltb_false in Ey;
    try (rewrite E; reflexivity); lra.
Qed.

Lemma payment_of_sum (l : list Q) (tou fit : Q) :
  fit <= tou ->
  VS.compute_individual_payment (Qsum l) tou fit
  <= Qsum (VS.compute_all_individual_payments l tou fit).
Proof.
  intro H.
  assert (B : Qsum l * tou <= Qsum (VS.compute_all_individual_payments l tou fit) /\
              Qsum l * fit <= Qsum (VS.compute_all_individual_payments l tou fit)).
  { unfold VS.compute_all_individual_payments.
    induction l as [|x l IH]; simpl; [lra|].
    destruct (payment_bounds x tou fit H). lra. }
  destruct (payment_cases (Qsum l) tou fit) as [-> | ->]; tauto.
Qed.

Lemma payment_subadditive (a b tou fit : Q) :
  fit <= tou ->
  VS.compute_individual_payment (a + b) tou fit
  <= VS.compute_individual_payment a tou fit + VS.compute_individual_payment b tou fit.
Proof.
  intro H. destruct (payment_bounds a tou fit H), (payment_bounds b tou fit H).
  destruct (payment_cases (a + b) tou fit) as [-> | ->]; lra.
Qed.

Lemma gain_of_nonneg (net : list Q) (tou fit : Q) :
  fit <= tou -> 0 <= VS.gain_of net tou fit.
Proof.
  intro H. unfold VS.gain_of, VS.compute_community_gain, VS.compute_community_net_energy.
  change (VS.compute_community_payment (Qsum net) tou fit)
    with (VS.compute_individual_payment (Qsum net) tou fit).
  pose proof (payment_of_sum net tou fit H). lra.
Qed.

Lemma gain_of_compat (l l' : list Q) (tou fit : Q) :
  Permutation l l' -> VS.gain_of l tou fit == VS.gain_of l' tou fit.
Proof.
  intro P. unfold VS.gain_of, VS.compute_community_gain, VS.compute_community_net_energy.
  change VS.compute_community_payment with VS.compute_individual_payment.
  rewrite (payment_compat (Qsum l) (Qsum l') tou fit (Qsum_Permutation l l' P)).
  unfold VS.compute_all_individual_payments.
  rewrite (Qsum_Permutation _ _ (Permutation_map _ P)). reflexivity.
Qed.

(** *** The data of a timestamp *)

Lemma np_sub_same_length (a b : list Q) :
  List.length a = List.length b -> VS.np_sub a b = Some (net_of a b).
Proof. intro E. unfold VS.np_sub. rewrite E, Nat.eqb_refl. reflexivity. Qed.

Lemma net_of_length (a b : list Q) :
  List.length a = List.length b -> List.length (net_of a b) = List.length a.
Proof. intro E. unfold net_of. rewrite length_map, length_combine. lia. Qed.

Lemma timestamp_data (c g : list Q) (tou fit : Q) :
  List.length c = List.length g ->
  exists d, VS.compute_timestamp_data c g tou fit = Some d /\
            VS.net_energy d = net_of c g /\
            VS.community_gain d = VS.gain_of (net_of c g) tou fit.
Proof.
  intro E. unfold VS.compute_timestamp_data, VS.compute_net_energy.
  rewrite (np_sub_same_length c g E). eexists. split; [reflexivity|]. split; reflexivity.
Qed.

(** X17.  For consumption and generation arrays of one length and a
    feed-in tariff that does not exceed the time-of-use price,
    [compute_timestamp_data] returns and the community gain it computes is
    never negative: paying as one community never costs more than the
    members pay alone. *)
Theorem community_gain_is_never_negative :
  forall (consumption generation : list Q) (tou_price fit_price : Q),
    List.length consumption = List.length generation ->
    fit_price <= tou_price ->
    exists data,
      VS.compute_timestamp_data consumption generation tou_price fit_price = Some data /\
      VS.community_gain data
        == Qsum (VS.individual_payments data) - VS.community_payment data /\
      0 <= VS.community_gain data.
Proof.
  intros c g tou fit E H.
  unfold VS.compute_timestamp_data, VS.compute_net_energy.
  rewrite (np_sub_same_length c g E). eexists. split; [reflexivity|]. simpl.
  split; [unfold VS.compute_community_gain; reflexivity|].
  exact (gain_of_nonneg (net_of c g) tou fit H).
Qed.

Lemma community_gain_is_never_negative_witness :
  exists data,
    VS.compute_timestamp_data [5; 1; 0] [0; 4; 3] (25 # 100) (10 # 100) = Some data /\
    VS.community_gain data
      == Qsum (VS.individual_payments data) - VS.community_payment data /\
    0 <= VS.community_gain data.
Proof.
  apply (community_gain_is_never_negative [5; 1; 0] [0; 4; 3] (25 # 100) (10 # 100)).
  - reflexivity.
  - discriminate.
Defined.

(** *** Normalisation *)

Lemma normalize_length (l : list Q) (t : Q) :
  List.length (VS.normalize_allocations l t) = List.length l.
Proof.
  unfold VS.normalize_allocations. destruct (Qeq_bool _ 0);
    [apply repeat_length|apply length_map].
Qed.

Lemma normalize_sum (l : list Q) (t : Q) :
  l <> [] -> Qsum (VS.normalize_allocations l t) == t.
Proof.
  intro H. unfold VS.normalize_allocations.
  destruct (Qeq_bool (Qsum l) 0) eqn:E.
  - apply Qsum_equal_shares. destruct l; [congruence|discriminate].
  - apply Qeq_bool_neq in E. rewrite Qsum_scale. field. exact E.
Qed.

Lemma Forall_repeat (P : Q -> Prop) (x : Q) (n : nat) : P x -> Forall P (repeat x n).
Proof. intro H. apply Forall_forall. intros y Hy. apply repeat_spec in Hy. now subst. Qed.

Lemma share_nonneg (G : Q) (n : nat) : 0 <= G -> 0 <= G / inject_Z (Z.of_nat n).
Proof.
  intro H. destruct n as [|n].
  - unfold Qdiv. change (/ inject_Z (Z.of_nat 0)) with 0. lra.
  - apply Qle_shift_div_l; [apply members_positive; discriminate|lra].
Qed.

Lemma ratio_nonneg (a s G : Q) : 0 <= a -> 0 < s -> 0 <= G -> 0 <= a / s * G.
Proof.
  intros Ha Hs HG. apply Qmult_le_0_compat; [|exact HG].
  apply Qle_shift_div_l; [exact Hs|lra].
Qed.

Lemma normalize_nonneg (l : list Q) (t : Q) :
  Forall (fun x => 0 <= x) l -> 0 <= t ->
  Forall (fun x => 0 <= x) (VS.normalize_allocations l t).
Proof.
  intros Hl Ht. unfold VS.normalize_allocations.
  destruct (Qeq_bool (Qsum l) 0) eqn:E.
  - apply Forall_repeat. now apply share_nonneg.
  - apply Qeq_bool_neq in E. pose proof (Qsum_nonneg l Hl) as Hs.
    assert (Hpos : 0 < Qsum l).
    { destruct (Qlt_le_dec 0 (Qsum l)) as [L|L]; [exact L|]. exfalso. apply E. lra. }
    apply Forall_forall. intros y Hy. apply in_map_iff in Hy. destruct Hy as [a [<- Ha]].
    rewrite Forall_forall in Hl. apply Qmult_le_0_compat; [now apply Hl|].
    apply Qle_shift_div_l; [exact Hpos|lra].
Qed.

Lemma scale_by_one (k : Q) (l : list Q) :
  k == 1 -> Forall2 Qeq (map (fun a => a * k) l) l.
Proof. intro E. induction l as [|x l IH]; simpl; constructor; [rewrite E; lra|exact IH]. Qed.

Lemma normalize_identity (l : list Q) (t : Q) :
  Qsum l == t -> ~ t == 0 -> Forall2 Qeq (VS.normalize_allocations l t) l.
Proof.
  intros E Ht. unfold VS.normalize_allocations.
  destruct (Qeq_bool (Qsum l) 0) eqn:E0.
  - apply Qeq_bool_iff in E0. exfalso. apply Ht. lra.
  - apply scale_by_one. rewrite E. field. exact Ht.
Qed.

(** *** Equal, generation-based and consumption-based sharing *)

Lemma equal_sharing_spec (c g : list Q) (tou fit : Q) :
  List.length c = List.length g ->
  VS.equal_sharing c g tou fit
  = Some (repeat (VS.gain_of (net_of c g) tou fit / inject_Z (Z.of_nat (List.length c)))
                 (List.length c)).
Proof.
  intro E. unfold VS.equal_sharing.
  destruct (timestamp_data c g tou fit E) as [d [-> [_ ->]]]. reflexivity.
Qed.

Lemma proportional_sharing_spec (w : list Q) (G : Q) :
  Qeq_bool (Qsum w) 0 = false ->
  Qsum (map (fun x => x / Qsum w * G) w) == G /\
  (Forall (fun x => 0 <= x) w -> 0 <= G ->
   Forall (fun x => 0 <= x) (map (fun x => x / Qsum w * G) w)).
Proof.
  intro E. apply Qeq_bool_neq in E. split.
  - now apply Qsum_share.
  - intros Hw HG. pose proof (Qsum_nonneg w Hw) as Hs.
    assert (Hpos : 0 < Qsum w).
    { destruct (Qlt_le_dec 0 (Qsum w)) as [L|L]; [exact L|]. exfalso. apply E. lra. }
    apply Forall_forall. intros y Hy. apply in_map_iff in Hy. destruct Hy as [a [<- Ha]].
    rewrite Forall_forall in Hw. apply ratio_nonneg; auto.
Qed.

(** *** Marginal contributions *)

Lemma without_length (l : list Q) (i : nat) :
  (i < List.length l)%nat -> S (List.length (VS.without l i)) = List.length l.
Proof.
  revert i. induction l as [|x l IH]; intros i H; simpl in *; [lia|].
  destruct i as [|i]; [reflexivity|]. simpl. rewrite IH; [reflexivity|lia].
Qed.

Lemma without_net_of (c g : list Q) (i : nat) :
  net_of (VS.without c i) (VS.without g i) = VS.without (net_of c g) i.
Proof.
  revert g i. induction c as [|x c IH]; intros g i.
  - destruct g, i; reflexivity.
  - destruct g as [|y g].
    + destruct i; simpl; [now destruct c|]. unfold net_of. simpl.
      now destruct (VS.without c i).
    + destruct i as [|i]; [reflexivity|]. unfold net_of in *. simpl. now rewrite IH.
Qed.

Lemma Qsum_without (l : list Q) (i : nat) :
  (i < List.length l)%nat -> Qsum l == Qsum (VS.without l i) + nth i l 0.
Proof.
  revert i. induction l as [|x l IH]; intros i H; simpl in *; [lia|].
  destruct i as [|i]; [lra|]. simpl. rewrite (IH i); [lra|lia].
Qed.

Lemma payments_without (l : list Q) (i : nat) (tou fit : Q) :
  (i < List.length l)%nat ->
  Qsum (VS.compute_all_individual_payments l tou fit)
  == Qsum (VS.compute_all_individual_payments (VS.without l i) tou fit)
     + VS.compute_individual_payment (nth i l 0) tou fit.
Proof.
  unfold VS.compute_all_individual_payments.
  revert i. induction l as [|x l IH]; intros i H; simpl in *; [lia|].
  destruct i as [|i]; [lra|]. simpl. rewrite (IH i); [lra|lia].
Qed.

(** A group gains at least what it gains without one of its members. *)
Lemma gain_of_without (l : list Q) (i : nat) (tou fit : Q) :
  fit <= tou -> (i < List.length l)%nat ->
  VS.gain_of (VS.without l i) tou fit <= VS.gain_of l tou fit.
Proof.
  intros H Hi. unfold VS.gain_of, VS.compute_community_gain, VS.compute_community_net_energy.
  change VS.compute_community_payment with VS.compute_individual_payment.
  rewrite (payments_without l i tou fit Hi).
  rewrite (payment_compat (Qsum l) (Qsum (VS.without l i) + nth i l 0) tou fit
             (Qsum_without l i Hi)).
  pose proof (payment_subadditive (Qsum (VS.without l i)) (nth i l 0) tou fit H). lra.
Qed.

Lemma gain_without_member (c g : list Q) (i : nat) (tou fit : Q) :
  List.length c = List.length g -> (i < List.length c)%nat ->
  exists v, VS.compute_gain_without_member c g i tou fit = Some v /\
            (fit <= tou -> 0 <= v /\ v <= VS.gain_of (net_of c g) tou fit).
Proof.
  intros E Hi. unfold VS.compute_gain_without_member.
  rewrite (proj2 (Nat.ltb_lt _ _) Hi), <- E, Nat.eqb_refl.
  destruct (VS.without c i) as [|x r] eqn:W.
  - exists 0. split; [reflexivity|]. intro H. split; [lra|now apply gain_of_nonneg].
  - rewrite <- W. unfold VS.compute_net_energy.
    assert (L : List.length (VS.without c i) = List.length (VS.without g i)).
    { pose proof (without_length c i Hi). pose proof (without_length g i).
      rewrite <- E in H0. specialize (H0 Hi). lia. }
    rewrite (np_sub_same_length _ _ L). eexists. split; [reflexivity|].
    intro H. split; [now apply gain_of_nonneg|].
    rewrite without_net_of. apply gain_of_without; [exact H|].
    rewrite net_of_length; assumption.
Qed.

Lemma marginal_contributions_spec (c g : list Q) (tou fit G : Q) :
  List.length c = List.length g ->
  forall todo i, (i + todo <= List.length c)%nat ->
    exists mc, VS.marginal_contributions c g tou fit G i todo = Some mc /\
               List.length mc = todo /\
               (fit <= tou -> G = VS.gain_of (net_of c g) tou fit ->
                Forall (fun x => 0 <= x) mc).
Proof.
  intro E. induction todo as [|todo IH]; intros i H; simpl.
  - exists []. repeat split; constructor.
  - destruct (gain_without_member c g i tou fit E) as [v [-> Hv]]; [lia|].
    destruct (IH (S i)) as [mc [-> [L P]]]; [lia|].
    eexists. split; [reflexivity|]. split; [simpl; now rewrite L|].
    intros Hf HG. constructor; [|now apply P].
    destruct (Hv Hf) as [_ Hle]. rewrite HG. lra.
Qed.

(** *** The cooperative-game rule *)

Lemma member_le_sum (l : list Q) (x : Q) :
  Forall (fun y => 0 <= y) l -> In x l -> x <= Qsum l.
Proof.
  induction 1 as [|y l Hy Hl IH]; intro Hin; [destruct Hin|].
  destruct Hin as [E|Hin]; simpl.
  - subst. pose proof (Qsum_nonneg l Hl). lra.
  - specialize (IH Hin). lra.
Qed.

Lemma position_share_nonneg (net : list Q) (base x : Q) :
  0 <= base -> In x net ->
  0 <= VS.position_share base (VS.deficit_sum net) (VS.surplus_sum net) x.
Proof.
  intros Hb Hin. unfold VS.position_share.
  destruct (Qltb 0 x) eqn:Ex.
  - apply Qltb_true in Ex.
    destruct (Qltb 0 (VS.deficit_sum net)) eqn:Ed; [|exact Hb].
    apply Qltb_true in Ed.
    assert (Hx : x <= VS.deficit_sum net).
    { unfold VS.deficit_sum. apply member_le_sum.
      - apply Forall_forall. intros y Hy. apply filter_In in Hy. destruct Hy as [_ Hy].
        apply Qltb_true in Hy. lra.
      - apply filter_In. split; [exact Hin|now apply Qltb_true]. }
    apply Qmult_le_0_compat; [|exact Hb].
    assert (R : x / VS.deficit_sum net <= 1) by (apply Qle_shift_div_r; lra). lra.
  - destruct (Qltb x 0) eqn:Ex'; [|exact Hb].
    apply Qltb_true in Ex'.
    destruct (Qltb (VS.surplus_sum net) 0) eqn:Es; [|exact Hb].
    apply Qltb_true in Es.
    apply Qmult_le_0_compat; [|exact Hb].
    assert (R : 0 <= x / VS.surplus_sum net).
    { setoid_replace (x / VS.surplus_sum net) with ((- x) / (- VS.surplus_sum net)).
      - apply Qle_shift_div_l; lra.
      - field. lra. }
    lra.
Qed.

(** *** The sampled Shapley values *)

Lemma take_spec (a : list Q) (S : list nat) :
  Forall (fun i => (i < List.length a)%nat) S ->
  VS.take a S = Some (map (fun i => nth i a 0) S).
Proof.
  induction 1 as [|i S Hi HS IH]; simpl; [reflexivity|].
  rewrite IH. destruct (nth_error a i) as [x|] eqn:E.
  - now rewrite (nth_error_nth a i 0 E).
  - apply nth_error_None in E. lia.
Qed.

Lemma nth_net_of (c g : list Q) (i : nat) :
  List.length c = List.length g -> (i < List.length c)%nat ->
  nth i (net_of c g) 0 = nth i c 0 - nth i g 0.
Proof.
  revert g i. induction c as [|x c IH]; intros [|y g] i E Hi; simpl in *; try lia.
  destruct i as [|i]; [reflexivity|]. apply IH; lia.
Qed.

Lemma coalition_net_takes (c g : list Q) (S : list nat) :
  List.length c = List.length g ->
  Forall (fun i => (i < List.length c)%nat) S ->
  net_of (map (fun i => nth i c 0) S) (map (fun i => nth i g 0) S) = coalition_net c g S.
Proof.
  intros E. induction 1 as [|i S Hi HS IH]; [reflexivity|].
  unfold net_of, coalition_net in *. simpl. rewrite IH. f_equal.
  symmetry. now apply nth_net_of.
Qed.

Lemma gain_of_nil (tou fit : Q) : VS.gain_of [] tou fit == 0.
Proof.
  unfold VS.gain_of, VS.compute_community_gain, VS.compute_community_payment,
    VS.compute_community_net_energy, VS.compute_all_individual_payments.
  cbn [map Qsum]. assert (E : Qltb 0 0 = false) by reflexivity. rewrite E. lra.
Qed.

Lemma characteristic_function_spec (c g : list Q) (S : list nat) (tou fit : Q) :
  List.length c = List.length g ->
  Forall (fun i => (i < List.length c)%nat) S ->
  exists v, VS.characteristic_function c g S tou fit = Some v /\
            v == VS.gain_of (coalition_net c g S) tou fit.
Proof.
  intros E HS. destruct S as [|i S].
  - exists 0. split; [reflexivity|]. symmetry. apply gain_of_nil.
  - unfold VS.characteristic_function.
    rewrite (take_spec c (i :: S) HS).
    rewrite (take_spec g (i :: S)) by (now rewrite <- E).
    unfold VS.compute_net_energy. rewrite np_sub_same_length by (now rewrite !length_map).
    rewrite (coalition_net_takes c g (i :: S) E HS).
    eexists. split; [reflexivity|reflexivity].
Qed.

Lemma add_at_spec (a : list Q) (i : nat) (v : Q) :
  (i < List.length a)%nat ->
  exists a', VS.add_at a i v = Some a' /\ List.length a' = List.length a /\
             Qsum a' == Qsum a + v /\
             (0 <= v -> Forall (fun x => 0 <= x) a -> Forall (fun x => 0 <= x) a').
Proof.
  revert i. induction a as [|x a IH]; intros i H; simpl in *; [lia|].
  destruct i as [|i].
  - eexists. split; [reflexivity|]. split; [reflexivity|]. split; [simpl; lra|].
    intros Hv Ha. inversion Ha; subst. constructor; [lra|assumption].
  - destruct (IH i) as [a' [-> [L [S P]]]]; [lia|].
    eexists. split; [reflexivity|]. split; [simpl; now rewrite L|]. split; [simpl; lra|].
    intros Hv Ha. inversion Ha; subst. constructor; [assumption|now apply P].
Qed.

(** Joining a coalition never lowers its gain. *)
Lemma gain_of_joined (l : list Q) (x tou fit : Q) :
  fit <= tou -> VS.gain_of l tou fit <= VS.gain_of (l ++ [x]) tou fit.
Proof.
  intro H.
  rewrite (gain_of_compat (l ++ [x]) (x :: l) tou fit)
    by (apply Permutation_sym, Permutation_cons_append).
  apply (gain_of_without (x :: l) 0 tou fit H). simpl. lia.
Qed.

Section ShapleySampling.

Variables (c g : list Q) (tou fit : Q).
Hypothesis same_length : List.length c = List.length g.

Lemma add_members_spec (perm : list nat) :
  forall coalition sv,
    Forall (fun i => (i < List.length c)%nat) perm ->
    Forall (fun i => (i < List.length c)%nat) coalition ->
    List.length sv = List.length c ->
    exists sv',
      VS.add_members c g tou fit perm coalition sv = Some sv' /\
      List.length sv' = List.length c /\
      Qsum sv' == Qsum sv + VS.gain_of (coalition_net c g (coalition ++ perm)) tou fit
                  - VS.gain_of (coalition_net c g coalition) tou fit /\
      (fit <= tou -> Forall (fun x => 0 <= x) sv -> Forall (fun x => 0 <= x) sv').
Proof.
  induction perm as [|i rest IH]; intros coalition sv Hp Hc L.
  - exists sv. simpl. rewrite app_nil_r. split; [reflexivity|]. split; [exact L|].
    split; [lra|auto].
  - inversion Hp as [|? ? Hi Hrest]; subst.
    assert (Hc' : Forall (fun i => (i < List.length c)%nat) (coalition ++ [i])).
    { apply Forall_app. split; [exact Hc|]. constructor; [exact Hi|constructor]. }
    simpl.
    destruct (characteristic_function_spec c g coalition tou fit same_length Hc)
      as [vb [-> Eb]].
    destruct (characteristic_function_spec c g (coalition ++ [i]) tou fit same_length Hc')
      as [va [-> Ea]].
    destruct (add_at_spec sv i (va - vb)) as [sv1 [-> [L1 [S1 P1]]]]; [now rewrite L|].
    destruct (IH (coalition ++ [i]) sv1 Hrest Hc') as [sv' [E' [L' [S' P']]]];
      [now rewrite L1|].
    exists sv'. split; [exact E'|]. split; [exact L'|]. split.
    + rewrite S', S1, Ea, Eb, <- app_assoc. simpl. lra.
    + intros Hf Hsv. apply P'; [exact Hf|]. apply P1; [|exact Hsv].
      rewrite Ea, Eb. unfold coalition_net. rewrite map_app. simpl.
      pose proof (gain_of_joined (map (fun i0 => nth i0 (net_of c g) 0) coalition)
                    (nth i (net_of c g) 0) tou fit Hf). lra.
Qed.

Lemma nth_seq_all (l : list Q) : map (fun i => nth i l 0) (seq 0 (List.length l)) = l.
Proof.
  induction l as [|x l IH]; [reflexivity|].
  simpl. f_equal. rewrite <- seq_shift, map_map. exact IH.
Qed.

Lemma full_coalition_gain (perm : list nat) :
  permutation_of_members (List.length c) perm ->
  VS.gain_of (coalition_net c g perm) tou fit == VS.gain_of (net_of c g) tou fit.
Proof.
  intro P. unfold permutation_of_members in P.
  assert (E : coalition_net c g (seq 0 (List.length c)) = net_of c g).
  { unfold coalition_net.
    rewrite <- (net_of_length c g same_length). apply nth_seq_all. }
  rewrite <- E. apply gain_of_compat. unfold coalition_net. now apply Permutation_map.
Qed.

Lemma permutation_in_range (perm : list nat) :
  permutation_of_members (List.length c) perm ->
  Forall (fun i => (i < List.length c)%nat) perm.
Proof.
  intro P. apply Forall_forall. intros i Hi.
  apply (Permutation_in _ P) in Hi. apply in_seq in Hi. lia.
Qed.

Lemma sample_permutations_spec (perms : list (list nat)) :
  forall sv,
    Forall (permutation_of_members (List.length c)) perms ->
    List.length sv = List.length c ->
    exists sv',
      VS.sample_permutations c g tou fit perms sv = Some sv' /\
      List.length sv' = List.length c /\
      Qsum sv' == Qsum sv + inject_Z (Z.of_nat (List.length perms))
                            * VS.gain_of (net_of c g) tou fit /\
      (fit <= tou -> Forall (fun x => 0 <= x) sv -> Forall (fun x => 0 <= x) sv').
Proof.
  induction perms as [|perm rest IH]; intros sv Hp L.
  - exists sv. split; [reflexivity|]. split; [exact L|]. split; [|auto].
    change (inject_Z (Z.of_nat (List.length (@nil (list nat))))) with 0. lra.
  - inversion Hp as [|? ? P Hrest]; subst.
    simpl VS.sample_permutations.
    destruct (add_members_spec perm [] sv (permutation_in_range perm P) (Forall_nil _) L)
      as [sv1 [-> [L1 [S1 P1]]]].
    destruct (IH sv1 Hrest L1) as [sv' [E' [L' [S' P']]]].
    exists sv'. split; [exact E'|]. split; [exact L'|]. split.
    + rewrite S', S1. simpl app. rewrite (full_coalition_gain perm P).
      change (coalition_net c g []) with (@nil Q). rewrite gain_of_nil.
      simpl List.length. rewrite Nat2Z.inj_succ. unfold Z.succ. rewrite inject_Z_plus.
      change (inject_Z 1) with 1. lra.
    + intros Hf Hsv. apply P'; [exact Hf|]. now apply P1.
Qed.

Lemma sampled_shapley_values_spec (perms : list (list nat)) :
  perms <> [] ->
  Forall (permutation_of_members (List.length c)) perms ->
  exists sv,
    VS.sampled_shapley_values c g tou fit perms = Some sv /\
    List.length sv = List.length c /\
    Qsum sv == VS.gain_of (net_of c g) tou fit /\
    (fit <= tou -> Forall (fun x => 0 <= x) sv).
Proof.
  intros Hne Hp. unfold VS.sampled_shapley_values.
  destruct (sample_permutations_spec perms (repeat 0 (List.length c)) Hp (repeat_length _ _))
    as [sv [-> [L [S P]]]].
  assert (K : (List.length perms <> 0)%nat) by (destruct perms; [congruence|discriminate]).
  destruct perms as [|p0 rest]; [congruence|].
  eexists. split; [reflexivity|]. split; [now rewrite length_map|]. split.
  - rewrite (Qsum_map_ext _ _ (fun v => v * / inject_Z (Z.of_nat (List.length (p0 :: rest)))))
      by (intros; reflexivity).
    rewrite Qsum_scale, S, Qsum_repeat. field. now apply members_nonzero.
  - intro Hf. apply Forall_forall. intros y Hy. apply in_map_iff in Hy.
    destruct Hy as [v [<- Hv]].
    assert (Hsv : Forall (fun x => 0 <= x) sv).
    { apply P; [exact Hf|]. apply Forall_repeat. lra. }
    rewrite Forall_forall in Hsv.
    apply Qle_shift_div_l; [now apply members_positive|]. specialize (Hsv v Hv). lra.
Qed.

End ShapleySampling.

(** *** The six rules *)

Lemma nonempty_length (A : Type) (l : list A) : l <> [] -> List.length l <> 0%nat.
Proof. destruct l; [congruence|discriminate]. Qed.

Lemma length_nonempty (A : Type) (l : list A) : List.length l <> 0%nat -> l <> [].
Proof. destruct l; [simpl; congruence|discriminate]. Qed.

Lemma sharing_rules_spec (c g : list Q) (tou fit : Q) (perms : list (list nat)) :
  List.length c = List.length g -> c <> [] -> perms <> [] ->
  Forall (permutation_of_members (List.length c)) perms ->
  Forall (fun rule =>
            exists a, rule = Some a /\ List.length a = List.length c /\
                      Qsum a == VS.gain_of (net_of c g) tou fit /\
                      (fit <= tou -> Forall (fun x => 0 <= x) c ->
                       Forall (fun x => 0 <= x) g -> Forall (fun x => 0 <= x) a))
         (sharing_rules c g tou fit perms).
Proof.
  intros E Hc Hp HP.
  pose proof (nonempty_length _ c Hc) as Hn.
  set (G := VS.gain_of (net_of c g) tou fit).
  assert (EQ : exists a, VS.equal_sharing c g tou fit = Some a /\
                 List.length a = List.length c /\ Qsum a == G /\
                 (fit <= tou -> Forall (fun x => 0 <= x) c ->
                  Forall (fun x => 0 <= x) g -> Forall (fun x => 0 <= x) a)).
  { rewrite (equal_sharing_spec c g tou fit E). eexists. split; [reflexivity|].
    split; [apply repeat_length|]. split; [now apply Qsum_equal_shares|].
    intros Hf _ _. apply Forall_repeat, share_nonneg. now apply gain_of_nonneg. }
  destruct (timestamp_data c g tou fit E) as [d [Ed [En EG]]]. fold G in EG.
  unfold sharing_rules. repeat constructor.
  - exact EQ.
  - unfold VS.generation_based_sharing. rewrite Ed.
    destruct (Qeq_bool (Qsum g) 0) eqn:E0; [exact EQ|].
    destruct (proportional_sharing_spec g (VS.community_gain d) E0) as [S P].
    eexists. split; [reflexivity|]. split; [rewrite length_map; now symmetry|].
    split; [rewrite S, EG; reflexivity|].
    intros Hf _ Hg. apply P; [exact Hg|]. rewrite EG. now apply gain_of_nonneg.
  - unfold VS.consumption_based_sharing. rewrite Ed.
    destruct (Qeq_bool (Qsum c) 0) eqn:E0; [exact EQ|].
    destruct (proportional_sharing_spec c (VS.community_gain d) E0) as [S P].
    eexists. split; [reflexivity|]. split; [now rewrite length_map|].
    split; [rewrite S, EG; reflexivity|].
    intros Hf Hc' _. apply P; [exact Hc'|]. rewrite EG. now apply gain_of_nonneg.
  - unfold VS.marginal_contribution_sharing. rewrite Ed.
    destruct (marginal_contributions_spec c g tou fit (VS.community_gain d) E
                (List.length c) 0%nat (le_n _)) as [mc [-> [L P]]].
    destruct (Qltb (Qabs (Qsum mc)) (1 # 10000000000)) eqn:E0; [exact EQ|].
    apply Qltb_false in E0.
    assert (Hs : ~ Qsum mc == 0).
    { intro Z. rewrite Z in E0. revert E0. apply Qlt_not_le. reflexivity. }
    eexists. split; [reflexivity|]. split; [now rewrite length_map|].
    split; [rewrite (Qsum_share (Qsum mc) (VS.community_gain d) mc Hs (Qeq_refl _)), EG;
            reflexivity|].
    intros Hf _ _. specialize (P Hf EG).
    pose proof (Qsum_nonneg mc P) as Hs0.
    assert (Hpos : 0 < Qsum mc).
    { destruct (Qlt_le_dec 0 (Qsum mc)) as [L0|L0]; [exact L0|]. exfalso. apply Hs. lra. }
    apply Forall_forall. intros y Hy. apply in_map_iff in Hy. destruct Hy as [m [<- Hm]].
    rewrite Forall_forall in P. apply ratio_nonneg; auto.
    rewrite EG. now apply gain_of_nonneg.
  - unfold VS.shapley_value_sharing. rewrite Ed.
    destruct (sampled_shapley_values_spec c g tou fit E perms Hp HP) as [sv [-> [L [S P]]]].
    eexists. split; [reflexivity|]. split; [now rewrite normalize_length|].
    split; [rewrite normalize_sum, EG; [reflexivity|]; apply length_nonempty; now rewrite L|].
    intros Hf _ _. apply normalize_nonneg; [now apply P|].
    rewrite EG. now apply gain_of_nonneg.
  - unfold VS.cooperative_game_sharing. rewrite Ed, En.
    assert (F : firstn (List.length c) (net_of c g) = net_of c g).
    { rewrite <- (net_of_length c g E). apply firstn_all. }
    rewrite F, (net_of_length c g E), Nat.leb_refl.
    eexists. split; [reflexivity|].
    split; [now rewrite normalize_length, length_map, net_of_length|].
    split.
    + rewrite normalize_sum, EG; [reflexivity|].
      apply length_nonempty. now rewrite length_map, net_of_length.
    + intros Hf _ _. apply normalize_nonneg; [|rewrite EG; now apply gain_of_nonneg].
      apply Forall_forall. intros y Hy. apply in_map_iff in Hy. destruct Hy as [x [<- Hx]].
      apply position_share_nonneg; [|exact Hx].
      apply share_nonneg. rewrite EG. now apply gain_of_nonneg.
Qed.

(** X18.  Budget balance.  For a community of at least one member, with
    consumption and generation arrays of one length, each of the six
    sharing rules (equal, generation-based, consumption-based, marginal
    contribution, sampled Shapley with at least one permutation,
    cooperative game) returns one allocation per member, and the
    allocations add up to the community gain of the timestamp, fallbacks
    to equal sharing included. *)
Theorem allocations_add_up_to_the_community_gain :
  forall (consumption generation : list Q) (tou_price fit_price : Q)
         (permutations : list (list nat)),
    List.length consumption = List.length generation ->
    consumption <> [] -> permutations <> [] ->
    Forall (permutation_of_members (List.length consumption)) permutations ->
    exists data,
      VS.compute_timestamp_data consumption generation tou_price fit_price = Some data /\
      Forall (fun rule =>
                exists allocations,
                  rule = Some allocations /\
                  List.length allocations = List.length consumption /\
                  Qsum allocations == VS.community_gain data)
             (sharing_rules consumption generation tou_price fit_price permutations).
Proof.
  intros c g tou fit perms E Hc Hp HP.
  destruct (timestamp_data c g tou fit E) as [d [Ed [_ EG]]].
  exists d. split; [exact Ed|].
  eapply Forall_impl; [|exact (sharing_rules_spec c g tou fit perms E Hc Hp HP)].
  intros rule [a [Ea [L [S _]]]]. exists a. split; [exact Ea|]. split; [exact L|].
  now rewrite EG.
Qed.

Lemma allocations_add_up_to_the_community_gain_witness :
  exists data,
    VS.compute_timestamp_data [5; 1; 0] [0; 4; 3] (25 # 100) (10 # 100) = Some data /\
    Forall (fun rule =>
              exists allocations,
                rule = Some allocations /\
                List.length allocations = List.length [5; 1; 0] /\
                Qsum allocations == VS.community_gain data)
           (sharing_rules [5; 1; 0] [0; 4; 3] (25 # 100) (10 # 100)
              [[2; 0; 1]; [0; 1; 2]]%nat).
Proof.
  apply (allocations_add_up_to_the_community_gain [5; 1; 0] [0; 4; 3] (25 # 100) (10 # 100)
           [[2; 0; 1]; [0; 1; 2]]%nat).
  - reflexivity.
  - discriminate.
  - discriminate.
  - repeat constructor.
    exact (perm_trans (perm_swap 0%nat 2%nat [1%nat]) (perm_skip 0%nat (perm_swap 1%nat 2%nat []))).
Defined.

(** X19.  The sampled Shapley values are efficient before they are
    normalised: whatever permutations of the members are drawn (at least
    one), the averaged marginal contributions add up to the community
    gain, so that [normalize_allocations] leaves them as they are whenever
    the gain is not 0. *)
Theorem sampled_shapley_values_are_efficient :
  forall (consumption generation : list Q) (tou_price fit_price : Q)
         (permutations : list (list nat)),
    List.length consumption = List.length generation ->
    permutations <> [] ->
    Forall (permutation_of_members (List.length consumption)) permutations ->
    exists data shapley_values allocations,
      VS.compute_timestamp_data consumption generation tou_price fit_price = Some data /\
      VS.sampled_shapley_values consumption generation tou_price fit_price permutations
        = Some shapley_values /\
      Qsum shapley_values == VS.community_gain data /\
      VS.shapley_value_sharing consumption generation tou_price fit_price permutations
        = Some allocations /\
      (~ VS.community_gain data == 0 -> Forall2 Qeq allocations shapley_values).
Proof.
  intros c g tou fit perms E Hp HP.
  destruct (timestamp_data c g tou fit E) as [d [Ed [_ EG]]].
  destruct (sampled_shapley_values_spec c g tou fit E perms Hp HP) as [sv [Es [L [S _]]]].
  exists d, sv. unfold VS.shapley_value_sharing. rewrite Ed, Es.
  eexists. split; [reflexivity|]. split; [reflexivity|]. split; [now rewrite EG|].
  split; [reflexivity|]. intro Hg. apply normalize_identity; [now rewrite EG|exact Hg].
Qed.

Lemma sampled_shapley_values_are_efficient_witness :
  exists data shapley_values allocations,
    VS.compute_timestamp_data [5; 1; 0] [0; 4; 3] (25 # 100) (10 # 100) = Some data /\
    VS.sampled_shapley_values [5; 1; 0] [0; 4; 3] (25 # 100) (10 # 100)
      [[2; 0; 1]; [0; 1; 2]]%nat = Some shapley_values /\
    Qsum shapley_values == VS.community_gain data /\
    VS.shapley_value_sharing [5; 1; 0] [0; 4; 3] (25 # 100) (10 # 100)
      [[2; 0; 1]; [0; 1; 2]]%nat = Some allocations /\
    (~ VS.community_gain data == 0 -> Forall2 Qeq allocations shapley_values).
Proof.
  apply (sampled_shapley_values_are_efficient [5; 1; 0] [0; 4; 3] (25 # 100) (10 # 100)
           [[2; 0; 1]; [0; 1; 2]]%nat).
  - reflexivity.
  - discriminate.
  - repeat constructor.
    exact (perm_trans (perm_swap 0%nat 2%nat [1%nat]) (perm_skip 0%nat (perm_swap 1%nat 2%nat []))).
Defined.

(** X20.  No negative share.  With a feed-in tariff that does not exceed
    the time-of-use price and non-negative consumption and generation,
    none of the six sharing rules gives a member a negative allocation:
    the gain is never negative, a coalition never gains less by being
    joined, and every rule shares the gain with non-negative weights. *)
Theorem no_member_gets_a_negative_share :
  forall (consumption generation : list Q) (tou_price fit_price : Q)
         (permutations : list (list nat)),
    List.length consumption = List.length generation ->
    consumption <> [] -> permutations <> [] ->
    Forall (permutation_of_members (List.length consumption)) permutations ->
    fit_price <= tou_price ->
    Forall (fun x => 0 <= x) consumption ->
    Forall (fun x => 0 <= x) generation ->
    Forall (fun rule =>
              exists allocations,
                rule = Some allocations /\ Forall (fun x => 0 <= x) allocations)
           (sharing_rules consumption generation tou_price fit_price permutations).
Proof.
  intros c g tou fit perms E Hc Hp HP Hf Hcn Hgn.
  eapply Forall_impl; [|exact (sharing_rules_spec c g tou fit perms E Hc Hp HP)].
  intros rule [a [Ea [_ [_ P]]]]. exists a. split; [exact Ea|]. now apply P.
Qed.

Lemma no_member_gets_a_negative_share_witness :
  Forall (fun rule =>
            exists allocations,
              rule = Some allocations /\ Forall (fun x => 0 <= x) allocations)
         (sharing_rules [5; 1; 0] [0; 4; 3] (25 # 100) (10 # 100)
            [[2; 0; 1]; [0; 1; 2]]%nat).
Proof.
  apply (no_member_gets_a_negative_share [5; 1; 0] [0; 4; 3] (25 # 100) (10 # 100)
           [[2; 0; 1]; [0; 1; 2]]%nat).
  - reflexivity.
  - discriminate.
  - discriminate.
  - repeat constructor.
    exact (perm_trans (perm_swap 0%nat 2%nat [1%nat]) (perm_skip 0%nat (perm_swap 1%nat 2%nat []))).
  - discriminate.
  - repeat constructor; discriminate.
  - repeat constructor; discriminate.
Defined.
